(** * Deep security analyzer: a shallow embedding of [deep_analyzer.py]

    The analyzer receives a batch decoded by [json.loads], runs two
    detectors over every record, and folds all findings into a report.
    The development follows the source file: Python values and
    exceptions first, then the fragment of [re] the pattern table needs,
    then the four methods of [DeepSecurityAnalyzer], then the vocabulary
    of the specification and the theorems.

    Scope of the model.  A [str] is a sequence of code points below 256,
    classified and lowered as CPython does; [re.finditer] is a
    backtracking matcher for the constructs that occur in the five
    patterns (literals, character sets, [.], [\s], [\w], [\b], greedy
    repetition of a one-character item, sequence and ordered
    alternation), all under [re.IGNORECASE]; exceptions are kept by
    class, without their messages. *)

From Stdlib Require Import ZArith List Bool Ascii String Lia Arith Permutation.
Import ListNotations.

Local Open Scope string_scope.
Local Open Scope list_scope.
Set Warnings "-register-all".

(* ================================================================== *)
(** ** Python values, exceptions and built-ins *)
(* ================================================================== *)

Module Py.

(** The exceptions the analyzer can raise on decoded JSON. *)
Inductive exn : Set := TypeError | AttributeError | KeyError.

Inductive result (A : Type) : Type :=
| Ok (a : A)
| Raise (e : exn).
Arguments Ok {A} a.
Arguments Raise {A} e.

Definition bind {A B : Type} (m : result A) (f : A -> result B) : result B :=
  match m with
  | Ok a => f a
  | Raise e => Raise e
  end.

(** A Python float, by value: a dyadic rational [m * 2^e], an infinity
    or the single NaN object of the [json] module. *)
Inductive float : Set :=
| FFinite (m e : Z)
| FInf (negative : bool)
| FNaN.

(** What [json.loads] can return.  Object keys are always strings; a
    [VDict] lists its items in insertion order and [dict_get] reads the
    first item of a key. *)
Inductive value : Type :=
| VNone
| VBool (b : bool)
| VInt (z : Z)
| VFloat (f : float)
| VStr (s : string)
| VList (l : list value)
| VDict (items : list (string * value)).

Definition dict := list (string * value).

Fixpoint dict_get (k : string) (d : dict) : option value :=
  match d with
  | [] => None
  | (k', v) :: d' => if String.eqb k k' then Some v else dict_get k d'
  end.

(** [k in d] for a dict [d]. *)
Definition dict_has (k : string) (d : dict) : bool :=
  match dict_get k d with Some _ => true | None => false end.

(** [d.get(k, default)]. *)
Definition dict_get_default (k : string) (default : value) (d : dict) : value :=
  match dict_get k d with Some v => v | None => default end.

(** [x.get(k, default)]: only dicts have the method. *)
Definition get (x : value) (k : string) (default : value) : result value :=
  match x with
  | VDict d => Ok (dict_get_default k default d)
  | _ => Raise AttributeError
  end.

(** [x[k]] for a string subscript [k]. *)
Definition getitem (x : value) (k : string) : result value :=
  match x with
  | VDict d => match dict_get k d with Some v => Ok v | None => Raise KeyError end
  | _ => Raise TypeError
  end.

(** Lists and dicts have no hash. *)
Definition hashable (v : value) : bool :=
  match v with
  | VList _ | VDict _ => false
  | _ => true
  end.

(** Numbers compare by value across [bool], [int] and [float]. *)
Definition dyadic_eqb (m1 e1 m2 e2 : Z) : bool :=
  let e := Z.min e1 e2 in
  (m1 * 2 ^ (e1 - e) =? m2 * 2 ^ (e2 - e))%Z.

Definition as_number (v : value) : option float :=
  match v with
  | VBool b => Some (FFinite (if b then 1 else 0) 0)
  | VInt z => Some (FFinite z 0)
  | VFloat f => Some f
  | _ => None
  end.

Definition float_eqb (f g : float) : bool :=
  match f, g with
  | FFinite m1 e1, FFinite m2 e2 => dyadic_eqb m1 e1 m2 e2
  | FInf a, FInf b => Bool.eqb a b
  | FNaN, FNaN => true
  | _, _ => false
  end.

(** Equality of set elements (identity or [==]) on hashable values. *)
Definition key_eqb (a b : value) : bool :=
  match a, b with
  | VNone, VNone => true
  | VStr s, VStr t => String.eqb s t
  | _, _ =>
      match as_number a, as_number b with
      | Some f, Some g => float_eqb f g
      | _, _ => false
      end
  end.

(** A [set], as the list of its elements in insertion order. *)
Definition pyset := list value.

Definition set_mem (x : value) (s : pyset) : bool := existsb (key_eqb x) s.

(** [s.add(x)]. *)
Definition set_add (x : value) (s : pyset) : result pyset :=
  if hashable x then Ok (if set_mem x s then s else s ++ [x])
  else Raise TypeError.

(** [k in s] for a string [k]. *)
Definition set_has_str (k : string) (s : pyset) : bool := set_mem (VStr k) s.

(** Iterating a value, as [list.extend] and [for] do. *)
Definition chars (s : string) : list value :=
  map (fun c => VStr (String c EmptyString)) (list_ascii_of_string s).

Definition iter (v : value) : result (list value) :=
  match v with
  | VList l => Ok l
  | VStr s => Ok (chars s)
  | VDict d => Ok (map (fun kv => VStr (fst kv)) d)
  | _ => Raise TypeError
  end.

(** *** Characters: code points below 256 with CPython's Unicode tables *)

Definition code (c : ascii) : N := N_of_ascii c.

Definition between (lo hi n : N) : bool := ((lo <=? n) && (n <=? hi))%N.

(** [str.isspace] on one character; also [\s]. *)
Definition isspace (c : ascii) : bool :=
  let n := code c in
  between 9 13 n || between 28 32 n || (n =? 133)%N || (n =? 160)%N.

(** [str.isalnum] on one character. *)
Definition isalnum (c : ascii) : bool :=
  let n := code c in
  between 48 57 n || between 65 90 n || between 97 122 n
  || (n =? 170)%N || between 178 179 n || (n =? 181)%N
  || between 185 186 n || between 188 190 n
  || between 192 214 n || between 216 246 n || between 248 255 n.

(** [str.lower] on one character. *)
Definition lower_char (c : ascii) : ascii :=
  let n := code c in
  if between 65 90 n || (between 192 222 n && negb (n =? 215)%N)
  then ascii_of_N (n + 32) else c.

Fixpoint lower (s : string) : string :=
  match s with
  | EmptyString => EmptyString
  | String c s' => String (lower_char c) (lower s')
  end.

(** [needle in hay] for two strings. *)
Fixpoint contains (needle hay : string) : bool :=
  if String.prefix needle hay then true
  else match hay with
       | EmptyString => false
       | String _ hay' => contains needle hay'
       end.

Fixpoint lstrip (s : string) : string :=
  match s with
  | String c s' => if isspace c then lstrip s' else s
  | EmptyString => EmptyString
  end.

Fixpoint rstrip (s : string) : string :=
  match s with
  | EmptyString => EmptyString
  | String c s' =>
      match rstrip s' with
      | EmptyString => if isspace c then EmptyString else String c EmptyString
      | t => String c t
      end
  end.

(** [s.strip()]. *)
Definition strip (s : string) : string := rstrip (lstrip s).

(** [s[lo:hi]] for [0 <= lo] and [0 <= hi]. *)
Definition slice (s : string) (lo hi : Z) : string :=
  String.substring (Z.to_nat lo) (Z.to_nat (hi - lo)) s.

(** [s.replace(a, b)] for single characters [a] and [b]. *)
Fixpoint replace_char (a b : ascii) (s : string) : string :=
  match s with
  | EmptyString => EmptyString
  | String c s' => String (if Ascii.eqb c a then b else c) (replace_char a b s')
  end.

(** [x in container] for a string [x]. *)
Definition str_in (x : string) (container : value) : result bool :=
  match container with
  | VDict d => Ok (dict_has x d)
  | VList l => Ok (existsb (key_eqb (VStr x)) l)
  | VStr s => Ok (contains x s)
  | _ => Raise TypeError
  end.

(** [x.lower()]: a method of [str] only. *)
Definition str_lower (x : value) : result string :=
  match x with
  | VStr s => Ok (lower s)
  | _ => Raise AttributeError
  end.

(** [len(x)]. *)
Definition len (x : value) : result Z :=
  match x with
  | VStr s => Ok (Z.of_nat (String.length s))
  | VList l => Ok (Z.of_nat (List.length l))
  | VDict d => Ok (Z.of_nat (List.length d))
  | _ => Raise TypeError
  end.

(** [x[lo:hi]] on a value with [0 <= lo] and [0 <= hi]. *)
Definition getslice (x : value) (lo hi : Z) : result value :=
  match x with
  | VStr s => Ok (VStr (slice s lo hi))
  | VList l => Ok (VList (firstn (Z.to_nat (hi - lo)) (skipn (Z.to_nat lo) l)))
  | _ => Raise TypeError
  end.

(** [x.strip()]: a method of [str] only. *)
Definition str_strip (x : value) : result string :=
  match x with
  | VStr s => Ok (strip s)
  | _ => Raise AttributeError
  end.

(** A [for] loop whose body may raise: the state is threaded through
    the items in order and the first exception ends the loop. *)
Fixpoint for_each {A S : Type} (items : list A) (st : S)
         (body : S -> A -> result S) : result S :=
  match items with
  | [] => Ok st
  | x :: items' => bind (body st x) (fun st' => for_each items' st' body)
  end.

(** A dict from strings to integers, such as [severity_counts]. *)
Definition counts := list (string * Z).

Fixpoint counts_get (k : string) (d : counts) : option Z :=
  match d with
  | [] => None
  | (k', n) :: d' => if String.eqb k k' then Some n else counts_get k d'
  end.

(** [d[k]]. *)
Definition counts_getitem (d : counts) (k : string) : result Z :=
  match counts_get k d with Some n => Ok n | None => Raise KeyError end.

(** [v in d]: the key is hashed first. *)
Definition counts_has (v : value) (d : counts) : result bool :=
  if hashable v then
    Ok match v with
       | VStr k => match counts_get k d with Some _ => true | None => false end
       | _ => false
       end
  else Raise TypeError.

(** [d[k] += 1] for a key of [d]. *)
Fixpoint counts_incr (k : string) (d : counts) : counts :=
  match d with
  | [] => []
  | (k', n) :: d' =>
      if String.eqb k k' then (k', (n + 1)%Z) :: d' else (k', n) :: counts_incr k d'
  end.

End Py.

Declare Scope py_scope.
Delimit Scope py_scope with py.
Notation "x <- m ;; k" := (Py.bind m (fun x => k))
  (at level 61, m at next level, right associativity) : py_scope.
Notation "m ;;; k" := (Py.bind m (fun _ => k))
  (at level 61, right associativity) : py_scope.

(* ================================================================== *)
(** ** The fragment of [re] used by the pattern table *)
(* ================================================================== *)

Module Re.

(** One-character items.  Every pattern is compiled with
    [re.IGNORECASE], so literals are compared after lowering. *)
Inductive cset : Set :=
| Lit (c : ascii)            (* a literal character *)
| NotLit (c : ascii)         (* [^c] *)
| OneOf (cs : list ascii)    (* [abc] *)
| Any                        (* .  : anything but a newline *)
| Space                      (* \s *)
| Word.                      (* \w *)

Definition newline : ascii := "010"%char.

Definition is_word (c : ascii) : bool :=
  Py.isalnum c || Ascii.eqb c "_"%char.

Definition same_letter (x c : ascii) : bool :=
  Ascii.eqb (Py.lower_char x) (Py.lower_char c).

Definition cs_ok (cs : cset) (x : ascii) : bool :=
  match cs with
  | Lit c => same_letter x c
  | NotLit c => negb (same_letter x c)
  | OneOf l => existsb (same_letter x) l
  | Any => negb (Ascii.eqb x newline)
  | Space => Py.isspace x
  | Word => is_word x
  end.

(** Patterns.  In the table every repetition applies to a single
    one-character item, so [Star], [Plus] and [Opt] take a [cset]. *)
Inductive regex : Set :=
| Eps
| Chr (cs : cset)
| Star (cs : cset)           (* greedy cs* *)
| Plus (cs : cset)           (* greedy cs+ *)
| Opt (cs : cset)            (* greedy cs? *)
| WordB                      (* \b *)
| Seq (r1 r2 : regex)
| Alt (r1 r2 : regex).       (* r1|r2, tried in this order *)

(** [\b]: exactly one of the characters around the position is a word
    character; the text ends count as non-word. *)
Definition word_before (prev : option ascii) : bool :=
  match prev with Some c => is_word c | None => false end.

Definition word_after (s : list ascii) : bool :=
  match s with c :: _ => is_word c | [] => false end.

Definition at_boundary (prev : option ascii) (s : list ascii) : bool :=
  xorb (word_before prev) (word_after s).

Section Matcher.
Context {A : Type}.

(** The continuation receives the character before the new position,
    the rest of the text and the new offset. *)
Definition cont := option ascii -> list ascii -> nat -> option A.

(** Greedy [cs*]: take as many characters as possible, give them back
    one at a time while the continuation fails. *)
Fixpoint star (cs : cset) (prev : option ascii) (s : list ascii)
         (pos : nat) (k : cont) : option A :=
  match s with
  | c :: s' =>
      if cs_ok cs c then
        match star cs (Some c) s' (S pos) k with
        | Some a => Some a
        | None => k prev s pos
        end
      else k prev s pos
  | [] => k prev s pos
  end.

(** Backtracking match of [r] at the current position. *)
Fixpoint run (r : regex) (prev : option ascii) (s : list ascii)
         (pos : nat) (k : cont) : option A :=
  match r with
  | Eps => k prev s pos
  | Chr cs =>
      match s with
      | c :: s' => if cs_ok cs c then k (Some c) s' (S pos) else None
      | [] => None
      end
  | Star cs => star cs prev s pos k
  | Plus cs =>
      match s with
      | c :: s' => if cs_ok cs c then star cs (Some c) s' (S pos) k else None
      | [] => None
      end
  | Opt cs =>
      match s with
      | c :: s' =>
          if cs_ok cs c then
            match k (Some c) s' (S pos) with
            | Some a => Some a
            | None => k prev s pos
            end
          else k prev s pos
      | [] => k prev s pos
      end
  | WordB => if at_boundary prev s then k prev s pos else None
  | Seq r1 r2 => run r1 prev s pos (fun p s' n => run r2 p s' n k)
  | Alt r1 r2 =>
      match run r1 prev s pos k with
      | Some a => Some a
      | None => run r2 prev s pos k
      end
  end.
End Matcher.

(** One attempt at offset [pos]; the end offset of the match.  With
    [must_advance] an empty match is refused and the engine backtracks. *)
Definition match_at (r : regex) (prev : option ascii) (s : list ascii)
           (pos : nat) (must_advance : bool) : option nat :=
  run r prev s pos
      (fun _ _ e => if must_advance && Nat.eqb e pos then None else Some e).

(** The spans produced by the scanner behind [finditer]: the leftmost
    match from the current offset, then the search resumes at its end.
    After an empty match the same offset is tried once more for a
    non-empty one.  Offsets below [resume] lie inside the previous match. *)
Fixpoint scan (r : regex) (prev : option ascii) (s : list ascii)
         (pos resume : nat) : list (nat * nat) :=
  let rest :=
    match s with
    | c :: s' => fun resume' => scan r (Some c) s' (S pos) resume'
    | [] => fun _ => []
    end in
  if Nat.ltb pos resume then rest resume
  else
    match match_at r prev s pos false with
    | None => rest resume
    | Some e =>
        if Nat.eqb e pos then
          match match_at r prev s pos true with
          | Some e' => (pos, e) :: (pos, e') :: rest e'
          | None => (pos, e) :: rest resume
          end
        else (pos, e) :: rest e
    end.

(** A match object: [m.start()] and [m.end()]. *)
Record match_obj : Set := { m_start : nat; m_end : nat }.

Definition spans (r : regex) (text : string) : list (nat * nat) :=
  scan r None (list_ascii_of_string text) 0 0.

(** [re.finditer(pattern, string, re.IGNORECASE)]; it wants a [str]. *)
Definition finditer (r : regex) (string : Py.value) : Py.result (list match_obj) :=
  match string with
  | Py.VStr text =>
      Py.Ok (map (fun se => {| m_start := fst se; m_end := snd se |}) (spans r text))
  | _ => Py.Raise Py.TypeError
  end.

(** Pattern builders. *)
Fixpoint lit_chars (l : list ascii) : regex :=
  match l with
  | [] => Eps
  | [c] => Chr (Lit c)
  | c :: l' => Seq (Chr (Lit c)) (lit_chars l')
  end.

Definition lit (s : string) : regex := lit_chars (list_ascii_of_string s).

Fixpoint seq (rs : list regex) : regex :=
  match rs with
  | [] => Eps
  | [r] => r
  | r :: rs' => Seq r (seq rs')
  end.

Fixpoint alt (r : regex) (rs : list regex) : regex :=
  match rs with
  | [] => r
  | r' :: rs' => Alt r (alt r' rs')
  end.

End Re.

(* ================================================================== *)
(** ** class DeepSecurityAnalyzer *)
(* ================================================================== *)

Module DeepSecurityAnalyzer.
Import Py Re.
Local Open Scope py_scope.

Definition quote : regex := Chr (Lit "'").

(** [self.patterns], in insertion order. *)
Definition sql_injection : regex :=
  alt (seq [WordB;
            alt (lit "select") [lit "update"; lit "delete"; lit "insert";
                                lit "drop"; lit "alter"];
            WordB; Star Any; WordB;
            alt (lit "from") [lit "table"; lit "where"; lit "set"];
            WordB])
      [seq [quote; Star Space; lit "or"; Star Space; quote; Star Space;
            Chr (Lit "="); Star Space; quote];
       seq [quote; Star Space; Chr (Lit ";"); Star Space; lit "--"; Star Space]].

Definition xss_vulnerability : regex :=
  alt (seq [lit "<script"; Star (NotLit ">"); Chr (Lit ">")])
      [lit "javascript:";
       seq [WordB; lit "on"; Plus Word; Star Space; Chr (Lit "=")];
       seq [WordB; lit "eval"; Star Space; Chr (Lit "(")]].

Definition sep : regex := Opt (OneOf ["_"; "-"]%char).

Definition sensitive_data : regex :=
  alt (lit "password")
      [lit "passwd"; lit "pwd"; lit "secret";
       seq [lit "api"; sep; lit "key"];
       seq [lit "access"; sep; lit "token"];
       seq [lit "auth"; sep; lit "token"]].

Definition path_traversal : regex :=
  alt (lit "../")
      [lit "..\"; lit "/etc/passwd"; lit "/etc/shadow";
       lit "c:\windows\system32"].

Definition open_redirect : regex :=
  alt (lit "url=")
      [lit "redirect="; lit "return="; lit "next="; lit "redir="; lit "r=";
       lit "destination="].

Definition patterns : list (string * regex) :=
  [("sql_injection", sql_injection);
   ("xss_vulnerability", xss_vulnerability);
   ("sensitive_data", sensitive_data);
   ("path_traversal", path_traversal);
   ("open_redirect", open_redirect)].

Definition severity_mapping : list (string * string) :=
  [("sql_injection", "critical");
   ("xss_vulnerability", "high");
   ("sensitive_data", "high");
   ("path_traversal", "critical");
   ("open_redirect", "medium")].

(** [self.severity_mapping.get(issue_type, default)]. *)
Fixpoint mapping_get (k default : string) (d : list (string * string)) : string :=
  match d with
  | [] => default
  | (k', v) :: d' => if String.eqb k k' then v else mapping_get k default d'
  end.

(** The body of the inner loop of [analyze_content]: one finding per
    match object. *)
Definition content_issue (issue_type : string) (url content : value)
           (m : match_obj) : result value :=
  let start := Z.of_nat (m_start m) in
  let stop := Z.of_nat (m_end m) in
  n <- len content ;;
  window <- getslice content (Z.max 0 (start - 30)) (Z.min n (stop + 30)) ;;
  context <- str_strip window ;;
  Ok (VDict [("id", VStr ("deep_" ++ issue_type));
             ("severity", VStr (mapping_get issue_type "medium" severity_mapping));
             ("details", VStr ("Potential " ++ replace_char "_" " " issue_type
                               ++ " detected"));
             ("context", VStr context);
             ("url", url);
             ("position", VInt start)]).

Definition analyze_content (url content : value) : result (list value) :=
  for_each patterns [] (fun issues rule =>
    let '(issue_type, pattern) := rule in
    matches <- finditer pattern content ;;
    for_each matches issues (fun issues m =>
      issue <- content_issue issue_type url content m ;;
      Ok (issues ++ [issue]))).

Definition analyze_headers (url headers : value) : result (list value) :=
  let issues := [] in
  (* Check for insecure cookie settings *)
  has_cookie <- str_in "set-cookie" headers ;;
  insecure <-
    (if has_cookie then
       cookie <- getitem headers "set-cookie" ;;
       lowered <- str_lower cookie ;;
       if negb (contains "secure" lowered) then Ok true
       else
         cookie' <- getitem headers "set-cookie" ;;
         lowered' <- str_lower cookie' ;;
         Ok (negb (contains "httponly" lowered'))
     else Ok false) ;;
  issues <-
    (if insecure then
       cookie <- getitem headers "set-cookie" ;;
       Ok (issues ++ [VDict [("id", VStr "deep_insecure_cookie");
                             ("severity", VStr "high");
                             ("details", VStr "Cookies set without Secure or HttpOnly flags");
                             ("context", cookie);
                             ("url", url)]])
     else Ok issues) ;;
  (* Check for server information disclosure *)
  has_server <- str_in "server" headers ;;
  disclosed <-
    (if has_server then
       server <- getitem headers "server" ;;
       n <- len server ;;
       Ok (n >? 0)%Z
     else Ok false) ;;
  if disclosed then
    server <- getitem headers "server" ;;
    Ok (issues ++ [VDict [("id", VStr "deep_server_disclosure");
                          ("severity", VStr "medium");
                          ("details", VStr "Server header reveals software information");
                          ("context", server);
                          ("url", url)]])
  else Ok issues.

Definition rec_sql_injection : string :=
  "Implement parameterized queries or prepared statements for all database operations. Never concatenate user input directly into SQL queries.".
Definition rec_xss_vulnerability : string :=
  "Implement context-specific output encoding and use Content Security Policy (CSP) to mitigate XSS attacks. Consider using modern frameworks that automatically escape output.".
Definition rec_sensitive_data : string :=
  "Remove sensitive data from client-side code. Store API keys and credentials securely using environment variables or a secure vault solution.".
Definition rec_path_traversal : string :=
  "Validate and sanitize all file paths. Use whitelisting approaches and avoid passing user input directly to filesystem operations.".
Definition rec_open_redirect : string :=
  "Implement a whitelist of allowed redirect destinations or use relative path redirects. Always validate redirect URLs against a list of allowed domains.".
Definition rec_insecure_cookie : string :=
  "Set the Secure, HttpOnly, and SameSite flags on all cookies containing sensitive information. Consider implementing token-based authentication instead of cookie-based authentication.".
Definition rec_server_disclosure : string :=
  "Configure your web server to remove or obfuscate the Server header to prevent information disclosure about your technology stack.".

(** [set(issue['id'] for issue in issues)]. *)
Definition issue_ids (issues : list value) : result pyset :=
  for_each issues [] (fun ids issue =>
    id <- getitem issue "id" ;;
    set_add id ids).

(** One [if ... in issue_types: recommendations.append(...)]. *)
Definition recommend (issue_types : pyset) (id text : string)
           (recommendations : list string) : list string :=
  if set_has_str id issue_types then recommendations ++ [text]
  else recommendations.

Definition generate_recommendations (issues : list value) : result (list string) :=
  let recommendations := [] in
  issue_types <- issue_ids issues ;;
  let recommendations :=
    recommend issue_types "deep_sql_injection" rec_sql_injection recommendations in
  let recommendations :=
    recommend issue_types "deep_xss_vulnerability" rec_xss_vulnerability recommendations in
  let recommendations :=
    recommend issue_types "deep_sensitive_data" rec_sensitive_data recommendations in
  let recommendations :=
    recommend issue_types "deep_path_traversal" rec_path_traversal recommendations in
  let recommendations :=
    recommend issue_types "deep_open_redirect" rec_open_redirect recommendations in
  let recommendations :=
    recommend issue_types "deep_insecure_cookie" rec_insecure_cookie recommendations in
  let recommendations :=
    recommend issue_types "deep_server_disclosure" rec_server_disclosure recommendations in
  Ok recommendations.

(** The dict returned by [analyze_scan_results]. *)
Record report : Type := {
  enhanced_issues : list value;
  recommendations : list string;
  risk_score : Z;
  risk_level : string;
  severity_counts : counts;
  urls_analyzed : Z
}.

(** The body of the first loop: one record of the batch. *)
Definition process_record (st : list value * pyset) (result : value)
  : Py.result (list value * pyset) :=
  let '(all_issues, all_urls) := st in
  url <- get result "url" (VStr "") ;;
  all_urls <- set_add url all_urls ;;
  (* Add existing issues *)
  existing <- get result "issues" (VList []) ;;
  existing <- iter existing ;;
  let all_issues := all_issues ++ existing in
  (* Add deep analysis issues if content is available *)
  has_content <- str_in "content" result ;;
  all_issues <-
    (if has_content then
       content <- getitem result "content" ;;
       content_issues <- analyze_content url content ;;
       Ok (all_issues ++ content_issues)
     else Ok all_issues) ;;
  (* Add header analysis issues if headers are available *)
  has_headers <- str_in "headers" result ;;
  all_issues <-
    (if has_headers then
       headers <- getitem result "headers" ;;
       header_issues <- analyze_headers url headers ;;
       Ok (all_issues ++ header_issues)
     else Ok all_issues) ;;
  Ok (all_issues, all_urls).

Definition initial_counts : counts :=
  [("critical", 0%Z); ("high", 0%Z); ("medium", 0%Z); ("low", 0%Z)].

(** The body of the counting loop. *)
Definition count_issue (severity_counts : counts) (issue : value) : result counts :=
  severity <- get issue "severity" (VStr "low") ;;
  known <- counts_has severity severity_counts ;;
  if known then
    match severity with
    | VStr k => Ok (counts_incr k severity_counts)
    | _ => Ok severity_counts
    end
  else Ok severity_counts.

Definition count_severities (all_issues : list value) : result counts :=
  for_each all_issues initial_counts count_issue.

(** The risk score of a tally. *)
Definition score (severity_counts : counts) : result Z :=
  critical <- counts_getitem severity_counts "critical" ;;
  high <- counts_getitem severity_counts "high" ;;
  medium <- counts_getitem severity_counts "medium" ;;
  low <- counts_getitem severity_counts "low" ;;
  Ok (Z.min 100 (critical * 25 + high * 10 + medium * 5 + low * 1))%Z.

(** The risk level of a score. *)
Definition level (risk_score : Z) : string :=
  let risk_level := "low" in
  if (risk_score >? 75)%Z then "critical"
  else if (risk_score >? 50)%Z then "high"
  else if (risk_score >? 25)%Z then "medium"
  else risk_level.

Definition analyze_scan_results (results : value) : result report :=
  (* Extract and process all issues *)
  records <- iter results ;;
  st <- for_each records ([], []) process_record ;;
  let '(all_issues, all_urls) := st in
  (* Generate recommendations *)
  recommendations <- generate_recommendations all_issues ;;
  (* Count issues by severity *)
  severity_counts <- count_severities all_issues ;;
  (* Calculate risk score (0-100) *)
  risk_score <- score severity_counts ;;
  (* Determine risk level *)
  let risk_level := level risk_score in
  Ok {| enhanced_issues := all_issues;
        recommendations := recommendations;
        risk_score := risk_score;
        risk_level := risk_level;
        severity_counts := severity_counts;
        urls_analyzed := Z.of_nat (List.length all_urls) |}.

End DeepSecurityAnalyzer.

(* ================================================================== *)
(** ** Vocabulary of the specification *)
(* ================================================================== *)

Module Spec.
Import Py Re DeepSecurityAnalyzer.

(** The four severities of the taxonomy, as a tally. *)
Definition tally (critical high medium low : Z) : counts :=
  [("critical", critical); ("high", high); ("medium", medium); ("low", low)].

Definition known_severities : list string := ["critical"; "high"; "medium"; "low"].

Definition is_known (s : string) : bool := existsb (String.eqb s) known_severities.

(** The severity the counting loop reads off a finding: the field, or
    ["low"] when the finding has none. *)
Definition read_severity (issue : value) : option value :=
  match issue with
  | VDict d => Some (dict_get_default "severity" (VStr "low") d)
  | _ => None
  end.

Definition severity_is (k : string) (issue : value) : bool :=
  match read_severity issue with
  | Some (VStr s) => String.eqb s k
  | _ => false
  end.

Definition count_of (k : string) (issues : list value) : Z :=
  Z.of_nat (List.length (filter (severity_is k) issues)).

(** The severity a finding records, with nothing supplied for a
    missing field. *)
Definition recorded_severity (issue : value) : option value :=
  match issue with
  | VDict d => dict_get "severity" d
  | _ => None
  end.

(** A finding whose recorded severity is one of the four known values. *)
Definition records_known_severity (issue : value) : bool :=
  match recorded_severity issue with
  | Some (VStr s) => is_known s
  | _ => false
  end.

(** A finding with no severity field. *)
Definition lacks_severity (issue : value) : bool :=
  match issue with
  | VDict d => negb (dict_has "severity" d)
  | _ => false
  end.

(** A finding the tally counts: known severity, or none at all. *)
Definition counted (issue : value) : bool :=
  records_known_severity issue || lacks_severity issue.

Definition b2z (b : bool) : Z := if b then 1%Z else 0%Z.

Definition sum_counts (c : counts) : Z :=
  fold_right (fun kv acc => (snd kv + acc)%Z) 0%Z c.

(** Example batches. *)
Definition low_issue : value := VDict [("id", VStr "x"); ("severity", VStr "low")].

(** One record with [n] pass-through findings of severity low. *)
Definition lows (n : nat) : value :=
  VList [VDict [("url", VStr "a"); ("issues", VList (repeat low_issue n))]].

(** [[{"url":"a","issues":[{"id":"x","severity":"critical"}]}]] *)
Definition one_critical : value :=
  VList [VDict [("url", VStr "a");
                ("issues", VList [VDict [("id", VStr "x");
                                         ("severity", VStr "critical")]])]].

(** [[{"url":"a","issues":[{"id":"x"}]}]] *)
Definition no_severity : value :=
  VList [VDict [("url", VStr "a"); ("issues", VList [VDict [("id", VStr "x")]])]].

(** The bands of the risk level. *)
Definition band (risk_score : Z) : string :=
  if (75 <? risk_score)%Z then "critical"
  else if (50 <? risk_score)%Z then "high"
  else if (25 <? risk_score)%Z then "medium"
  else "low".

(** The url the aggregator reads off a record: the field, or the empty
    string when the record has none. *)
Definition record_url (record : value) : option value :=
  match record with
  | VDict d => Some (dict_get_default "url" (VStr "") d)
  | _ => None
  end.

(** What one record contributes: its pass-through issues, the content
    findings and the header findings. *)
Record contribution : Type := {
  passed_through : list value;
  from_content : list value;
  from_headers : list value
}.

Definition in_order (c : contribution) : list value :=
  passed_through c ++ from_content c ++ from_headers c.

Definition contributes (record : value) (c : contribution) : Prop :=
  exists d url,
    record = VDict d
    /\ record_url record = Some url
    /\ iter (dict_get_default "issues" (VList []) d) = Ok (passed_through c)
    /\ match dict_get "content" d with
       | Some content => analyze_content url content = Ok (from_content c)
       | None => from_content c = []
       end
    /\ match dict_get "headers" d with
       | Some headers => analyze_headers url headers = Ok (from_headers c)
       | None => from_headers c = []
       end.

(** Adding values to a set one after the other. *)
Definition add_all (vs : list value) (s : pyset) : pyset :=
  fold_left (fun s v => if set_mem v s then s else s ++ [v]) vs s.

(** [[{"url":""},{"url":"a"},{"issues":[]},{"url":"a"}]] *)
Definition four_records : list value :=
  [VDict [("url", VStr "")];
   VDict [("url", VStr "a")];
   VDict [("issues", VList [])];
   VDict [("url", VStr "a")]].

(** The catalog of remediation texts, in the order of the seven tests of
    [generate_recommendations]. *)
Definition catalog : list (string * string) :=
  [("deep_sql_injection", rec_sql_injection);
   ("deep_xss_vulnerability", rec_xss_vulnerability);
   ("deep_sensitive_data", rec_sensitive_data);
   ("deep_path_traversal", rec_path_traversal);
   ("deep_open_redirect", rec_open_redirect);
   ("deep_insecure_cookie", rec_insecure_cookie);
   ("deep_server_disclosure", rec_server_disclosure)].

(** The finding carries the id [k]. *)
Definition id_is (k : string) (issue : value) : bool :=
  match issue with
  | VDict d => match dict_get "id" d with
               | Some (VStr s) => String.eqb s k
               | _ => false
               end
  | _ => false
  end.

(** Some finding of the sequence carries the id [k]. *)
Definition has_id (k : string) (issues : list value) : bool :=
  existsb (id_is k) issues.

(** An issue object with no id field. *)
Definition lacks_id (issue : value) : Prop :=
  exists d, issue = VDict d /\ dict_get "id" d = None.

(** A finding the aggregator accepts: an object with a hashable id and a
    severity that is hashable when present. *)
Definition accepted_issue (issue : value) : bool :=
  match issue with
  | VDict d =>
      match dict_get "id" d with Some id => hashable id | None => false end
      && match dict_get "severity" d with Some v => hashable v | None => true end
  | _ => false
  end.

Definition is_str (v : value) : bool :=
  match v with VStr _ => true | _ => false end.

(** A header mapping: every value is a string. *)
Definition header_mapping (d : dict) : bool :=
  forallb (fun kv => is_str (snd kv)) d.

(** A record of the batch payload: an object whose url, when present,
    is hashable, whose issues, when present, are a list of accepted
    findings, whose content, when present, is a string and whose
    headers, when present, are a header mapping. *)
Definition accepted_record (record : value) : bool :=
  match record with
  | VDict d =>
      hashable (dict_get_default "url" (VStr "") d)
      && match dict_get "issues" d with
         | None => true
         | Some (VList l) => forallb accepted_issue l
         | Some _ => false
         end
      && match dict_get "content" d with
         | None => true
         | Some v => is_str v
         end
      && match dict_get "headers" d with
         | None => true
         | Some (VDict h) => header_mapping h
         | Some _ => false
         end
  | _ => false
  end.

(** A hundred findings of one kind, then an unknown kind and two more
    known kinds, out of catalog order. *)
Definition hundred_injections : list value :=
  repeat (VDict [("id", VStr "deep_sql_injection")]) 100
  ++ [VDict [("id", VStr "x")];
      VDict [("id", VStr "deep_server_disclosure")];
      VDict [("id", VStr "deep_xss_vulnerability")]].

(** The characters of [text] from 30 before offset [s] to 30 after
    offset [e], clamped to the text. *)
Definition window (text : string) (s e : nat) : string :=
  let lo := (s - 30)%nat in
  let hi := Nat.min (String.length text) (e + 30) in
  String.substring lo (hi - lo) text.

(** The finding the content detector emits for a match of the rule
    [kind] with severity [severity] at the span [(s, e)]. *)
Definition content_finding (kind severity : string) (url : value) (text : string)
           (span : nat * nat) : value :=
  VDict [("id", VStr ("deep_" ++ kind));
         ("severity", VStr severity);
         ("details", VStr ("Potential " ++ replace_char "_" " " kind ++ " detected"));
         ("context", VStr (strip (window text (fst span) (snd span))));
         ("url", url);
         ("position", VInt (Z.of_nat (fst span)))].

(** The registry of section 4.1: kind, severity and matching rule. *)
Definition registry : list (string * string * regex) :=
  [("sql_injection", "critical", sql_injection);
   ("xss_vulnerability", "high", xss_vulnerability);
   ("sensitive_data", "high", sensitive_data);
   ("path_traversal", "critical", path_traversal);
   ("open_redirect", "medium", open_redirect)].

(** The findings of one rule: one per span, in match order. *)
Definition rule_findings (url : value) (text : string)
           (rule : string * string * regex) : list value :=
  let '(kind, severity, pattern) := rule in
  map (content_finding kind severity url text) (spans pattern text).

(** The two findings of the header detector. *)
Definition cookie_finding (url cookie : value) : value :=
  VDict [("id", VStr "deep_insecure_cookie");
         ("severity", VStr "high");
         ("details", VStr "Cookies set without Secure or HttpOnly flags");
         ("context", cookie);
         ("url", url)].

Definition server_finding (url server : value) : value :=
  VDict [("id", VStr "deep_server_disclosure");
         ("severity", VStr "medium");
         ("details", VStr "Server header reveals software information");
         ("context", server);
         ("url", url)].

(** The cookie value, lowered, does not contain [secure] or does not
    contain [httponly]. *)
Definition no_secure_or_no_httponly (cookie : string) : bool :=
  negb (contains "secure" (lower cookie)) || negb (contains "httponly" (lower cookie)).

Definition cookie_part (url : value) (d : dict) : list value :=
  match dict_get "set-cookie" d with
  | Some (VStr cookie) =>
      if no_secure_or_no_httponly cookie then [cookie_finding url (VStr cookie)] else []
  | _ => []
  end.

Definition server_part (url : value) (d : dict) : list value :=
  match dict_get "server" d with
  | Some (VStr server) =>
      if (0 <? String.length server)%nat then [server_finding url (VStr server)] else []
  | _ => []
  end.

(** The segments of a string between occurrences of [sep]. *)
Fixpoint split_on (sep : ascii) (s : string) : list string :=
  match s with
  | EmptyString => [EmptyString]
  | String c s' =>
      if Ascii.eqb c sep then EmptyString :: split_on sep s'
      else match split_on sep s' with
           | seg :: segs => String c seg :: segs
           | [] => [String c EmptyString]
           end
  end.

(** The attribute tokens of a [set-cookie] value, read
    case-insensitively: its semicolon-separated segments, trimmed and
    lowered. *)
Definition attribute_tokens (cookie : string) : list string :=
  map (fun seg => lower (strip seg)) (split_on ";" cookie).

Definition has_token (name cookie : string) : bool :=
  existsb (String.eqb name) (attribute_tokens cookie).

(** The value is missing the [secure] or the [httponly] attribute token. *)
Definition missing_a_token (cookie : string) : bool :=
  negb (has_token "secure" cookie) || negb (has_token "httponly" cookie).

(** [{"set-cookie": "id=insecure; note=nothttponly"}] *)
Definition lookalike_cookie : string := "id=insecure; note=nothttponly".

(** [{"set-cookie": "session=abc", "server": "nginx"}] *)
Definition plain_headers : dict :=
  [("set-cookie", VStr "session=abc"); ("server", VStr "nginx")].

(** [[{"url":"a","issues":[{"severity":"low"}]}]] *)
Definition no_id : list value :=
  [VDict [("url", VStr "a"); ("issues", VList [VDict [("severity", VStr "low")]])]].

(** *** What it means for a pattern to match *)

(** The character before the position reached after reading [u]. *)
Fixpoint char_before (prev : option ascii) (u : list ascii) : option ascii :=
  match u with
  | [] => prev
  | c :: u' => char_before (Some c) u'
  end.

(** [Matches r prev u rest]: the pattern [r] matches the characters [u],
    which stand after the character [prev] (if any) and before the
    characters [rest].  The context matters to [\b] only. *)
Inductive Matches : regex -> option ascii -> list ascii -> list ascii -> Prop :=
| MEps prev rest : Matches Eps prev [] rest
| MChr cs c prev rest :
    cs_ok cs c = true -> Matches (Chr cs) prev [c] rest
| MStar cs u prev rest :
    Forall (fun c => cs_ok cs c = true) u -> Matches (Star cs) prev u rest
| MPlus cs c u prev rest :
    Forall (fun c => cs_ok cs c = true) (c :: u) -> Matches (Plus cs) prev (c :: u) rest
| MOptNone cs prev rest : Matches (Opt cs) prev [] rest
| MOptSome cs c prev rest :
    cs_ok cs c = true -> Matches (Opt cs) prev [c] rest
| MWordB prev rest :
    at_boundary prev rest = true -> Matches WordB prev [] rest
| MSeq r1 r2 u v prev rest :
    Matches r1 prev u (v ++ rest) ->
    Matches r2 (char_before prev u) v rest ->
    Matches (Seq r1 r2) prev (u ++ v) rest
| MAltL r1 r2 u prev rest :
    Matches r1 prev u rest -> Matches (Alt r1 r2) prev u rest
| MAltR r1 r2 u prev rest :
    Matches r2 prev u rest -> Matches (Alt r1 r2) prev u rest.

(** The pattern matches the characters of [text] from offset [i] up to
    offset [j]. *)
Definition matches_span (r : regex) (text : list ascii) (i j : nat) : Prop :=
  (i <= j <= List.length text)%nat
  /\ Matches r (char_before None (firstn i text))
             (firstn (j - i) (skipn i text)) (skipn j text).

(** A pattern that cannot match the empty string. *)
Fixpoint never_empty (r : regex) : bool :=
  match r with
  | Eps | Star _ | Opt _ | WordB => false
  | Chr _ | Plus _ => true
  | Seq r1 r2 => never_empty r1 || never_empty r2
  | Alt r1 r2 => never_empty r1 && never_empty r2
  end.

(** Spans in scanning order that do not overlap: each starts at or
    after [lo] and the next one starts at or after its end. *)
Fixpoint chained (lo : nat) (l : list (nat * nat)) : Prop :=
  match l with
  | [] => True
  | (s, e) :: l' => (lo <= s)%nat /\ (s <= e)%nat /\ chained e l'
  end.

(** Two continuations that agree when the second sees the lowered text. *)
Definition agree {A : Type} (k k' : @cont A) : Prop :=
  forall p s n, k' (option_map lower_char p) (map lower_char s) n = k p s n.

(** Only whitespace. *)
Fixpoint all_space (s : string) : bool :=
  match s with
  | EmptyString => true
  | String c s' => isspace c && all_space s'
  end.

(** [inner] is [outer] without the whitespace at its two ends. *)
Definition trimmed (outer inner : string) : Prop :=
  (exists l r, outer = (l ++ inner ++ r)%string
               /\ all_space l = true /\ all_space r = true)
  /\ (forall c rest, inner = String c rest -> isspace c = false)
  /\ (forall init c, inner = (init ++ String c EmptyString)%string -> isspace c = false).

(** [[{"url":"a","issues":[{"id":"x","severity":"critical"}]}]], as a
    list of records. *)
Definition critical_record : list value :=
  [VDict [("url", VStr "a");
          ("issues", VList [VDict [("id", VStr "x"); ("severity", VStr "critical")]])]].

(** A finding whose id the comprehension of [generate_recommendations]
    can read and hash. *)
Definition id_readable (issue : value) : Prop :=
  exists id, getitem issue "id" = Ok id /\ hashable id = true.

(** [a] is [b] with some elements left out, the others in order. *)
Inductive subsequence {A : Type} : list A -> list A -> Prop :=
| sub_nil : subsequence [] []
| sub_skip x a b : subsequence a b -> subsequence a (x :: b)
| sub_keep x a b : subsequence a b -> subsequence (x :: a) (x :: b).

(** The four record fields the aggregator reads. *)
Definition record_fields : list string := ["url"; "issues"; "content"; "headers"].

(** [None], a boolean or a number. *)
Definition is_scalar (v : value) : bool :=
  match v with
  | VNone | VBool _ | VInt _ | VFloat _ => true
  | _ => false
  end.

(** Two records that agree on the four fields the aggregator reads. *)
Definition same_fields (record record' : value) : Prop :=
  exists d d',
    record = VDict d /\ record' = VDict d'
    /\ forall k, In k record_fields -> dict_get k d = dict_get k d'.

(** [[{"url":"a","content":null}]] *)
Definition null_content : list value :=
  [VDict [("url", VStr "a"); ("content", VNone)]].

(** [[{"url":"a","content":"my pwd","headers":{"server":"nginx"}}]] *)
Definition scanned_page : list value :=
  [VDict [("url", VStr "a"); ("content", VStr "my pwd");
          ("headers", VDict [("server", VStr "nginx")])]].

(** The same record with fields the aggregator does not read. *)
Definition scanned_page_with_more : list value :=
  [VDict [("status", VInt 200); ("url", VStr "a"); ("title", VNone);
          ("content", VStr "my pwd");
          ("headers", VDict [("server", VStr "nginx")]); ("depth", VInt 2)]].

(** *** Rules that are a choice of words *)

(** [w1|w2|...]: one of the words, as a pattern. *)
Definition any_of (words : list string) : regex :=
  match words with
  | [] => Eps
  | w :: ws => alt (lit w) (map lit ws)
  end.

(** The characters [u] spell the word [w], letter case aside. *)
Definition spells (u : list ascii) (w : string) : Prop :=
  map lower_char u = map lower_char (list_ascii_of_string w).

(** The word occurs in the text, letter case aside. *)
Definition occurs (w text : string) : Prop :=
  exists pre mid post,
    list_ascii_of_string text = pre ++ mid ++ post /\ spells mid w.

(** The three rules of the registry that come down to a choice of
    words, with their words; [api[_\-]?key] stands for three of them. *)
Definition word_rules : list (string * list string) :=
  [("sensitive_data",
    ["password"; "passwd"; "pwd"; "secret";
     "apikey"; "api_key"; "api-key";
     "accesstoken"; "access_token"; "access-token";
     "authtoken"; "auth_token"; "auth-token"]);
   ("path_traversal",
    ["../"; "..\"; "/etc/passwd"; "/etc/shadow"; "c:\windows\system32"]);
   ("open_redirect",
    ["url="; "redirect="; "return="; "next="; "redir="; "r="; "destination="])].

(** The report of a batch with nothing in it. *)
Definition empty_report : report :=
  {| enhanced_issues := [];
     recommendations := [];
     risk_score := 0;
     risk_level := "low";
     severity_counts := tally 0 0 0 0;
     urls_analyzed := 0 |}.

(** The [url] field of a finding. *)
Definition finding_url (finding : value) : option value :=
  match finding with
  | VDict fields => dict_get "url" fields
  | _ => None
  end.

(** [[{"content":"my pwd","headers":{"server":"nginx"}}]]: no url. *)
Definition page_without_url : list value :=
  [VDict [("content", VStr "my pwd");
          ("headers", VDict [("server", VStr "nginx")])]].

(** The risk levels, in increasing order. *)
Definition rank (risk_level : string) : nat :=
  if String.eqb risk_level "critical" then 3
  else if String.eqb risk_level "high" then 2
  else if String.eqb risk_level "medium" then 1
  else 0.

(** The exception that reading the id of a finding raises, if any:
    [issue['id']] fails on what is no object (TypeError) and on an object
    without the key (KeyError); adding an unhashable id to the set fails
    (TypeError). *)
Definition id_failure (issue : value) : option exn :=
  match issue with
  | VDict d =>
      match dict_get "id" d with
      | None => Some KeyError
      | Some id => if hashable id then None else Some TypeError
      end
  | _ => Some TypeError
  end.

(** [[{"id":"deep_sql_injection"}, {"severity":"high"}, 7]] *)
Definition second_has_no_id : list value :=
  [VDict [("id", VStr "deep_sql_injection")]; VDict [("severity", VStr "high")]; VInt 7].

(** [[{"url":"b","issues":[{"id":"y","severity":"low"}]}]] *)
Definition one_low_record : list value :=
  [VDict [("url", VStr "b");
          ("issues", VList [VDict [("id", VStr "y"); ("severity", VStr "low")]])]].


(** The [id] field of a finding. *)
Definition finding_id (finding : value) : option value :=
  match finding with
  | VDict fields => dict_get "id" fields
  | _ => None
  end.

(** Three records, with issues, content and headers:
    [[{"url":"a",
       "issues":[{"id":"p1","severity":"low"},{"id":"p2","severity":"high"}],
       "content":"pwd and url=x",
       "headers":{"set-cookie":"s=1","server":"nginx"}},
      {"url":"b","headers":{"server":"apache"},"content":"<script>"},
      {"url":"c","issues":[{"id":"p3","severity":"medium"}]}]]
    The second record has its headers before its content. *)
Definition three_pages : list value :=
  [VDict [("url", VStr "a");
          ("issues", VList [VDict [("id", VStr "p1"); ("severity", VStr "low")];
                            VDict [("id", VStr "p2"); ("severity", VStr "high")]]);
          ("content", VStr "pwd and url=x");
          ("headers", VDict [("set-cookie", VStr "s=1"); ("server", VStr "nginx")])];
   VDict [("url", VStr "b");
          ("headers", VDict [("server", VStr "apache")]);
          ("content", VStr "<script>")];
   VDict [("url", VStr "c");
          ("issues", VList [VDict [("id", VStr "p3"); ("severity", VStr "medium")]])]].

(** The url and the id of each finding of a list, in order. *)
Definition urls_and_ids (findings : list value) : list (option value * option value) :=
  map (fun finding => (finding_url finding, finding_id finding)) findings.

End Spec.

(* ================================================================== *)
(** ** The two entry points: [main] of [deep_analyzer.py] and the
       request handler of [bridge.py] *)
(* ================================================================== *)

Module Shim.
Import Py DeepSecurityAnalyzer.

(** The dict returned by [analyze_scan_results], as a value. *)
Definition counts_value (c : counts) : value :=
  VDict (map (fun kv => (fst kv, VInt (snd kv))) c).

Definition report_value (r : report) : value :=
  VDict [("enhanced_issues", VList (enhanced_issues r));
         ("recommendations", VList (map VStr (recommendations r)));
         ("risk_score", VInt (risk_score r));
         ("risk_level", VStr (risk_level r));
         ("severity_counts", counts_value (severity_counts r));
         ("urls_analyzed", VInt (urls_analyzed r))].

(** [{'error': message, 'status': 'failed'}] *)
Definition error_value (message : string) : value :=
  VDict [("error", VStr message); ("status", VStr "failed")].

(** What a run of [main] leaves behind: the documents printed on
    standard output, as the values handed to [json.dumps], and the exit
    status of the process. *)
Record outcome : Type := { printed : list value; exit_status : Z }.

(** A call the request handler makes on its base class or on its output
    stream; [write] carries the value handed to [json.dumps]. *)
Inductive call : Type :=
| send_response (code : Z)
| send_header (name content : string)
| end_headers
| write (document : value).

Section Library.
(** The library is taken as given: [loads text] is [None] when
    decoding the text or [json.loads] raises on it; [dumpable v] tells
    whether [json.dumps] returns on a report value (it returns on every
    error object); [message text] is [str(e)] for the exception that the
    input [text] provokes; [int_of h] is [int(h)] for the value of the
    [Content-Length] header, [None] when it raises.  Writing to the
    output stream is taken to succeed.  The two entry points do not
    share these functions: [main] reads standard input, decoded by the
    codec of the locale, and dumps with [indent=2]; the handler decodes
    the body it read as UTF-8 and dumps without indentation.  Each of
    [main] and [do_POST] therefore takes a library of its own. *)
Variable loads : string -> option value.
Variable dumpable : value -> bool.
Variable message : string -> string.
Variable int_of : option string -> option Z.

(** The [except] branch of [main]. *)
Definition main_failed (stdin : string) : outcome :=
  {| printed := [error_value (message stdin)]; exit_status := 1 |}.

Definition main (stdin : string) : outcome :=
  match loads stdin with
  | None => main_failed stdin
  | Some input_data =>
      match analyze_scan_results input_data with
      | Raise _ => main_failed stdin
      | Ok results =>
          if dumpable (report_value results)
          then {| printed := [report_value results]; exit_status := 0 |}
          else main_failed stdin
      end
  end.

(** [self._set_headers()] with the default content type. *)
Definition _set_headers : list call :=
  [send_response 200;
   send_header "Content-type" "application/json";
   send_header "Access-Control-Allow-Origin" "*";
   send_header "Access-Control-Allow-Methods" "GET, POST, OPTIONS";
   send_header "Access-Control-Allow-Headers" "Content-Type";
   end_headers].

Definition do_OPTIONS : list call := _set_headers.

Definition do_GET : list call :=
  _set_headers
  ++ [write (VDict [("status", VStr "running");
                    ("message", VStr "Python Deep Analyzer Bridge is running. Send POST requests to /analyze")])].

(** The [except] branch of [do_POST]. *)
Definition post_failed (post_data : string) : list call :=
  [send_response 500; end_headers; write (error_value (message post_data))].

(** The [try] statement of [do_POST], on the body read from the
    request. *)
Definition post_body (path post_data : string) : list call :=
  match loads post_data with
  | None => post_failed post_data
  | Some scan_data =>
      if String.eqb path "/analyze" then
        match analyze_scan_results scan_data with
        | Raise _ => post_failed post_data
        | Ok results =>
            _set_headers
            ++ (if dumpable (report_value results)
                then [write (report_value results)]
                else post_failed post_data)
        end
      else
        [send_response 404; end_headers;
         write (error_value "Unknown endpoint")]
  end.

(** The request is one that the analysis route serves with a report:
    the path is [/analyze], the body is JSON and the analysis returns. *)
Definition served (path post_data : string) (results : report) : Prop :=
  path = "/analyze"
  /\ exists scan_data,
       loads post_data = Some scan_data
       /\ analyze_scan_results scan_data = Ok results.

(** [do_POST]: [None] when reading the [Content-Length] header raises,
    before anything is sent; [read n] is [self.rfile.read(n)]. *)
Definition do_POST (path : string) (content_length : option string)
           (read : Z -> string) : option (list call) :=
  match int_of content_length with
  | None => None
  | Some n => Some (post_body path (read n))
  end.

End Library.

(** The status lines of a response. *)
Definition statuses (calls : list call) : list Z :=
  flat_map (fun c => match c with send_response code => [code] | _ => [] end) calls.

(** The header names of a response. *)
Definition header_names (calls : list call) : list string :=
  flat_map (fun c => match c with send_header name _ => [name] | _ => [] end) calls.

(** The documents of a response. *)
Definition documents (calls : list call) : list value :=
  flat_map (fun c => match c with write v => [v] | _ => [] end) calls.

End Shim.

(* ================================================================== *)
(** ** Exceptions and loops *)
(* ================================================================== *)

Import Py Re DeepSecurityAnalyzer Spec.
Local Open Scope py_scope.

Lemma bind_ok {A B : Type} (m : result A) (f : A -> result B) (b : B) :
  bind m f = Ok b -> exists a, m = Ok a /\ f a = Ok b.
Proof.
  destruct m as [a|e]; simpl; intros H; [eauto | discriminate].
Qed.

(** Split a successful chain of binds into its steps. *)
Ltac bind_inv H :=
  let a := fresh "a" in
  let Ha := fresh "Ha" in
  apply bind_ok in H; destruct H as (a & Ha & H).

(* ================================================================== *)
(** ** The tally *)
(* ================================================================== *)

Lemma count_of_cons k issue issues :
  count_of k (issue :: issues) = (b2z (severity_is k issue) + count_of k issues)%Z.
Proof.
  unfold count_of; simpl. destruct (severity_is k issue); simpl b2z; simpl List.length; lia.
Qed.

Lemma count_of_nonneg k issues : (0 <= count_of k issues)%Z.
Proof. unfold count_of; lia. Qed.

Lemma tally_eq c h m l c' h' m' l' :
  c = c' -> h = h' -> m = m' -> l = l' -> tally c h m l = tally c' h' m' l'.
Proof. now intros -> -> -> ->. Qed.

(** One turn of the counting loop on a four-key tally. *)
Lemma count_issue_tally c h m l issue cs :
  count_issue (tally c h m l) issue = Ok cs ->
  cs = tally (c + b2z (severity_is "critical" issue))
             (h + b2z (severity_is "high" issue))
             (m + b2z (severity_is "medium" issue))
             (l + b2z (severity_is "low" issue)).
Proof.
  unfold count_issue, severity_is, read_severity.
  destruct issue as [| | | | |?|d]; simpl; try discriminate.
  destruct (dict_get_default "severity" (VStr "low") d) as [| | | |s| |];
    simpl; try discriminate;
    try (intros H; injection H as <-; apply tally_eq; lia).
  destruct (String.eqb s "critical") eqn:E1;
    [apply String.eqb_eq in E1; subst s; simpl; intros H; injection H as <-;
     apply tally_eq; lia|].
  destruct (String.eqb s "high") eqn:E2;
    [apply String.eqb_eq in E2; subst s; simpl; intros H; injection H as <-;
     apply tally_eq; lia|].
  destruct (String.eqb s "medium") eqn:E3;
    [apply String.eqb_eq in E3; subst s; simpl; intros H; injection H as <-;
     apply tally_eq; lia|].
  destruct (String.eqb s "low") eqn:E4;
    [apply String.eqb_eq in E4; subst s; simpl; intros H; injection H as <-;
     apply tally_eq; lia|].
  unfold counts_has, tally; simpl.
  intros H; injection H as <-. now rewrite !Z.add_0_r.
Qed.

Lemma count_loop_tally issues : forall c h m l cs,
  for_each issues (tally c h m l) count_issue = Ok cs ->
  cs = tally (c + count_of "critical" issues) (h + count_of "high" issues)
             (m + count_of "medium" issues) (l + count_of "low" issues).
Proof.
  induction issues as [|issue issues IH]; intros c h m l cs H.
  - simpl in H; injection H as <-. unfold count_of; simpl.
    apply tally_eq; lia.
  - simpl in H. bind_inv H. apply count_issue_tally in Ha; subst a.
    apply IH in H; subst cs. rewrite !count_of_cons.
    apply tally_eq; lia.
Qed.

(** The tally of a finished count: the four keys, each with the number
    of findings read at that severity. *)
Lemma count_severities_tally issues cs :
  count_severities issues = Ok cs ->
  cs = tally (count_of "critical" issues) (count_of "high" issues)
             (count_of "medium" issues) (count_of "low" issues).
Proof.
  intros H. apply (count_loop_tally issues 0 0 0 0)%Z in H. exact H.
Qed.

Lemma counted_split issue :
  (b2z (severity_is "critical" issue) + b2z (severity_is "high" issue)
   + b2z (severity_is "medium" issue) + b2z (severity_is "low" issue))%Z
  = b2z (counted issue).
Proof.
  unfold counted, severity_is, records_known_severity, lacks_severity,
    read_severity, recorded_severity, dict_get_default, dict_has.
  destruct issue as [| | | | |?|d]; try reflexivity.
  destruct (dict_get "severity" d) as [v|]; [|reflexivity].
  destruct v as [| | | |s| |]; try reflexivity.
  unfold is_known, known_severities; simpl existsb.
  destruct (String.eqb s "critical") eqn:E1;
    [apply String.eqb_eq in E1; subst s; reflexivity|].
  destruct (String.eqb s "high") eqn:E2;
    [apply String.eqb_eq in E2; subst s; reflexivity|].
  destruct (String.eqb s "medium") eqn:E3;
    [apply String.eqb_eq in E3; subst s; reflexivity|].
  destruct (String.eqb s "low") eqn:E4; reflexivity.
Qed.

Lemma count_of_sum issues :
  (count_of "critical" issues + count_of "high" issues
   + count_of "medium" issues + count_of "low" issues)%Z
  = Z.of_nat (List.length (filter counted issues)).
Proof.
  induction issues as [|issue issues IH]; [reflexivity|].
  rewrite !count_of_cons. simpl filter.
  pose proof (counted_split issue) as Hs.
  destruct (counted issue); simpl b2z in Hs; simpl List.length; lia.
Qed.

(* ================================================================== *)
(** ** The shape of a successful analysis *)
(* ================================================================== *)

Lemma analyze_scan_results_ok results rep :
  analyze_scan_results results = Ok rep ->
  exists records all_urls,
    iter results = Ok records /\
    for_each records ([], []) process_record = Ok (enhanced_issues rep, all_urls) /\
    generate_recommendations (enhanced_issues rep) = Ok (recommendations rep) /\
    count_severities (enhanced_issues rep) = Ok (severity_counts rep) /\
    score (severity_counts rep) = Ok (risk_score rep) /\
    risk_level rep = level (risk_score rep) /\
    urls_analyzed rep = Z.of_nat (List.length all_urls).
Proof.
  unfold analyze_scan_results. intros H.
  bind_inv H. rename a into records. bind_inv H. destruct a as [all_issues all_urls].
  bind_inv H. bind_inv H. bind_inv H. injection H as <-. simpl.
  exists records, all_urls. repeat split; assumption.
Qed.

Lemma score_tally c h m l :
  score (tally c h m l) = Ok (Z.min 100 (c * 25 + h * 10 + m * 5 + l * 1))%Z.
Proof. reflexivity. Qed.

Lemma level_band risk_score : level risk_score = band risk_score.
Proof.
  unfold level, band. rewrite !Z.gtb_ltb. reflexivity.
Qed.

(* ================================================================== *)
(** ** Severity counts, risk score and risk level *)
(* ================================================================== *)

Lemma uncounted_adds_nothing issue k :
  In k known_severities -> counted issue = false -> severity_is k issue = false.
Proof.
  intros Hk Hn. pose proof (counted_split issue) as Hs. rewrite Hn in Hs.
  simpl b2z in Hs at 5.
  assert (Hb : forall b, (0 <= b2z b)%Z) by (intros []; simpl; lia).
  pose proof (Hb (severity_is "critical" issue)).
  pose proof (Hb (severity_is "high" issue)).
  pose proof (Hb (severity_is "medium" issue)).
  pose proof (Hb (severity_is "low" issue)).
  simpl in Hk.
  destruct Hk as [<-|[<-|[<-|[<-|[]]]]];
    match goal with |- ?b = false => destruct b; simpl b2z in *; [lia|reflexivity] end.
Qed.

Lemma missing_reads_low issue :
  lacks_severity issue = true -> severity_is "low" issue = true.
Proof.
  unfold lacks_severity, severity_is, read_severity, dict_get_default, dict_has.
  destruct issue as [| | | | |?|d]; try discriminate.
  destruct (dict_get "severity" d); [discriminate | reflexivity].
Qed.

(** C1 (as amended): in every report, [severity_counts] holds exactly the
    four known severities, each with the number of findings of
    [enhanced_issues] read at that severity, where a finding with no
    severity field is read as low; every count is non-negative; a
    finding whose severity is present but not one of the four adds to no
    count; and the counts sum to the number of findings whose severity is
    one of the four known values or is missing. *)
Theorem severity_counts_tally results rep
  (H : analyze_scan_results results = Ok rep) :
  severity_counts rep
  = tally (count_of "critical" (enhanced_issues rep))
          (count_of "high" (enhanced_issues rep))
          (count_of "medium" (enhanced_issues rep))
          (count_of "low" (enhanced_issues rep))
  /\ Forall (fun kv => (0 <= snd kv)%Z) (severity_counts rep)
  /\ (forall issue k, In issue (enhanced_issues rep) ->
        In k known_severities -> counted issue = false ->
        severity_is k issue = false)
  /\ (forall issue, In issue (enhanced_issues rep) ->
        lacks_severity issue = true -> severity_is "low" issue = true)
  /\ sum_counts (severity_counts rep)
     = Z.of_nat (List.length (filter counted (enhanced_issues rep))).
Proof.
  apply analyze_scan_results_ok in H.
  destruct H as (records & urls & _ & _ & _ & Hc & _).
  apply count_severities_tally in Hc. rewrite Hc.
  split; [reflexivity|]. split.
  { unfold tally. repeat constructor; simpl; apply count_of_nonneg. }
  split; [intros issue k _; apply uncounted_adds_nothing|].
  split; [intros issue _; apply missing_reads_low|].
  rewrite <- count_of_sum. unfold sum_counts, tally; simpl. lia.
Qed.

Lemma severity_counts_tally_witness :
  exists rep, analyze_scan_results no_severity = Ok rep
              /\ severity_counts rep = tally 0 0 0 1.
Proof.
  eexists. split; [vm_compute; reflexivity|].
  exact (proj1 (severity_counts_tally no_severity _ eq_refl)).
Defined.

(** C1 as first stated fails on the batch
    [[{"url":"a","issues":[{"id":"x"}]}]]: its one finding has no
    severity, yet it is counted (as low), so the counts sum to 1 while no
    finding records one of the four known severities. *)
Lemma missing_severity_is_counted :
  exists rep,
    analyze_scan_results no_severity = Ok rep
    /\ enhanced_issues rep = [VDict [("id", VStr "x")]]
    /\ recorded_severity (VDict [("id", VStr "x")]) = None
    /\ counts_get "low" (severity_counts rep) = Some 1%Z
    /\ sum_counts (severity_counts rep)
       <> Z.of_nat (List.length (filter records_known_severity (enhanced_issues rep))).
Proof.
  eexists. split; [vm_compute; reflexivity|]. simpl.
  repeat split; try reflexivity. discriminate.
Qed.

(** C2: in every report, [risk_score] is
    [min(100, 25*critical + 10*high + 5*medium + 1*low)] of the report's
    own [severity_counts]; it is the value of the function [score] on
    [severity_counts], so two reports with equal counts have equal
    scores; and it lies between 0 and 100 inclusive. *)
Theorem risk_score_formula results rep
  (H : analyze_scan_results results = Ok rep) :
  (exists critical high medium low,
      severity_counts rep = tally critical high medium low
      /\ risk_score rep
         = Z.min 100 (25 * critical + 10 * high + 5 * medium + 1 * low))%Z
  /\ score (severity_counts rep) = Ok (risk_score rep)
  /\ (forall results' rep',
        analyze_scan_results results' = Ok rep' ->
        severity_counts rep' = severity_counts rep ->
        risk_score rep' = risk_score rep)
  /\ (0 <= risk_score rep <= 100)%Z.
Proof.
  pose proof (analyze_scan_results_ok _ _ H) as (records & urls & _ & _ & _ & Hc & Hs & _).
  pose proof (count_severities_tally _ _ Hc) as Ht.
  split; [|split; [exact Hs|split]].
  - do 4 eexists. split; [exact Ht|].
    rewrite Ht, score_tally in Hs. injection Hs as <-. f_equal; lia.
  - intros results' rep' H' Heq.
    apply analyze_scan_results_ok in H'.
    destruct H' as (? & ? & _ & _ & _ & _ & Hs' & _).
    rewrite Heq, Hs in Hs'. now injection Hs'.
  - rewrite Ht, score_tally in Hs. injection Hs as <-.
    pose proof (count_of_nonneg "critical" (enhanced_issues rep)).
    pose proof (count_of_nonneg "high" (enhanced_issues rep)).
    pose proof (count_of_nonneg "medium" (enhanced_issues rep)).
    pose proof (count_of_nonneg "low" (enhanced_issues rep)).
    lia.
Qed.

Lemma risk_score_formula_witness :
  exists rep, analyze_scan_results (lows 3) = Ok rep /\ (0 <= risk_score rep <= 100)%Z.
Proof.
  eexists. split; [vm_compute; reflexivity|].
  exact (proj2 (proj2 (proj2 (risk_score_formula (lows 3) _ eq_refl)))).
Defined.

(** C3: in every report, [risk_level] is critical when [risk_score > 75],
    else high when [risk_score > 50], else medium when [risk_score > 25],
    else low; and batches with scores 76, 75, 51, 50, 26, 25 and 0 are
    reported as critical, high, high, medium, medium, low and low. *)
Theorem risk_level_bands results rep
  (H : analyze_scan_results results = Ok rep) :
  risk_level rep = band (risk_score rep)
  /\ (forall n expected,
        In (n, expected)
           [(76, "critical"); (75, "high"); (51, "high"); (50, "medium");
            (26, "medium"); (25, "low"); (0, "low")]%nat ->
        band (Z.of_nat n) = expected
        /\ exists rep', analyze_scan_results (lows n) = Ok rep'
                        /\ risk_score rep' = Z.of_nat n
                        /\ risk_level rep' = expected).
Proof.
  split.
  - apply analyze_scan_results_ok in H.
    destruct H as (? & ? & _ & _ & _ & _ & _ & Hl & _).
    now rewrite Hl, level_band.
  - intros n expected Hin. simpl in Hin.
    repeat (destruct Hin as [Hin|Hin];
            [injection Hin as <- <-; split; [reflexivity|];
             eexists; split; [vm_compute; reflexivity|split; reflexivity]|]).
    destruct Hin.
Qed.

Lemma risk_level_bands_witness :
  exists rep, analyze_scan_results (lows 76) = Ok rep
              /\ risk_level rep = band (risk_score rep).
Proof.
  eexists. split; [vm_compute; reflexivity|].
  refine (proj1 (risk_level_bands (lows 76) _ _)). vm_compute; reflexivity.
Defined.

(** C4 (as amended): on the batch
    [[{"url":"a","issues":[{"id":"x","severity":"critical"}]}]] the
    analysis returns a report with [severity_counts.critical == 1],
    [risk_score == 25], [risk_level == "low"], [urls_analyzed == 1], one
    enhanced issue and no recommendation. *)
Theorem one_critical_report :
  exists rep,
    analyze_scan_results one_critical = Ok rep
    /\ counts_get "critical" (severity_counts rep) = Some 1%Z
    /\ risk_score rep = 25%Z
    /\ risk_level rep = "low"
    /\ urls_analyzed rep = 1%Z
    /\ List.length (enhanced_issues rep) = 1%nat
    /\ recommendations rep = [].
Proof.
  eexists. split; [vm_compute; reflexivity|]. repeat split.
Qed.

(** C4 as first stated fails: the report of that batch has risk score 25,
    which is not above 25, so its risk level is low and not medium. *)
Lemma one_critical_is_not_medium :
  exists rep,
    analyze_scan_results one_critical = Ok rep
    /\ risk_score rep = 25%Z
    /\ risk_level rep = "low"
    /\ risk_level rep <> "medium".
Proof.
  eexists. split; [vm_compute; reflexivity|]. repeat split. discriminate.
Qed.

(* ================================================================== *)
(** ** The first loop: one record after the other *)
(* ================================================================== *)

Lemma str_in_dict k d : str_in k (VDict d) = Ok (dict_has k d).
Proof. reflexivity. Qed.

Lemma process_record_ok all_issues all_urls record all_issues' all_urls' :
  process_record (all_issues, all_urls) record = Ok (all_issues', all_urls') ->
  exists c url,
    contributes record c
    /\ all_issues' = all_issues ++ in_order c
    /\ record_url record = Some url
    /\ set_add url all_urls = Ok all_urls'.
Proof.
  unfold process_record. intros H.
  bind_inv H. rename a into url, Ha into Hurl.
  bind_inv H. rename a into urls1, Ha into Hadd.
  bind_inv H. rename a into existing_v, Ha into Hex.
  bind_inv H. rename a into existing, Ha into Hiter.
  destruct record as [| | | | |?|d]; try discriminate.
  simpl in Hurl, Hex. injection Hurl as <-. injection Hex as <-.
  rewrite !str_in_dict in H. simpl bind in H. unfold dict_has, getitem in H.
  bind_inv H. rename a into issues1, Ha into Hcontent.
  bind_inv H. rename a into issues2, Ha into Hheaders.
  injection H as <- <-.
  assert (Hc : exists cs, issues1 = (all_issues ++ existing) ++ cs /\
            match dict_get "content" d with
            | Some content =>
                analyze_content (dict_get_default "url" (VStr "") d) content = Ok cs
            | None => cs = []
            end).
  { destruct (dict_get "content" d) as [content|].
    - simpl in Hcontent. bind_inv Hcontent. injection Hcontent as <-. eauto.
    - injection Hcontent as <-. exists []. now rewrite app_nil_r. }
  destruct Hc as (cs & -> & Hcs).
  assert (Hh : exists hs, issues2 = ((all_issues ++ existing) ++ cs) ++ hs /\
            match dict_get "headers" d with
            | Some headers =>
                analyze_headers (dict_get_default "url" (VStr "") d) headers = Ok hs
            | None => hs = []
            end).
  { destruct (dict_get "headers" d) as [headers|].
    - simpl in Hheaders. bind_inv Hheaders. injection Hheaders as <-. eauto.
    - injection Hheaders as <-. exists []. now rewrite app_nil_r. }
  destruct Hh as (hs & -> & Hhs).
  exists {| passed_through := existing; from_content := cs; from_headers := hs |},
         (dict_get_default "url" (VStr "") d).
  split; [|split; [|split]].
  - exists d, (dict_get_default "url" (VStr "") d). simpl. repeat split; assumption.
  - unfold in_order; simpl. now rewrite <- !app_assoc.
  - reflexivity.
  - exact Hadd.
Qed.

Lemma set_add_ok url s s' :
  set_add url s = Ok s' -> hashable url = true /\ s' = add_all [url] s.
Proof.
  unfold set_add. destruct (hashable url); [|discriminate].
  intros H; injection H as <-. split; reflexivity.
Qed.

(** The loop over the batch: the findings are the contributions of the
    records, in order, and the set holds the urls of the records. *)
Lemma process_records_ok records : forall all_issues all_urls all_issues' all_urls',
  for_each records (all_issues, all_urls) process_record = Ok (all_issues', all_urls') ->
  exists cs urls,
    Forall2 contributes records cs
    /\ all_issues' = all_issues ++ List.concat (map in_order cs)
    /\ Forall2 (fun record url => record_url record = Some url) records urls
    /\ Forall (fun url => hashable url = true) urls
    /\ all_urls' = add_all urls all_urls.
Proof.
  induction records as [|record records IH]; intros issues urls issues' urls' H.
  - simpl in H. injection H as <- <-. exists [], []. simpl.
    rewrite app_nil_r. repeat split; constructor.
  - simpl in H. bind_inv H. destruct a as [issues1 urls1].
    apply process_record_ok in Ha. destruct Ha as (c & url & Hc & -> & Hurl & Hadd).
    apply set_add_ok in Hadd. destruct Hadd as [Hh ->].
    apply IH in H. destruct H as (cs & us & Hcs & -> & Hus & Hhs & ->).
    exists (c :: cs), (url :: us). simpl.
    repeat split; try (constructor; assumption).
    now rewrite <- app_assoc.
Qed.

Lemma enhanced_issues_order_aux records rep :
  analyze_scan_results (VList records) = Ok rep ->
  exists cs,
    Forall2 contributes records cs
    /\ enhanced_issues rep = List.concat (map in_order cs).
Proof.
  intros H. apply analyze_scan_results_ok in H.
  destruct H as (records' & urls & Hiter & Hloop & _).
  simpl in Hiter. injection Hiter as <-.
  apply process_records_ok in Hloop.
  destruct Hloop as (cs & us & Hcs & Hissues & _).
  exists cs. split; assumption.
Qed.

(** C8: the enhanced issues of a report are the contributions of the
    records in submission order, and within a record the pass-through
    issues (as given) come first, then the content findings, then the
    header findings. *)
Theorem enhanced_issues_order records rep
  (H : analyze_scan_results (VList records) = Ok rep) :
  exists cs,
    Forall2 contributes records cs
    /\ enhanced_issues rep = List.concat (map in_order cs)
    /\ (forall c, In c cs ->
          in_order c = passed_through c ++ from_content c ++ from_headers c)
    /\ Forall2 (fun record c =>
                  forall d given, record = VDict d ->
                    dict_get "issues" d = Some (VList given) ->
                    passed_through c = given) records cs.
Proof.
  apply analyze_scan_results_ok in H.
  destruct H as (records' & urls & Hiter & Hloop & _).
  simpl in Hiter. injection Hiter as <-.
  apply process_records_ok in Hloop.
  destruct Hloop as (cs & us & Hcs & Hissues & _).
  exists cs. split; [exact Hcs|]. split; [exact Hissues|].
  split; [intros c _; reflexivity|].
  clear - Hcs. induction Hcs as [|record c records cs Hc _ IH]; constructor; [|exact IH].
  intros d given -> Hg. destruct Hc as (d' & url & Hd & _ & Hit & _).
  injection Hd as <-. unfold dict_get_default in Hit. rewrite Hg in Hit.
  simpl in Hit. now injection Hit.
Qed.

(* ================================================================== *)
(** ** The set of urls *)
(* ================================================================== *)

Lemma key_eqb_str k v : key_eqb (VStr k) v = true <-> v = VStr k.
Proof.
  destruct v; simpl; split; try discriminate; intros H.
  - apply String.eqb_eq in H. now subst.
  - injection H as ->. apply String.eqb_refl.
Qed.

Lemma set_mem_strings a t : set_mem (VStr a) (map VStr t) = true <-> In a t.
Proof.
  unfold set_mem. rewrite existsb_exists. split.
  - intros (v & Hin & Heq). apply key_eqb_str in Heq. subst v.
    apply in_map_iff in Hin. destruct Hin as (b & Hb & Hin). now injection Hb as <-.
  - intros Hin. exists (VStr a). split; [now apply in_map | now apply key_eqb_str].
Qed.

(** Adding strings to a set of strings keeps one copy of each. *)
Lemma add_all_strings l : forall t,
  NoDup t ->
  exists t', add_all (map VStr l) (map VStr t) = map VStr t'
             /\ NoDup t' /\ forall x, In x t' <-> In x t \/ In x l.
Proof.
  induction l as [|a l IH]; intros t Hnd.
  - exists t. simpl. repeat split; tauto.
  - simpl. destruct (set_mem (VStr a) (map VStr t)) eqn:Hm.
    + apply set_mem_strings in Hm.
      destruct (IH t Hnd) as (t' & Heq & Hnd' & Hin).
      exists t'. repeat split; try assumption.
      * intros Hx. apply Hin in Hx. tauto.
      * intros [Hx|[<-|Hx]]; apply Hin; tauto.
    + assert (Hn : ~ In a t).
      { intros Hin. apply set_mem_strings in Hin. congruence. }
      assert (Hnd1 : NoDup (t ++ [a])).
      { apply NoDup_app; [assumption | repeat constructor; simpl; tauto |].
        intros x Hx [<-|[]]. contradiction. }
      destruct (IH (t ++ [a]) Hnd1) as (t' & Heq & Hnd' & Hin).
      exists t'. rewrite <- Heq, map_app. repeat split; try assumption.
      * intros Hx. apply Hin in Hx. rewrite in_app_iff in Hx. simpl in Hx. tauto.
      * intros Hx. apply Hin. rewrite in_app_iff. simpl. tauto.
Qed.

Lemma add_all_strings_length l :
  List.length (add_all (map VStr l) []) = List.length (nodup string_dec l).
Proof.
  destruct (add_all_strings l [] (NoDup_nil _)) as (t' & Heq & Hnd & Hin).
  simpl in Heq. rewrite Heq, length_map.
  apply Permutation_length.
  apply NoDup_Permutation; [assumption | apply NoDup_nodup |].
  intros x. rewrite nodup_In, Hin. simpl. tauto.
Qed.

(** C9: when the urls of the records are strings (a record with no url
    field has the empty string), [urls_analyzed] is the number of
    distinct strings among them: equal urls count once and the empty
    string counts like any other. *)
Theorem urls_analyzed_distinct records urls rep
  (H : analyze_scan_results (VList records) = Ok rep)
  (Hurls : Forall2 (fun record url => record_url record = Some (VStr url))
                   records urls) :
  urls_analyzed rep = Z.of_nat (List.length (nodup string_dec urls)).
Proof.
  apply analyze_scan_results_ok in H.
  destruct H as (records' & all_urls & Hiter & Hloop & _ & _ & _ & _ & ->).
  simpl in Hiter. injection Hiter as <-.
  apply process_records_ok in Hloop.
  destruct Hloop as (cs & us & _ & _ & Hus & _ & ->).
  assert (Hmap : us = map VStr urls).
  { clear - Hus Hurls. revert us Hus.
    induction Hurls as [|record url records urls Hr _ IH]; intros us Hus;
      inversion Hus; subst; [reflexivity|].
    simpl. f_equal; [congruence | now apply IH]. }
  subst us. now rewrite add_all_strings_length.
Qed.

Lemma urls_analyzed_distinct_witness :
  exists rep, analyze_scan_results (VList four_records) = Ok rep
              /\ urls_analyzed rep = 2%Z.
Proof.
  eexists. split; [vm_compute; reflexivity|].
  refine (urls_analyzed_distinct four_records [""; "a"; ""; "a"] _ _ _).
  - vm_compute; reflexivity.
  - repeat constructor.
Defined.

Lemma enhanced_issues_order_witness :
  exists rep cs,
    analyze_scan_results (VList three_pages) = Ok rep
    /\ Forall2 contributes three_pages cs
    /\ enhanced_issues rep = List.concat (map in_order cs)
    /\ (forall c, In c cs ->
          in_order c = passed_through c ++ from_content c ++ from_headers c)
    /\ Forall2 (fun record c =>
                  forall d given, record = VDict d ->
                    dict_get "issues" d = Some (VList given) ->
                    passed_through c = given) three_pages cs
    /\ urls_and_ids (enhanced_issues rep)
       = [(None, Some (VStr "p1"));
          (None, Some (VStr "p2"));
          (Some (VStr "a"), Some (VStr "deep_sensitive_data"));
          (Some (VStr "a"), Some (VStr "deep_open_redirect"));
          (Some (VStr "a"), Some (VStr "deep_insecure_cookie"));
          (Some (VStr "a"), Some (VStr "deep_server_disclosure"));
          (Some (VStr "b"), Some (VStr "deep_xss_vulnerability"));
          (Some (VStr "b"), Some (VStr "deep_server_disclosure"));
          (None, Some (VStr "p3"))].
Proof.
  eexists.
  assert (H : analyze_scan_results (VList three_pages) = Ok ?[rep])
    by (vm_compute; reflexivity).
  destruct (enhanced_issues_order three_pages _ H) as (cs & Hcs & Heq & Hin & Hgiven).
  exists cs. split; [exact H|]. split; [exact Hcs|]. split; [exact Heq|].
  split; [exact Hin|]. split; [exact Hgiven|]. vm_compute; reflexivity.
Defined.

(* ================================================================== *)
(** ** Recommendations *)
(* ================================================================== *)

Lemma id_is_key k issue id :
  getitem issue "id" = Ok id -> id_is k issue = key_eqb (VStr k) id.
Proof.
  unfold getitem, id_is. destruct issue as [| | | | |?|d]; try discriminate.
  destruct (dict_get "id" d) as [v|]; [|discriminate].
  intros H; injection H as ->.
  destruct id; try reflexivity. simpl. apply String.eqb_sym.
Qed.

Lemma set_mem_app x s t : set_mem x (s ++ t) = set_mem x s || set_mem x t.
Proof. unfold set_mem. apply existsb_app. Qed.

(** The set built by the comprehension holds the string [k] exactly when
    some finding carries it as its id. *)
Lemma issue_ids_loop issues : forall ids0 ids k,
  for_each issues ids0
    (fun ids issue => bind (getitem issue "id") (fun id => set_add id ids)) = Ok ids ->
  set_has_str k ids = set_has_str k ids0 || has_id k issues.
Proof.
  induction issues as [|issue issues IH]; intros ids0 ids k H; simpl in H.
  - injection H as <-. simpl. now rewrite orb_false_r.
  - bind_inv H. rename a into ids1. bind_inv Ha. rename a into id.
    rewrite (IH _ _ k H). simpl has_id. rewrite (id_is_key k _ _ Ha0).
    rewrite orb_assoc. f_equal.
    unfold set_add in Ha. destruct (hashable id); [|discriminate].
    injection Ha as <-. unfold set_has_str.
    destruct (set_mem id ids0) eqn:Hm.
    + destruct (key_eqb (VStr k) id) eqn:Hk; [|now rewrite orb_false_r].
      apply key_eqb_str in Hk. subst id. rewrite Hm. reflexivity.
    + rewrite set_mem_app. simpl. now rewrite orb_false_r.
Qed.

Lemma issue_ids_has issues ids k :
  issue_ids issues = Ok ids -> set_has_str k ids = has_id k issues.
Proof.
  intros H. apply (issue_ids_loop issues [] ids k) in H. exact H.
Qed.

Lemma recommend_spec ids issues id text recs :
  issue_ids issues = Ok ids ->
  recommend ids id text recs = recs ++ (if has_id id issues then [text] else []).
Proof.
  intros H. unfold recommend. rewrite (issue_ids_has _ _ id H).
  destruct (has_id id issues); [reflexivity | now rewrite app_nil_r].
Qed.

(** The recommendations are the catalog texts of the ids present, in
    catalog order. *)
Lemma generate_recommendations_catalog issues recs :
  generate_recommendations issues = Ok recs ->
  recs = map snd (filter (fun entry => has_id (fst entry) issues) catalog).
Proof.
  unfold generate_recommendations. intros H. bind_inv H. rename a into ids.
  injection H as <-.
  rewrite !(recommend_spec ids issues) by assumption.
  unfold catalog. simpl filter. simpl fst.
  destruct (has_id "deep_sql_injection" issues),
           (has_id "deep_xss_vulnerability" issues),
           (has_id "deep_sensitive_data" issues),
           (has_id "deep_path_traversal" issues),
           (has_id "deep_open_redirect" issues),
           (has_id "deep_insecure_cookie" issues),
           (has_id "deep_server_disclosure" issues); reflexivity.
Qed.

Lemma catalog_texts_distinct : NoDup (map snd catalog).
Proof.
  assert (H : nodup string_dec (map snd catalog) = map snd catalog)
    by (vm_compute; reflexivity).
  rewrite <- H. apply NoDup_nodup.
Qed.

Lemma filter_keeps_distinct {T K : Type} (key : T -> K) (keep : T -> bool) :
  forall entries : list T,
    NoDup (map key entries) -> NoDup (map key (filter keep entries)).
Proof.
  intros entries. induction entries as [|entry entries IH]; simpl; intros Hnd.
  - constructor.
  - inversion Hnd as [|? ? Hfresh Hrest]; subst.
    destruct (keep entry); simpl; [constructor|]; auto.
    intros Hin. apply Hfresh. apply in_map_iff in Hin.
    destruct Hin as (other & Hkey & Hin).
    apply filter_In in Hin. apply in_map_iff. exists other. tauto.
Qed.

(** C7: the recommendations of a finding sequence are the catalog texts
    of the known ids that occur in it, each once and in the fixed catalog
    order; hence no text is repeated, and two sequences in which the same
    known ids occur (however often, in whatever order, among whatever
    other ids) get the same recommendations. *)
Theorem recommendations_by_kind issues recs
  (H : generate_recommendations issues = Ok recs) :
  recs = map snd (filter (fun entry => has_id (fst entry) issues) catalog)
  /\ map fst catalog
     = ["deep_sql_injection"; "deep_xss_vulnerability"; "deep_sensitive_data";
        "deep_path_traversal"; "deep_open_redirect"; "deep_insecure_cookie";
        "deep_server_disclosure"]
  /\ NoDup recs
  /\ (List.length recs <= 7)%nat
  /\ (forall issues' recs',
        generate_recommendations issues' = Ok recs' ->
        (forall k, In k (map fst catalog) -> has_id k issues' = has_id k issues) ->
        recs' = recs)
  /\ ((forall k, In k (map fst catalog) -> has_id k issues = false) -> recs = []).
Proof.
  pose proof (generate_recommendations_catalog _ _ H) as Hr.
  split; [exact Hr|]. split; [reflexivity|]. split; [|split; [|split]].
  - rewrite Hr. apply filter_keeps_distinct, catalog_texts_distinct.
  - rewrite Hr, length_map.
    etransitivity; [apply filter_length_le | simpl; lia].
  - intros issues' recs' H' Hsame.
    apply generate_recommendations_catalog in H'. rewrite H', Hr. f_equal.
    apply filter_ext_in. intros [k text] Hin. simpl.
    apply Hsame. apply in_map_iff. exists (k, text). auto.
  - intros Hnone. rewrite Hr. unfold catalog. simpl filter. simpl fst.
    rewrite !Hnone by (simpl; tauto). reflexivity.
Qed.

Lemma recommendations_by_kind_witness :
  exists recs,
    generate_recommendations hundred_injections = Ok recs
    /\ recs = [rec_sql_injection; rec_xss_vulnerability; rec_server_disclosure]
    /\ NoDup recs.
Proof.
  eexists. split; [vm_compute; reflexivity|]. split; [reflexivity|].
  refine (proj1 (proj2 (proj2 (recommendations_by_kind hundred_injections _ _)))).
  vm_compute; reflexivity.
Defined.

(* ================================================================== *)
(** ** The two detectors, as functions *)
(* ================================================================== *)

Lemma for_each_append {A B : Type} (g : A -> result B) (f : A -> B) items :
  (forall x, In x items -> g x = Ok (f x)) ->
  forall acc,
    for_each items acc (fun acc x => bind (g x) (fun y => Ok (acc ++ [y])))
    = Ok (acc ++ map f items).
Proof.
  induction items as [|x items IH]; intros Hg acc; simpl.
  - now rewrite app_nil_r.
  - rewrite (Hg x) by (now left). simpl.
    rewrite IH by (intros y Hy; apply Hg; now right).
    now rewrite <- app_assoc.
Qed.

Lemma slice_window text s e :
  slice text (Z.max 0 (Z.of_nat s - 30))
        (Z.min (Z.of_nat (String.length text)) (Z.of_nat e + 30))
  = window text s e.
Proof.
  unfold slice, window. f_equal; lia.
Qed.

Lemma content_issue_ok kind url text m :
  content_issue kind url (VStr text) m
  = Ok (content_finding kind (mapping_get kind "medium" severity_mapping) url text
          (m_start m, m_end m)).
Proof.
  unfold content_issue, content_finding. simpl. now rewrite slice_window.
Qed.

Lemma finditer_str pattern text :
  finditer pattern (VStr text)
  = Ok (map (fun se => {| m_start := fst se; m_end := snd se |}) (spans pattern text)).
Proof. reflexivity. Qed.

(** The content detector on a string: rule after rule, match after
    match. *)
Lemma analyze_content_findings url text :
  analyze_content url (VStr text) = Ok (flat_map (rule_findings url text) registry).
Proof.
  unfold analyze_content, patterns, registry.
  cbn [for_each flat_map rule_findings].
  rewrite !finditer_str. cbn [bind].
  repeat (rewrite (for_each_append
                     (content_issue _ url (VStr text))
                     (fun m => content_finding _ _ url text (m_start m, m_end m)))
            by (intros; apply content_issue_ok);
          cbn [bind]).
  rewrite !map_map. cbn [m_start m_end mapping_get severity_mapping String.eqb Ascii.eqb Bool.eqb].
  rewrite app_nil_r, <- !app_assoc. cbn [app].
  repeat f_equal; apply map_ext; intros [s e]; reflexivity.
Qed.

Lemma header_mapping_get k d v :
  header_mapping d = true -> dict_get k d = Some v -> exists s, v = VStr s.
Proof.
  unfold header_mapping. induction d as [|[k' v'] d IH]; simpl; [discriminate|].
  intros H. apply andb_prop in H. destruct H as [Hv Hd].
  destruct (String.eqb k k').
  - intros E; injection E as <-. destruct v'; try discriminate. eauto.
  - now apply IH.
Qed.

(** The header detector on a header mapping: the cookie finding, if any,
    then the server finding, if any. *)
Lemma analyze_headers_mapping url d :
  header_mapping d = true ->
  analyze_headers url (VDict d) = Ok (cookie_part url d ++ server_part url d).
Proof.
  intros Hm. unfold analyze_headers, cookie_part, server_part.
  rewrite !str_in_dict. cbn [bind]. unfold dict_has, getitem.
  destruct (dict_get "set-cookie" d) as [cookie|] eqn:Ec.
  - destruct (header_mapping_get _ _ _ Hm Ec) as (c & ->). cbn [str_lower bind].
    unfold no_secure_or_no_httponly.
    destruct (contains "secure" (lower c)); cbn [negb orb bind];
      [destruct (contains "httponly" (lower c)); cbn [negb bind]|].
    all: destruct (dict_get "server" d) as [server|] eqn:Es; cbn [bind app];
      [destruct (header_mapping_get _ _ _ Hm Es) as (v & ->); cbn [len bind];
       rewrite Z.gtb_ltb;
       replace (0 <? Z.of_nat (String.length v))%Z with (0 <? String.length v)%nat
         by (destruct (String.length v); reflexivity);
       destruct (0 <? String.length v)%nat; reflexivity
      | reflexivity].
  - cbn [bind].
    destruct (dict_get "server" d) as [server|] eqn:Es; cbn [bind app];
      [destruct (header_mapping_get _ _ _ Hm Es) as (v & ->); cbn [len bind];
       rewrite Z.gtb_ltb;
       replace (0 <? Z.of_nat (String.length v))%Z with (0 <? String.length v)%nat
         by (destruct (String.length v); reflexivity);
       destruct (0 <? String.length v)%nat; reflexivity
      | reflexivity].
Qed.

(* ================================================================== *)
(** ** The header detector *)
(* ================================================================== *)

(** C6 (as amended): on a header mapping the header detector returns,
    without error, the cookie finding followed by the server finding,
    where the cookie finding (id [deep_insecure_cookie], severity high,
    context the raw value) is present exactly when a [set-cookie] header
    is present and its lowered value does not contain the substring
    [secure] or does not contain the substring [httponly], and the server
    finding (id [deep_server_disclosure], severity medium, context the
    value) is present exactly when a [server] header is present and not
    empty; no finding has a position field; an absent header gives no
    finding. *)
Theorem header_findings url d (Hm : header_mapping d = true) :
  analyze_headers url (VDict d) = Ok (cookie_part url d ++ server_part url d)
  /\ (forall cookie,
        In (cookie_finding url cookie) (cookie_part url d ++ server_part url d) <->
        exists c, cookie = VStr c /\ dict_get "set-cookie" d = Some cookie
                  /\ (contains "secure" (lower c) = false
                      \/ contains "httponly" (lower c) = false))
  /\ (forall server,
        In (server_finding url server) (cookie_part url d ++ server_part url d) <->
        exists s, server = VStr s /\ dict_get "server" d = Some server
                  /\ s <> EmptyString)
  /\ (forall finding,
        In finding (cookie_part url d ++ server_part url d) ->
        exists fields, finding = VDict fields /\ dict_get "position" fields = None)
  /\ (dict_get "set-cookie" d = None -> cookie_part url d = [])
  /\ (dict_get "server" d = None -> server_part url d = []).
Proof.
  split; [now apply analyze_headers_mapping|].
  assert (Hc : forall f, In f (cookie_part url d) ->
             exists c, f = cookie_finding url (VStr c)
                       /\ dict_get "set-cookie" d = Some (VStr c)
                       /\ no_secure_or_no_httponly c = true).
  { unfold cookie_part. intros f.
    destruct (dict_get "set-cookie" d) as [[| | | |c| |]|]; try (intros []).
    destruct (no_secure_or_no_httponly c) eqn:E; [|intros []].
    intros [<-|[]]. eauto. }
  assert (Hs : forall f, In f (server_part url d) ->
             exists s, f = server_finding url (VStr s)
                       /\ dict_get "server" d = Some (VStr s)
                       /\ s <> EmptyString).
  { unfold server_part. intros f.
    destruct (dict_get "server" d) as [[| | | |s| |]|]; try (intros []).
    destruct s as [|a s]; [intros []|]. simpl. intros [<-|[]].
    eexists. repeat split. discriminate. }
  split; [|split; [|split; [|split]]].
  - intros cookie. rewrite in_app_iff. split.
    + intros [Hin|Hin].
      * apply Hc in Hin. destruct Hin as (c & Hf & Hg & Hi).
        injection Hf as ->. exists c. repeat split; [assumption|].
        unfold no_secure_or_no_httponly in Hi. apply orb_prop in Hi.
        destruct Hi as [Hi|Hi]; apply negb_true_iff in Hi; auto.
      * apply Hs in Hin. destruct Hin as (s & Hf & _). discriminate.
    + intros (c & -> & Hg & Hi). left. unfold cookie_part. rewrite Hg.
      unfold no_secure_or_no_httponly.
      destruct Hi as [-> | ->]; simpl; rewrite ?orb_true_r; now left.
  - intros server. rewrite in_app_iff. split.
    + intros [Hin|Hin].
      * apply Hc in Hin. destruct Hin as (c & Hf & _). discriminate.
      * apply Hs in Hin. destruct Hin as (s & Hf & Hg & Hn).
        injection Hf as ->. eauto.
    + intros (s & -> & Hg & Hn). right. unfold server_part. rewrite Hg.
      destruct s; [contradiction | now left].
  - intros f. rewrite in_app_iff. intros [Hin|Hin].
    + apply Hc in Hin. destruct Hin as (c & -> & _). eexists. split; reflexivity.
    + apply Hs in Hin. destruct Hin as (s & -> & _). eexists. split; reflexivity.
  - unfold cookie_part. now intros ->.
  - unfold server_part. now intros ->.
Qed.

Lemma header_findings_witness :
  analyze_headers (VStr "u") (VDict plain_headers)
  = Ok [cookie_finding (VStr "u") (VStr "session=abc");
        server_finding (VStr "u") (VStr "nginx")].
Proof.
  refine (proj1 (header_findings (VStr "u") plain_headers _)). reflexivity.
Defined.

(** C6 as first stated fails on the header mapping
    [{"set-cookie": "id=insecure; note=nothttponly"}]: the value carries
    neither the [secure] nor the [httponly] attribute token, yet the
    detector emits no finding, because both words occur inside other
    words of the value. *)
Lemma lookalike_cookie_not_flagged :
  attribute_tokens lookalike_cookie = ["id=insecure"; "note=nothttponly"]
  /\ missing_a_token lookalike_cookie = true
  /\ analyze_headers (VStr "u") (VDict [("set-cookie", VStr lookalike_cookie)]) = Ok [].
Proof.
  repeat split; vm_compute; reflexivity.
Qed.

(* ================================================================== *)
(** ** Which batches are accepted *)
(* ================================================================== *)

Lemma for_each_ok_each {A S : Type} (body : S -> A -> result S) items :
  forall st st', for_each items st body = Ok st' ->
  Forall (fun x => exists s1 s2, body s1 x = Ok s2) items.
Proof.
  induction items as [|x items IH]; intros st st' H; constructor.
  - simpl in H. bind_inv H. eauto.
  - simpl in H. bind_inv H. eapply IH; eauto.
Qed.

(** The comprehension over the ids reads the id of every finding. *)
Lemma generate_recommendations_reads_ids issues recs :
  generate_recommendations issues = Ok recs ->
  Forall (fun issue => exists id, getitem issue "id" = Ok id) issues.
Proof.
  unfold generate_recommendations, issue_ids. intros H. bind_inv H.
  apply for_each_ok_each in Ha. eapply Forall_impl; [|exact Ha].
  intros issue (s1 & s2 & Hb). simpl in Hb. bind_inv Hb. eauto.
Qed.

Lemma Forall2_In_l {A B : Type} (R : A -> B -> Prop) l l' x :
  Forall2 R l l' -> In x l -> exists y, In y l' /\ R x y.
Proof.
  induction 1 as [|a b l l' Hab _ IH]; intros Hin; [destruct Hin|].
  destruct Hin as [<-|Hin].
  - exists b. split; [now left | assumption].
  - destruct (IH Hin) as (y & Hy & Hr). exists y. split; [now right | assumption].
Qed.

(** A pass-through issue of a record is among the enhanced issues. *)
Lemma passed_through_enhanced records rep record d issues issue :
  analyze_scan_results (VList records) = Ok rep ->
  In record records -> record = VDict d ->
  dict_get "issues" d = Some (VList issues) -> In issue issues ->
  In issue (enhanced_issues rep).
Proof.
  intros H Hrec -> Hget Hin.
  destruct (enhanced_issues_order_aux records rep H) as (cs & Hcs & ->).
  destruct (Forall2_In_l _ _ _ _ Hcs Hrec) as (c & Hc & Hcon).
  apply in_concat. exists (in_order c). split; [now apply in_map|].
  destruct Hcon as (d' & url & Hd & _ & Hit & _). injection Hd as <-.
  unfold dict_get_default in Hit. rewrite Hget in Hit. simpl in Hit.
  injection Hit as Hp. unfold in_order. rewrite <- Hp. apply in_app_iff. now left.
Qed.

Lemma for_each_total {A S : Type} (body : S -> A -> result S) items :
  (forall st x, In x items -> exists st', body st x = Ok st') ->
  forall st, exists st', for_each items st body = Ok st'.
Proof.
  induction items as [|x items IH]; intros Hb st; simpl; [eauto|].
  destruct (Hb st x (or_introl eq_refl)) as (st1 & ->). simpl.
  apply IH. intros st2 y Hy. apply Hb. now right.
Qed.

Lemma accepted_issue_id issue :
  accepted_issue issue = true ->
  exists id, getitem issue "id" = Ok id /\ hashable id = true.
Proof.
  unfold accepted_issue, getitem. destruct issue as [| | | | |?|d]; try discriminate.
  destruct (dict_get "id" d) as [id|]; [|discriminate].
  intros H. apply andb_prop in H. destruct H as [H _]. eauto.
Qed.

Lemma accepted_issue_severity issue :
  accepted_issue issue = true ->
  exists v, get issue "severity" (VStr "low") = Ok v /\ hashable v = true.
Proof.
  unfold accepted_issue, get, dict_get_default.
  destruct issue as [| | | | |?|d]; try discriminate.
  intros H. apply andb_prop in H. destruct H as [_ H].
  destruct (dict_get "severity" d) as [v|]; eauto.
Qed.

Lemma generate_recommendations_total issues :
  forallb accepted_issue issues = true ->
  exists recs, generate_recommendations issues = Ok recs.
Proof.
  intros Hacc. rewrite forallb_forall in Hacc.
  assert (Hids : exists ids, issue_ids issues = Ok ids).
  { unfold issue_ids. apply for_each_total. intros st issue Hin.
    destruct (accepted_issue_id _ (Hacc _ Hin)) as (id & -> & Hh). simpl.
    unfold set_add. rewrite Hh. eauto. }
  destruct Hids as (ids & Hids).
  unfold generate_recommendations. rewrite Hids. simpl. eauto.
Qed.

Lemma count_severities_total issues :
  forallb accepted_issue issues = true ->
  exists cs, count_severities issues = Ok cs.
Proof.
  intros Hacc. rewrite forallb_forall in Hacc.
  unfold count_severities. apply for_each_total.
  intros st issue Hin. unfold count_issue.
  destruct (accepted_issue_severity _ (Hacc _ Hin)) as (v & -> & Hh). simpl.
  unfold counts_has. rewrite Hh. simpl.
  destruct v; try (simpl; eauto).
  destruct (counts_get s st); eauto.
Qed.

Lemma accepted_content url text :
  forallb accepted_issue (flat_map (rule_findings url text) registry) = true.
Proof.
  apply forallb_forall. intros f Hin. apply in_flat_map in Hin.
  destruct Hin as ([[kind severity] pattern] & _ & Hin).
  simpl in Hin. apply in_map_iff in Hin. destruct Hin as (span & <- & _).
  reflexivity.
Qed.

Lemma accepted_headers url d :
  forallb accepted_issue (cookie_part url d ++ server_part url d) = true.
Proof.
  rewrite forallb_app. unfold cookie_part, server_part.
  destruct (dict_get "set-cookie" d) as [[| | | |c| |]|];
    destruct (dict_get "server" d) as [[| | | |s| |]|]; try reflexivity;
    repeat match goal with |- context [if ?b then _ else _] => destruct b end;
    reflexivity.
Qed.

(** An accepted record goes through the first loop and adds accepted
    findings only. *)
Lemma process_record_accepted record all_issues all_urls :
  accepted_record record = true ->
  exists new all_urls',
    process_record (all_issues, all_urls) record = Ok (all_issues ++ new, all_urls')
    /\ forallb accepted_issue new = true.
Proof.
  unfold accepted_record. destruct record as [| | | | |?|d]; try discriminate.
  intros H. apply andb_prop in H. destruct H as [H Hheaders].
  apply andb_prop in H. destruct H as [H Hcontent].
  apply andb_prop in H. destruct H as [Hurl Hissues].
  unfold process_record. cbn [get bind]. unfold set_add. rewrite Hurl. cbn [bind].
  assert (Hex : exists existing,
             iter (dict_get_default "issues" (VList []) d) = Ok existing
             /\ forallb accepted_issue existing = true).
  { unfold dict_get_default.
    destruct (dict_get "issues" d) as [[| | | | |l|]|]; try discriminate; simpl; eauto. }
  destruct Hex as (existing & -> & Hacc1). cbn [bind].
  rewrite !str_in_dict. cbn [bind]. unfold dict_has, getitem.
  assert (Hc : exists cs,
             forallb accepted_issue cs = true /\
             (if match dict_get "content" d with Some _ => true | None => false end
              then bind (match dict_get "content" d with
                         | Some v => Ok v | None => Raise KeyError end)
                     (fun content =>
                        bind (analyze_content (dict_get_default "url" (VStr "") d) content)
                          (fun content_issues =>
                             Ok ((all_issues ++ existing) ++ content_issues)))
              else Ok (all_issues ++ existing))
             = Ok ((all_issues ++ existing) ++ cs)).
  { destruct (dict_get "content" d) as [[| | | |text| |]|]; try discriminate.
    - exists (flat_map (rule_findings (dict_get_default "url" (VStr "") d) text) registry).
      split; [apply accepted_content|].
      cbn [bind]. now rewrite analyze_content_findings.
    - exists []. split; [reflexivity | now rewrite app_nil_r]. }
  destruct Hc as (cs & Hacc2 & ->). cbn [bind].
  assert (Hh : exists hs,
             forallb accepted_issue hs = true /\
             (if match dict_get "headers" d with Some _ => true | None => false end
              then bind (match dict_get "headers" d with
                         | Some v => Ok v | None => Raise KeyError end)
                     (fun headers =>
                        bind (analyze_headers (dict_get_default "url" (VStr "") d) headers)
                          (fun header_issues =>
                             Ok (((all_issues ++ existing) ++ cs) ++ header_issues)))
              else Ok ((all_issues ++ existing) ++ cs))
             = Ok (((all_issues ++ existing) ++ cs) ++ hs)).
  { destruct (dict_get "headers" d) as [[| | | | | |h]|]; try discriminate.
    - exists (cookie_part (dict_get_default "url" (VStr "") d) h
              ++ server_part (dict_get_default "url" (VStr "") d) h).
      split; [apply accepted_headers|].
      cbn [bind]. now rewrite analyze_headers_mapping.
    - exists []. split; [reflexivity | now rewrite app_nil_r]. }
  destruct Hh as (hs & Hacc3 & ->). cbn [bind].
  exists (existing ++ cs ++ hs). eexists. split.
  - now rewrite <- !app_assoc.
  - now rewrite !forallb_app, Hacc1, Hacc2, Hacc3.
Qed.

Lemma process_records_accepted records : forall all_issues all_urls,
  forallb accepted_record records = true ->
  forallb accepted_issue all_issues = true ->
  exists all_issues' all_urls',
    for_each records (all_issues, all_urls) process_record = Ok (all_issues', all_urls')
    /\ forallb accepted_issue all_issues' = true.
Proof.
  induction records as [|record records IH]; intros issues urls Hr Hi; cbn [for_each].
  - eauto.
  - simpl in Hr. apply andb_prop in Hr. destruct Hr as [Hrec Hrest].
    destruct (process_record_accepted record issues urls Hrec) as (new & urls1 & -> & Hn).
    cbn [bind]. apply IH; [assumption|]. now rewrite forallb_app, Hi, Hn.
Qed.

(** An accepted batch gets a report. *)
Lemma analyze_scan_results_total records :
  forallb accepted_record records = true ->
  exists rep, analyze_scan_results (VList records) = Ok rep.
Proof.
  intros Hr.
  destruct (process_records_accepted records [] [] Hr eq_refl)
    as (issues & urls & Hloop & Hacc).
  destruct (generate_recommendations_total _ Hacc) as (recs & Hrecs).
  destruct (count_severities_total _ Hacc) as (cs & Hcs).
  eexists. unfold analyze_scan_results. cbn [iter bind].
  unfold pyset in *. rewrite Hloop. cbn [bind]. rewrite Hrecs, Hcs. cbn [bind].
  rewrite (count_severities_tally _ _ Hcs), score_tally. cbn [bind]. reflexivity.
Qed.

(** C10: a batch in which some record's pre-existing issues contain an
    issue object with no id field makes the whole analysis raise, so no
    report is returned; an issue object with a (hashable) id and no
    severity field is an accepted finding, every batch of accepted
    records gets a report, and in it each finding with no severity field
    is counted as low. *)
Theorem id_mandatory_severity_optional records :
  (forall record d issues issue,
      In record records -> record = VDict d ->
      dict_get "issues" d = Some (VList issues) ->
      In issue issues -> lacks_id issue ->
      exists e, analyze_scan_results (VList records) = Raise e)
  /\ (forall fields id,
        dict_get "id" fields = Some id -> hashable id = true ->
        dict_get "severity" fields = None ->
        accepted_issue (VDict fields) = true)
  /\ (forallb accepted_record records = true ->
      exists rep,
        analyze_scan_results (VList records) = Ok rep
        /\ counts_get "low" (severity_counts rep)
           = Some (count_of "low" (enhanced_issues rep))
        /\ forall issue, In issue (enhanced_issues rep) ->
             lacks_severity issue = true -> severity_is "low" issue = true).
Proof.
  split; [|split].
  - intros record d issues issue Hrec Hd Hget Hin (fields & -> & Hnone).
    destruct (analyze_scan_results (VList records)) as [rep|e] eqn:H; [|eauto].
    exfalso.
    pose proof (passed_through_enhanced _ _ _ _ _ _ H Hrec Hd Hget Hin) as Hen.
    apply analyze_scan_results_ok in H.
    destruct H as (_ & _ & _ & _ & Hrecs & _).
    apply generate_recommendations_reads_ids in Hrecs.
    rewrite Forall_forall in Hrecs. destruct (Hrecs _ Hen) as (id & Hid).
    simpl in Hid. rewrite Hnone in Hid. discriminate.
  - intros fields id Hid Hh Hsev. simpl. now rewrite Hid, Hsev, Hh.
  - intros Hacc. destruct (analyze_scan_results_total records Hacc) as (rep & H).
    exists rep. split; [exact H|].
    pose proof (analyze_scan_results_ok _ _ H) as (_ & _ & _ & _ & _ & Hc & _).
    apply count_severities_tally in Hc. rewrite Hc. split; [reflexivity|].
    intros issue _. apply missing_reads_low.
Qed.

Lemma id_mandatory_severity_optional_witness :
  (exists e, analyze_scan_results (VList no_id) = Raise e)
  /\ (exists rep, analyze_scan_results no_severity = Ok rep
                  /\ counts_get "low" (severity_counts rep)
                     = Some (count_of "low" (enhanced_issues rep))).
Proof.
  split.
  - refine (proj1 (id_mandatory_severity_optional no_id) _ _ _ _ _ eq_refl _ _ _).
    + now left.
    + reflexivity.
    + now left.
    + eexists. split; reflexivity.
  - destruct (proj2 (proj2 (id_mandatory_severity_optional
               [VDict [("url", VStr "a"); ("issues", VList [VDict [("id", VStr "x")]])]]))
               eq_refl) as (rep & H & Hlow & _).
    exists rep. split; assumption.
Defined.

(* ================================================================== *)
(** ** The matcher finds the matches of a pattern *)
(* ================================================================== *)

Lemma char_before_app u : forall prev v,
  char_before prev (u ++ v) = char_before (char_before prev u) v.
Proof.
  induction u as [|c u IH]; intros prev v; simpl; [reflexivity | apply IH].
Qed.

Section MatcherFacts.
Context {A : Type}.
Implicit Types k : @cont A.

Lemma star_sound cs s : forall prev pos k a,
  star cs prev s pos k = Some a ->
  exists u rest,
    s = u ++ rest
    /\ Forall (fun c => cs_ok cs c = true) u
    /\ k (char_before prev u) rest (pos + List.length u)%nat = Some a.
Proof.
  induction s as [|c s IH]; intros prev pos k a H; simpl in H.
  - exists [], []. rewrite Nat.add_0_r. repeat split; [constructor | exact H].
  - destruct (cs_ok cs c) eqn:Hc.
    + destruct (star cs (Some c) s (S pos) k) as [a'|] eqn:Hs.
      * injection H as ->. apply IH in Hs.
        destruct Hs as (u & rest & -> & Hu & Hk).
        exists (c :: u), rest. simpl.
        rewrite Nat.add_succ_r. repeat split; [now constructor | exact Hk].
      * exists [], (c :: s). rewrite Nat.add_0_r.
        repeat split; [constructor | exact H].
    + exists [], (c :: s). rewrite Nat.add_0_r.
      repeat split; [constructor | exact H].
Qed.

Lemma star_complete cs u : forall prev rest pos k a,
  Forall (fun c => cs_ok cs c = true) u ->
  k (char_before prev u) rest (pos + List.length u)%nat = Some a ->
  exists a', star cs prev (u ++ rest) pos k = Some a'.
Proof.
  induction u as [|c u IH]; intros prev rest pos k a Hu Hk.
  - simpl in *. rewrite Nat.add_0_r in Hk.
    destruct rest as [|c rest]; simpl; [eauto|].
    destruct (cs_ok cs c); [|eauto].
    destruct (star cs (Some c) rest (S pos) k); eauto.
  - inversion Hu as [|? ? Hc Hu']; subst. simpl. rewrite Hc.
    simpl in Hk. rewrite Nat.add_succ_r in Hk.
    destruct (IH (Some c) rest (S pos) k a Hu' Hk) as (a' & ->). eauto.
Qed.
End MatcherFacts.

(** Soundness: a successful run read a match of the pattern and then
    the continuation succeeded. *)
Lemma run_sound r : forall (A : Type) prev s pos (k : @cont A) a,
  run r prev s pos k = Some a ->
  exists u rest,
    s = u ++ rest
    /\ Matches r prev u rest
    /\ k (char_before prev u) rest (pos + List.length u)%nat = Some a.
Proof.
  induction r as [|cs|cs|cs|cs| |r1 IH1 r2 IH2|r1 IH1 r2 IH2];
    intros A prev s pos k a H; simpl in H.
  - exists [], s. rewrite Nat.add_0_r. repeat split; [constructor | exact H].
  - destruct s as [|c s]; [discriminate|].
    destruct (cs_ok cs c) eqn:Hc; [|discriminate].
    exists [c], s. simpl. rewrite Nat.add_1_r.
    repeat split; [now constructor | exact H].
  - apply star_sound in H. destruct H as (u & rest & -> & Hu & Hk).
    exists u, rest. repeat split; [now constructor | exact Hk].
  - destruct s as [|c s]; [discriminate|].
    destruct (cs_ok cs c) eqn:Hc; [|discriminate].
    apply star_sound in H. destruct H as (u & rest & -> & Hu & Hk).
    exists (c :: u), rest. simpl. rewrite Nat.add_succ_r.
    repeat split; [constructor; now constructor | exact Hk].
  - destruct s as [|c s].
    + exists [], []. rewrite Nat.add_0_r. repeat split; [constructor | exact H].
    + destruct (cs_ok cs c) eqn:Hc.
      * destruct (k (Some c) s (S pos)) as [a'|] eqn:Hk.
        -- injection H as ->. exists [c], s. simpl. rewrite Nat.add_1_r.
           repeat split; [now constructor | exact Hk].
        -- exists [], (c :: s). rewrite Nat.add_0_r.
           repeat split; [constructor | exact H].
      * exists [], (c :: s). rewrite Nat.add_0_r.
        repeat split; [constructor | exact H].
  - destruct (at_boundary prev s) eqn:Hb; [|discriminate].
    exists [], s. rewrite Nat.add_0_r. repeat split; [now constructor | exact H].
  - apply IH1 in H. destruct H as (u & rest1 & -> & H1 & H).
    apply IH2 in H. destruct H as (v & rest & -> & H2 & H).
    exists (u ++ v), rest. rewrite char_before_app, length_app, Nat.add_assoc, app_assoc.
    repeat split; [now constructor | exact H].
  - destruct (run r1 prev s pos k) as [a'|] eqn:H1.
    + injection H as ->. apply IH1 in H1.
      destruct H1 as (u & rest & -> & Hm & Hk).
      exists u, rest. repeat split; [now apply MAltL | exact Hk].
    + apply IH2 in H. destruct H as (u & rest & -> & Hm & Hk).
      exists u, rest. repeat split; [now apply MAltR | exact Hk].
Qed.

(** Completeness: when the pattern has a match after which the
    continuation succeeds, the run succeeds. *)
Lemma run_complete r prev u rest :
  Matches r prev u rest ->
  forall (A : Type) pos (k : @cont A) a,
    k (char_before prev u) rest (pos + List.length u)%nat = Some a ->
    exists a', run r prev (u ++ rest) pos k = Some a'.
Proof.
  induction 1 as [prev rest|cs c prev rest Hc|cs u prev rest Hu|cs c u prev rest Hu
                  |cs prev rest|cs c prev rest Hc|prev rest Hb
                  |r1 r2 u v prev rest H1 IH1 H2 IH2
                  |r1 r2 u prev rest H1 IH1|r1 r2 u prev rest H2 IH2];
    intros A pos k a Hk; simpl.
  - simpl in Hk. rewrite Nat.add_0_r in Hk. eauto.
  - rewrite Hc. simpl in Hk. rewrite Nat.add_1_r in Hk. eauto.
  - eapply star_complete; eauto.
  - inversion Hu as [|? ? Hc Hu']; subst. rewrite Hc.
    simpl in Hk. rewrite Nat.add_succ_r in Hk.
    eapply star_complete; eauto.
  - simpl in Hk. rewrite Nat.add_0_r in Hk.
    destruct rest as [|c rest]; [eauto|].
    destruct (cs_ok cs c); [|eauto].
    destruct (k (Some c) rest (S pos)); eauto.
  - rewrite Hc. simpl in Hk. rewrite Nat.add_1_r in Hk. rewrite Hk. eauto.
  - rewrite Hb. simpl in Hk. rewrite Nat.add_0_r in Hk. eauto.
  - rewrite <- app_assoc.
    rewrite char_before_app, length_app, Nat.add_assoc in Hk.
    destruct (IH2 A (pos + List.length u)%nat k a Hk) as (a2 & Ha2).
    eapply IH1. exact Ha2.
  - destruct (IH1 A pos k a Hk) as (a' & ->). eauto.
  - destruct (run r1 prev (u ++ rest) pos k); [eauto|].
    eapply IH2; eauto.
Qed.

Lemma match_at_sound r prev s pos must_advance e :
  match_at r prev s pos must_advance = Some e ->
  exists u rest,
    s = u ++ rest /\ Matches r prev u rest /\ e = (pos + List.length u)%nat
    /\ (must_advance = true -> u <> []).
Proof.
  unfold match_at. intros H. apply run_sound in H.
  destruct H as (u & rest & -> & Hm & Hk).
  exists u, rest. split; [reflexivity|]. split; [exact Hm|].
  destruct must_advance; simpl in Hk.
  - destruct (Nat.eqb (pos + List.length u) pos) eqn:E; [discriminate|].
    injection Hk as <-. split; [reflexivity|].
    intros _ ->. simpl in E. rewrite Nat.add_0_r, Nat.eqb_refl in E. discriminate.
  - injection Hk as <-. split; [reflexivity | discriminate].
Qed.

Lemma match_at_complete r prev u rest pos must_advance :
  Matches r prev u rest ->
  (must_advance = true -> u <> []) ->
  exists e, match_at r prev (u ++ rest) pos must_advance = Some e.
Proof.
  intros Hm Hne. unfold match_at.
  eapply run_complete with (a := (pos + List.length u)%nat); [exact Hm|].
  destruct must_advance; simpl; [|reflexivity].
  destruct (Nat.eqb (pos + List.length u) pos) eqn:E; [|reflexivity].
  apply Nat.eqb_eq in E. destruct u; [now destruct Hne | simpl in E; lia].
Qed.

Lemma never_empty_matches r prev u rest :
  Matches r prev u rest -> never_empty r = true -> u <> [].
Proof.
  induction 1; simpl; intros Hn; try discriminate.
  - apply orb_prop in Hn. destruct Hn as [Hn|Hn].
    + specialize (IHMatches1 Hn). destruct u; [contradiction | discriminate].
    + specialize (IHMatches2 Hn). destruct u; [assumption | discriminate].
  - apply andb_prop in Hn. tauto.
  - apply andb_prop in Hn. tauto.
Qed.

(* ================================================================== *)
(** ** The scanner finds all the matches, leftmost first *)
(* ================================================================== *)

Lemma chained_weaken lo lo' l : (lo' <= lo)%nat -> chained lo l -> chained lo' l.
Proof.
  destruct l as [|[s e] l]; simpl; [tauto|]. intros Hle (H1 & H2 & H3).
  repeat split; [lia | assumption | assumption].
Qed.

(** The scanner step by step. *)
Lemma scan_nil r prev pos resume :
  scan r prev [] pos resume
  = if Nat.ltb pos resume then []
    else match match_at r prev [] pos false with
         | None => []
         | Some e =>
             if Nat.eqb e pos then
               match match_at r prev [] pos true with
               | Some e' => [(pos, e); (pos, e')]
               | None => [(pos, e)]
               end
             else [(pos, e)]
         end.
Proof. reflexivity. Qed.

Lemma scan_cons r prev c s pos resume :
  scan r prev (c :: s) pos resume
  = if Nat.ltb pos resume then scan r (Some c) s (S pos) resume
    else match match_at r prev (c :: s) pos false with
         | None => scan r (Some c) s (S pos) resume
         | Some e =>
             if Nat.eqb e pos then
               match match_at r prev (c :: s) pos true with
               | Some e' => (pos, e) :: (pos, e') :: scan r (Some c) s (S pos) e'
               | None => (pos, e) :: scan r (Some c) s (S pos) resume
               end
             else (pos, e) :: scan r (Some c) s (S pos) e
         end.
Proof. reflexivity. Qed.

(** The spans come in scanning order and do not overlap. *)
Lemma scan_chained r s : forall prev pos resume,
  chained (Nat.max pos resume) (scan r prev s pos resume).
Proof.
  induction s as [|c s IH]; intros prev pos resume.
  - rewrite scan_nil. destruct (Nat.ltb pos resume) eqn:Hlt; [exact I|].
    apply Nat.ltb_ge in Hlt. rewrite Nat.max_l by assumption.
    destruct (match_at r prev [] pos false) as [e|] eqn:H1; [|exact I].
    destruct (Nat.eqb e pos) eqn:E.
    + apply Nat.eqb_eq in E; subst e.
      destruct (match_at r prev [] pos true) as [e'|] eqn:H2; simpl.
      * apply match_at_sound in H2. destruct H2 as (u & rest & _ & _ & -> & _).
        repeat split; lia.
      * repeat split; lia.
    + apply match_at_sound in H1. destruct H1 as (u & rest & _ & _ & -> & _).
      simpl. repeat split; lia.
  - rewrite scan_cons. destruct (Nat.ltb pos resume) eqn:Hlt.
    + apply Nat.ltb_lt in Hlt.
      replace (Nat.max pos resume) with (Nat.max (S pos) resume) by lia. apply IH.
    + apply Nat.ltb_ge in Hlt. rewrite Nat.max_l by assumption.
      destruct (match_at r prev (c :: s) pos false) as [e|] eqn:H1.
      * destruct (Nat.eqb e pos) eqn:E.
        -- apply Nat.eqb_eq in E; subst e.
           destruct (match_at r prev (c :: s) pos true) as [e'|] eqn:H2; simpl.
           ++ apply match_at_sound in H2.
              destruct H2 as (u & rest & _ & _ & -> & Hne).
              specialize (Hne eq_refl).
              assert (0 < List.length u)%nat by (destruct u; [contradiction | simpl; lia]).
              repeat split; try lia.
              eapply chained_weaken; [|apply IH]. lia.
           ++ repeat split; try lia.
              eapply chained_weaken; [|apply IH]. lia.
        -- apply Nat.eqb_neq in E. apply match_at_sound in H1.
           destruct H1 as (u & rest & _ & _ & -> & _). simpl.
           repeat split; try lia.
           eapply chained_weaken; [|apply IH]. lia.
      * eapply chained_weaken; [|apply IH]. lia.
Qed.

(** A span found in the rest of the text is a span of the text. *)
Lemma span_later r prev c s pos st en :
  (exists a u rest,
      s = a ++ u ++ rest /\ st = (S pos + List.length a)%nat
      /\ en = (st + List.length u)%nat /\ Matches r (char_before (Some c) a) u rest) ->
  exists a u rest,
    c :: s = a ++ u ++ rest /\ st = (pos + List.length a)%nat
    /\ en = (st + List.length u)%nat /\ Matches r (char_before prev a) u rest.
Proof.
  intros (a & u & rest & -> & -> & -> & Hm).
  exists (c :: a), u, rest. simpl. repeat split; [lia | exact Hm].
Qed.

(** A match at the current offset is a span of the text. *)
Lemma span_here r prev s pos must_advance e :
  match_at r prev s pos must_advance = Some e ->
  exists a u rest,
    s = a ++ u ++ rest /\ pos = (pos + List.length a)%nat
    /\ e = (pos + List.length u)%nat /\ Matches r (char_before prev a) u rest.
Proof.
  intros H. apply match_at_sound in H. destruct H as (u & rest & -> & Hm & -> & _).
  exists [], u, rest. simpl. repeat split; [lia | exact Hm].
Qed.

(** Every span of the scanner is a match of the pattern. *)
Lemma scan_sound r s : forall prev pos resume st en,
  In (st, en) (scan r prev s pos resume) ->
  exists a u rest,
    s = a ++ u ++ rest /\ st = (pos + List.length a)%nat
    /\ en = (st + List.length u)%nat /\ Matches r (char_before prev a) u rest.
Proof.
  induction s as [|c s IH]; intros prev pos resume st en Hin.
  - rewrite scan_nil in Hin.
    destruct (Nat.ltb pos resume); [destruct Hin|].
    destruct (match_at r prev [] pos false) as [e|] eqn:H1; [|destruct Hin].
    destruct (Nat.eqb e pos);
      [destruct (match_at r prev [] pos true) as [e'|] eqn:H2|]; simpl in Hin.
    + destruct Hin as [Hin|[Hin|[]]]; injection Hin as <- <-;
        [eapply span_here; eauto | eapply span_here; eauto].
    + destruct Hin as [Hin|[]]; injection Hin as <- <-. eapply span_here; eauto.
    + destruct Hin as [Hin|[]]; injection Hin as <- <-. eapply span_here; eauto.
  - rewrite scan_cons in Hin.
    destruct (Nat.ltb pos resume); [apply span_later; eapply IH; eauto|].
    destruct (match_at r prev (c :: s) pos false) as [e|] eqn:H1;
      [|apply span_later; eapply IH; eauto].
    destruct (Nat.eqb e pos);
      [destruct (match_at r prev (c :: s) pos true) as [e'|] eqn:H2|]; simpl in Hin.
    + destruct Hin as [Hin|[Hin|Hin]];
        [injection Hin as <- <-; eapply span_here; eauto
        |injection Hin as <- <-; eapply span_here; eauto
        |apply span_later; eapply IH; eauto].
    + destruct Hin as [Hin|Hin];
        [injection Hin as <- <-; eapply span_here; eauto
        |apply span_later; eapply IH; eauto].
    + destruct Hin as [Hin|Hin];
        [injection Hin as <- <-; eapply span_here; eauto
        |apply span_later; eapply IH; eauto].
Qed.

(** No match is missed: the start of every non-empty match of the
    pattern at or after [resume] lies inside a span of the scanner. *)
Lemma scan_complete r s : forall prev pos resume a u rest,
  s = a ++ u ++ rest -> u <> [] ->
  Matches r (char_before prev a) u rest ->
  (resume <= pos + List.length a)%nat ->
  exists st en,
    In (st, en) (scan r prev s pos resume)
    /\ (st <= pos + List.length a < en)%nat.
Proof.
  induction s as [|c s IH]; intros prev pos resume a u rest Hs Hne Hm Hres.
  - destruct a; [|discriminate]. destruct u; [contradiction | discriminate].
  - rewrite scan_cons.
    assert (Hlater : forall resume' l,
               a <> [] -> (resume' <= pos + List.length a)%nat ->
               exists st en,
                 In (st, en) (l ++ scan r (Some c) s (S pos) resume')
                 /\ (st <= pos + List.length a < en)%nat).
    { intros resume' l Ha Hr. destruct a as [|c' a]; [contradiction|].
      simpl in Hs. injection Hs as <- Hs. simpl in Hm, Hr.
      destruct (IH (Some c) (S pos) resume' a u rest Hs Hne Hm) as (st & en & Hin & Hb);
        [lia|].
      exists st, en. split; [apply in_app_iff; now right | simpl; lia]. }
    assert (Hhere : forall must_advance,
               a = [] -> exists e, match_at r prev (c :: s) pos must_advance = Some e).
    { intros b ->. simpl in Hs, Hm. rewrite Hs.
      apply match_at_complete; [exact Hm | intros _; exact Hne]. }
    destruct (Nat.ltb pos resume) eqn:Hlt.
    { apply Nat.ltb_lt in Hlt. apply (Hlater resume []); [|exact Hres].
      intros ->. simpl in Hres. lia. }
    destruct (match_at r prev (c :: s) pos false) as [e|] eqn:H1.
    2:{ apply (Hlater resume []); [|exact Hres].
        intros Ha. destruct (Hhere false Ha) as (e & He). congruence. }
    destruct (Nat.eqb e pos) eqn:E.
    + apply Nat.eqb_eq in E. subst e.
      destruct (match_at r prev (c :: s) pos true) as [e'|] eqn:H2.
      * destruct (Nat.ltb (pos + List.length a) e') eqn:Hcov.
        -- apply Nat.ltb_lt in Hcov. exists pos, e'.
           split; [right; now left | lia].
        -- apply Nat.ltb_ge in Hcov.
           apply match_at_sound in H2. destruct H2 as (u' & rest' & _ & _ & He' & Hne').
           specialize (Hne' eq_refl).
           assert (0 < List.length u')%nat by (destruct u'; [contradiction | simpl; lia]).
           apply (Hlater e' [(pos, pos); (pos, e')]); [|exact Hcov].
           intros ->. simpl in Hcov. lia.
      * apply (Hlater resume [(pos, pos)]); [|exact Hres].
        intros Ha. destruct (Hhere true Ha) as (e & He). congruence.
    + apply Nat.eqb_neq in E.
      destruct (Nat.ltb (pos + List.length a) e) eqn:Hcov.
      * apply Nat.ltb_lt in Hcov. exists pos, e. split; [now left | lia].
      * apply Nat.ltb_ge in Hcov.
        apply (Hlater e [(pos, e)]); [|exact Hcov].
        intros ->. simpl in Hcov.
        apply match_at_sound in H1. destruct H1 as (u' & rest' & _ & _ & He' & _). lia.
Qed.

(* ================================================================== *)
(** ** Spans of a text *)
(* ================================================================== *)

Lemma firstn_length_app {A : Type} (a x : list A) : firstn (List.length a) (a ++ x) = a.
Proof. induction a as [|c a IH]; simpl; [now destruct x | now rewrite IH]. Qed.

Lemma skipn_length_app {A : Type} (a x : list A) : skipn (List.length a) (a ++ x) = x.
Proof. induction a as [|c a IH]; simpl; [reflexivity | exact IH]. Qed.

(** A decomposition of the text gives a span, and a span gives a
    decomposition. *)
Lemma matches_span_split r a u rest :
  Matches r (char_before None a) u rest ->
  matches_span r (a ++ u ++ rest) (List.length a) (List.length a + List.length u).
Proof.
  intros Hm. unfold matches_span. rewrite !length_app. split; [lia|].
  rewrite firstn_length_app, skipn_length_app.
  replace (List.length a + List.length u - List.length a)%nat with (List.length u) by lia.
  rewrite firstn_length_app.
  rewrite app_assoc, <- length_app, skipn_length_app. exact Hm.
Qed.

Lemma matches_span_parts r t i j :
  matches_span r t i j ->
  exists a u rest,
    t = a ++ u ++ rest /\ List.length a = i /\ List.length u = (j - i)%nat
    /\ Matches r (char_before None a) u rest.
Proof.
  intros ((Hij & Hj) & Hm).
  exists (firstn i t), (firstn (j - i) (skipn i t)), (skipn j t).
  split; [|split; [|split; [|exact Hm]]].
  - replace (skipn j t) with (skipn (j - i) (skipn i t)).
    + now rewrite !firstn_skipn.
    + rewrite skipn_skipn. f_equal. lia.
  - rewrite length_firstn. lia.
  - rewrite length_firstn, length_skipn. lia.
Qed.

Lemma spans_sound r text s e :
  In (s, e) (spans r text) -> matches_span r (list_ascii_of_string text) s e.
Proof.
  unfold spans. intros Hin. apply scan_sound in Hin.
  destruct Hin as (a & u & rest & -> & -> & -> & Hm). simpl.
  now apply matches_span_split.
Qed.

Lemma spans_complete r text i j :
  matches_span r (list_ascii_of_string text) i j -> (i < j)%nat ->
  exists s e, In (s, e) (spans r text) /\ (s <= i < e)%nat.
Proof.
  intros Hm Hij. apply matches_span_parts in Hm.
  destruct Hm as (a & u & rest & Ht & Ha & Hu & Hm).
  destruct (scan_complete r _ None 0 0 a u rest Ht) as (s & e & Hin & Hb);
    try assumption; [|lia|].
  - intros ->. simpl in Hu. lia.
  - exists s, e. split; [exact Hin | simpl in Hb; lia].
Qed.

Lemma spans_chained r text : chained 0 (spans r text).
Proof. unfold spans. apply (scan_chained r _ None 0 0). Qed.

Lemma matches_span_nonempty r t i j :
  never_empty r = true -> matches_span r t i j -> (i < j)%nat.
Proof.
  intros Hn Hm. pose proof Hm as ((Hij & Hj) & _).
  apply matches_span_parts in Hm.
  destruct Hm as (a & u & rest & _ & _ & Hu & Hm).
  apply never_empty_matches in Hm; [|exact Hn].
  destruct u; [contradiction | simpl in Hu; lia].
Qed.

(* ================================================================== *)
(** ** Matching ignores case *)
(* ================================================================== *)

Lemma lower_char_idem c : lower_char (lower_char c) = lower_char c.
Proof. destruct c as [[] [] [] [] [] [] [] []]; reflexivity. Qed.

Lemma isspace_lower c : isspace (lower_char c) = isspace c.
Proof. destruct c as [[] [] [] [] [] [] [] []]; reflexivity. Qed.

Lemma is_word_lower c : is_word (lower_char c) = is_word c.
Proof. destruct c as [[] [] [] [] [] [] [] []]; reflexivity. Qed.

Lemma newline_lower c : Ascii.eqb (lower_char c) newline = Ascii.eqb c newline.
Proof. destruct c as [[] [] [] [] [] [] [] []]; reflexivity. Qed.

Lemma cs_ok_lower cs c : cs_ok cs (lower_char c) = cs_ok cs c.
Proof.
  destruct cs as [x|x|l| | |]; simpl; unfold same_letter;
    rewrite ?lower_char_idem; try reflexivity.
  - now rewrite newline_lower.
  - apply isspace_lower.
  - apply is_word_lower.
Qed.

Lemma at_boundary_lower prev s :
  at_boundary (option_map lower_char prev) (map lower_char s) = at_boundary prev s.
Proof.
  unfold at_boundary, word_before, word_after.
  destruct prev, s; simpl; rewrite ?is_word_lower; reflexivity.
Qed.

Section CaseBlind.
Context {A : Type}.

Lemma star_lower cs s : forall prev pos (k k' : @cont A),
  agree k k' ->
  star cs (option_map lower_char prev) (map lower_char s) pos k'
  = star cs prev s pos k.
Proof.
  induction s as [|c s IH]; intros prev pos k k' Hk; simpl.
  - apply (Hk prev []).
  - rewrite cs_ok_lower.
    pose proof (IH (Some c) (S pos) k k' Hk) as H1. cbn [option_map] in H1.
    pose proof (Hk prev (c :: s) pos) as H2. cbn [map] in H2.
    now rewrite H1, H2.
Qed.
End CaseBlind.

Lemma run_lower r : forall (A : Type) prev s pos (k k' : @cont A),
  agree k k' ->
  run r (option_map lower_char prev) (map lower_char s) pos k' = run r prev s pos k.
Proof.
  induction r as [|cs|cs|cs|cs| |r1 IH1 r2 IH2|r1 IH1 r2 IH2];
    intros A prev s pos k k' Hk; simpl.
  - apply (Hk prev s).
  - destruct s as [|c s]; simpl; [reflexivity|].
    rewrite cs_ok_lower.
    pose proof (Hk (Some c) s (S pos)) as H. cbn [option_map] in H. now rewrite H.
  - now apply star_lower.
  - destruct s as [|c s]; simpl; [reflexivity|].
    rewrite cs_ok_lower.
    pose proof (star_lower cs s (Some c) (S pos) k k' Hk) as H.
    cbn [option_map] in H. now rewrite H.
  - destruct s as [|c s]; simpl; [apply (Hk prev [])|].
    rewrite cs_ok_lower.
    pose proof (Hk (Some c) s (S pos)) as H1. cbn [option_map] in H1.
    pose proof (Hk prev (c :: s) pos) as H2. cbn [map] in H2.
    now rewrite H1, H2.
  - rewrite at_boundary_lower. now rewrite (Hk prev s).
  - apply IH1. intros p s' n. now apply IH2.
  - rewrite (IH1 A prev s pos k k' Hk). now rewrite (IH2 A prev s pos k k' Hk).
Qed.

Lemma match_at_lower r prev s pos must_advance :
  match_at r (option_map lower_char prev) (map lower_char s) pos must_advance
  = match_at r prev s pos must_advance.
Proof. unfold match_at. apply run_lower. intros p s' n. reflexivity. Qed.

Lemma scan_lower r s : forall prev pos resume,
  scan r (option_map lower_char prev) (map lower_char s) pos resume
  = scan r prev s pos resume.
Proof.
  induction s as [|c s IH]; intros prev pos resume.
  - change (map lower_char []) with (@nil ascii). rewrite !scan_nil.
    pose proof (match_at_lower r prev [] pos) as H. simpl map in H.
    now rewrite !H.
  - change (map lower_char (c :: s)) with (lower_char c :: map lower_char s).
    rewrite !scan_cons.
    pose proof (match_at_lower r prev (c :: s) pos) as H. simpl map in H.
    rewrite !H.
    pose proof (IH (Some c)) as IH'. cbn [option_map] in IH'.
    rewrite ?IH'.
    destruct (Nat.ltb pos resume); [reflexivity|].
    destruct (match_at r prev (c :: s) pos false) as [e|]; [|reflexivity].
    destruct (Nat.eqb e pos); [destruct (match_at r prev (c :: s) pos true)|];
      now rewrite ?IH'.
Qed.

Lemma list_of_lower text :
  list_ascii_of_string (lower text) = map lower_char (list_ascii_of_string text).
Proof. induction text as [|c text IH]; simpl; [reflexivity | now rewrite IH]. Qed.

Lemma spans_lower r text : spans r (lower text) = spans r text.
Proof. unfold spans. rewrite list_of_lower. apply (scan_lower r _ None). Qed.

(** Two texts that differ in letter case only have the same spans. *)
Lemma spans_case_blind r text text' :
  lower text' = lower text -> spans r text' = spans r text.
Proof. intros H. now rewrite <- (spans_lower r text'), H, spans_lower. Qed.

(* ================================================================== *)
(** ** Trimming *)
(* ================================================================== *)

Lemma lstrip_spec s :
  exists l, s = (l ++ lstrip s)%string /\ all_space l = true
            /\ forall c rest, lstrip s = String c rest -> isspace c = false.
Proof.
  induction s as [|c s (l & Hs & Hl & Hc)]; simpl.
  - exists EmptyString. repeat split. discriminate.
  - destruct (isspace c) eqn:E.
    + exists (String c l). simpl. rewrite Hl, E.
      split; [now rewrite <- Hs|]. split; [reflexivity | exact Hc].
    + exists EmptyString. repeat split. intros c' rest H. now injection H as <- _.
Qed.

Lemma append_one_inv init c c' :
  String c EmptyString = (init ++ String c' EmptyString)%string ->
  init = EmptyString /\ c = c'.
Proof.
  destruct init as [|a init]; simpl; intros H.
  - injection H as ->. auto.
  - injection H as _ H. destruct init; discriminate.
Qed.

Lemma rstrip_spec s :
  exists r, s = (rstrip s ++ r)%string /\ all_space r = true
            /\ forall init c, rstrip s = (init ++ String c EmptyString)%string ->
                              isspace c = false.
Proof.
  induction s as [|c s (r & Hs & Hr & Hc)]; simpl.
  - exists EmptyString. repeat split. intros [|a init] c H; discriminate.
  - destruct (rstrip s) as [|a t] eqn:Et.
    + simpl in Hs. destruct (isspace c) eqn:E.
      * exists (String c r). simpl. rewrite E, Hr.
        split; [now rewrite <- Hs|]. split; [reflexivity|].
        intros [|a init] c' H; discriminate.
      * exists r. simpl.
        split; [now rewrite <- Hs|]. split; [exact Hr|].
        intros init c' H. apply append_one_inv in H. destruct H as [_ <-]. exact E.
    + exists r. simpl. simpl in Hs.
      split; [now rewrite <- Hs|]. split; [exact Hr|].
      intros [|b init] c' H; simpl in H.
      * injection H as _ H. discriminate.
      * injection H as _ H. eapply Hc. exact H.
Qed.

(** [strip] removes the whitespace at both ends and nothing else. *)
Lemma strip_trimmed s : trimmed s (strip s).
Proof.
  unfold trimmed, strip.
  destruct (lstrip_spec s) as (l & Hs & Hl & Hfirst).
  destruct (rstrip_spec (lstrip s)) as (r & Hm & Hr & Hlast).
  split; [|split].
  - exists l, r. rewrite <- Hm. auto.
  - intros c rest H. rewrite H in Hm. simpl in Hm. eapply Hfirst. exact Hm.
  - exact Hlast.
Qed.

(* ================================================================== *)
(** ** The content detector *)
(* ================================================================== *)

Lemma registry_never_empty kind severity pattern :
  In (kind, severity, pattern) registry -> never_empty pattern = true.
Proof.
  intros Hin. simpl in Hin.
  repeat (destruct Hin as [Hin|Hin]; [injection Hin as <- <- <-; reflexivity|]).
  destruct Hin.
Qed.

Lemma flat_map_nil {A B : Type} (f : A -> list B) l :
  (forall x, In x l -> f x = []) -> flat_map f l = [].
Proof.
  induction l as [|x l IH]; simpl; intros H; [reflexivity|].
  rewrite (H x) by (now left). apply IH. intros y Hy. apply H. now right.
Qed.

(** C5: on every url and text the content detector returns, for each
    rule of the registry in turn and each span of the rule in match
    order, one finding with id [deep_<kind>], the rule's severity, the
    trimmed window of 30 characters around the span as context and the
    start offset as position.  The spans of a rule do not overlap, each
    is a non-empty match of the rule's pattern, no match is left out (the
    start of every match lies inside a span), and texts that differ in
    letter case only have the same spans.  The empty text and a text
    that no rule matches give no finding. *)
Theorem content_findings url text :
  analyze_content url (VStr text) = Ok (flat_map (rule_findings url text) registry)
  /\ (forall finding,
        In finding (flat_map (rule_findings url text) registry) <->
        exists kind severity pattern s e,
          In (kind, severity, pattern) registry
          /\ In (s, e) (spans pattern text)
          /\ finding = content_finding kind severity url text (s, e))
  /\ (forall kind severity s e,
        exists fields,
          content_finding kind severity url text (s, e) = VDict fields
          /\ dict_get "id" fields = Some (VStr ("deep_" ++ kind))
          /\ dict_get "severity" fields = Some (VStr severity)
          /\ dict_get "context" fields = Some (VStr (strip (window text s e)))
          /\ trimmed (window text s e) (strip (window text s e))
          /\ dict_get "position" fields = Some (VInt (Z.of_nat s)))
  /\ (forall kind severity pattern,
        In (kind, severity, pattern) registry ->
        chained 0 (spans pattern text)
        /\ (forall s e, In (s, e) (spans pattern text) ->
              (s < e)%nat /\ matches_span pattern (list_ascii_of_string text) s e)
        /\ (forall i j, matches_span pattern (list_ascii_of_string text) i j ->
              exists s e, In (s, e) (spans pattern text) /\ (s <= i < e)%nat)
        /\ (forall text', lower text' = lower text ->
              spans pattern text' = spans pattern text))
  /\ analyze_content url (VStr EmptyString) = Ok []
  /\ ((forall kind severity pattern i j,
          In (kind, severity, pattern) registry ->
          ~ matches_span pattern (list_ascii_of_string text) i j) ->
      analyze_content url (VStr text) = Ok []).
Proof.
  split; [apply analyze_content_findings|].
  split; [|split; [|split; [|split]]].
  - intros f. rewrite in_flat_map. split.
    + intros ([[kind severity] pattern] & Hin & Hf). simpl in Hf.
      apply in_map_iff in Hf. destruct Hf as ([s e] & <- & Hse).
      exists kind, severity, pattern, s, e. auto.
    + intros (kind & severity & pattern & s & e & Hin & Hse & ->).
      exists (kind, severity, pattern). split; [exact Hin|].
      simpl. apply in_map_iff. exists (s, e). auto.
  - intros kind severity s e. eexists. split; [reflexivity|].
    repeat split; try reflexivity; apply strip_trimmed.
  - intros kind severity pattern Hin.
    pose proof (registry_never_empty _ _ _ Hin) as Hne.
    split; [apply spans_chained|]. split; [|split].
    + intros s e Hse. apply spans_sound in Hse. split; [|exact Hse].
      eapply matches_span_nonempty; eauto.
    + intros i j Hm. apply (spans_complete pattern text i j); [exact Hm|].
      eapply matches_span_nonempty; eauto.
    + intros text'. apply spans_case_blind.
  - apply analyze_content_findings.
  - intros Hnone. rewrite analyze_content_findings. f_equal.
    apply flat_map_nil. intros [[kind severity] pattern] Hin. simpl.
    destruct (spans pattern text) as [|[s e] l] eqn:E; [reflexivity|].
    exfalso. apply (Hnone kind severity pattern s e Hin).
    apply spans_sound. rewrite E. now left.
Qed.

(* ================================================================== *)
(** ** The scenarios of the specification *)
(* ================================================================== *)

Example scenario_sql_injection :
  analyze_content (VStr "u") (VStr "SELECT * FROM users WHERE id=1")
  = Ok [content_finding "sql_injection" "critical" (VStr "u")
          "SELECT * FROM users WHERE id=1" (0, 25)%nat].
Proof. vm_compute. reflexivity. Qed.

Example scenario_xss :
  analyze_content (VStr "u") (VStr "<script>alert(1)</script>")
  = Ok [content_finding "xss_vulnerability" "high" (VStr "u")
          "<script>alert(1)</script>" (0, 8)%nat].
Proof. vm_compute. reflexivity. Qed.

(** Every match of a rule is reported, whatever its letter case. *)
Example scenario_all_matches :
  spans sensitive_data "my PassWord and api-key apikey api_key api__key pwd"
  = [(3, 11); (16, 23); (24, 30); (31, 38); (48, 51)]%nat.
Proof. vm_compute. reflexivity. Qed.

Example scenario_context_window :
  analyze_content VNone
    (VStr "0123456789012345678901234567890123456789   pwd   0123456789012345678901234567890123456789")
  = Ok [VDict [("id", VStr "deep_sensitive_data");
               ("severity", VStr "high");
               ("details", VStr "Potential sensitive data detected");
               ("context", VStr "345678901234567890123456789   pwd   012345678901234567890123456");
               ("url", VNone);
               ("position", VInt 43)]].
Proof. vm_compute. reflexivity. Qed.

Example scenario_secure_cookie :
  analyze_headers (VStr "u") (VDict [("set-cookie", VStr "session=abc; Secure; HttpOnly")])
  = Ok [].
Proof. vm_compute. reflexivity. Qed.

Example scenario_empty_batch :
  analyze_scan_results (VList [])
  = Ok {| enhanced_issues := [];
          recommendations := [];
          risk_score := 0;
          risk_level := "low";
          severity_counts := tally 0 0 0 0;
          urls_analyzed := 0 |}.
Proof. reflexivity. Qed.

(** Malformed batches raise: a batch that is no sequence, a record
    that is no object, a content that is no string, an issue with no id,
    a severity that cannot be hashed. *)
Example scenario_malformed :
  analyze_scan_results (VInt 3) = Raise TypeError
  /\ analyze_scan_results (VList [VStr "a"]) = Raise AttributeError
  /\ analyze_scan_results (VList [VDict [("content", VNone)]]) = Raise TypeError
  /\ analyze_scan_results (VList no_id) = Raise KeyError
  /\ analyze_scan_results
       (VList [VDict [("issues", VList [VDict [("id", VStr "x");
                                               ("severity", VList [])]])]])
     = Raise TypeError.
Proof. repeat split. Qed.

(* ================================================================== *)
(** ** When a batch gets a report *)
(* ================================================================== *)

(** What a record contributes is determined by the record. *)
Lemma contributes_functional record c c' :
  contributes record c -> contributes record c' -> c = c'.
Proof.
  intros (d & url & -> & Hu & Hp & Hc & Hh) (d' & url' & Hd & Hu' & Hp' & Hc' & Hh').
  injection Hd as <-. rewrite Hu in Hu'. injection Hu' as <-.
  destruct c as [p1 c1 h1], c' as [p2 c2 h2]. simpl in *.
  rewrite Hp in Hp'. injection Hp' as <-.
  assert (c1 = c2) as <-.
  { destruct (dict_get "content" d); [rewrite Hc in Hc'; now injection Hc' | congruence]. }
  assert (h1 = h2) as <-.
  { destruct (dict_get "headers" d); [rewrite Hh in Hh'; now injection Hh' | congruence]. }
  reflexivity.
Qed.

(** The converse of [process_record_ok]: a record with a contribution
    and a hashable url passes the loop body from any state. *)
Lemma process_record_intro record c url all_issues all_urls all_urls' :
  contributes record c -> record_url record = Some url ->
  set_add url all_urls = Ok all_urls' ->
  process_record (all_issues, all_urls) record = Ok (all_issues ++ in_order c, all_urls').
Proof.
  intros (d & url0 & -> & Hu & Hp & Hc & Hh) Hurl Hadd.
  simpl in Hurl. injection Hurl as Hurl. simpl in Hu. injection Hu as <-.
  unfold process_record. cbn [get bind]. rewrite Hurl, Hadd. cbn [bind].
  rewrite Hp. cbn [bind]. rewrite !str_in_dict. cbn [bind]. unfold dict_has, getitem.
  unfold in_order. destruct c as [p cs hs]. simpl in *.
  destruct (dict_get "content" d) as [content|]; cbn [bind].
  - rewrite Hurl in Hc. rewrite Hc. cbn [bind].
    destruct (dict_get "headers" d) as [headers|]; cbn [bind].
    + rewrite Hurl in Hh. rewrite Hh. cbn [bind]. now rewrite <- !app_assoc.
    + subst hs. now rewrite !app_nil_r, <- app_assoc.
  - subst cs. destruct (dict_get "headers" d) as [headers|]; cbn [bind].
    + rewrite Hurl in Hh. rewrite Hh. cbn [bind]. now rewrite <- !app_assoc.
    + subst hs. now rewrite !app_nil_r.
Qed.

Lemma add_all_cons v vs s :
  add_all (v :: vs) s = add_all vs (if set_mem v s then s else s ++ [v]).
Proof. reflexivity. Qed.

Lemma process_records_intro records : forall cs urls all_issues all_urls,
  Forall2 contributes records cs ->
  Forall2 (fun record url => record_url record = Some url) records urls ->
  Forall (fun url => hashable url = true) urls ->
  for_each records (all_issues, all_urls) process_record
  = Ok (all_issues ++ List.concat (map in_order cs), add_all urls all_urls).
Proof.
  induction records as [|record records IH]; intros cs urls issues urls0 Hcs Hus Hh.
  - inversion Hcs; subst. inversion Hus; subst. simpl. now rewrite app_nil_r.
  - inversion Hcs as [|? c ? cs' Hc Hcs']; subst.
    inversion Hus as [|? url ? urls' Hu Hus']; subst.
    inversion Hh as [|? ? Hurl Hh']; subst.
    cbn [for_each].
    rewrite (process_record_intro record c url issues urls0
               (if set_mem url urls0 then urls0 else urls0 ++ [url]));
      try assumption; [|unfold set_add; now rewrite Hurl].
    cbn [bind]. rewrite (IH cs' urls'); try assumption.
    rewrite add_all_cons. simpl. now rewrite <- app_assoc.
Qed.

Lemma count_severities_reads issues cs :
  count_severities issues = Ok cs ->
  Forall (fun issue => exists v, get issue "severity" (VStr "low") = Ok v
                                 /\ hashable v = true) issues.
Proof.
  unfold count_severities. intros H. apply for_each_ok_each in H.
  eapply Forall_impl; [|exact H].
  intros issue (s1 & s2 & Hb). unfold count_issue in Hb.
  bind_inv Hb. exists a. split; [exact Ha|].
  bind_inv Hb. unfold counts_has in Ha0. destruct (hashable a); [reflexivity | discriminate].
Qed.

Lemma issue_ids_reads issues ids :
  issue_ids issues = Ok ids ->
  Forall (fun issue => exists id, getitem issue "id" = Ok id /\ hashable id = true) issues.
Proof.
  unfold issue_ids. intros H. apply for_each_ok_each in H.
  eapply Forall_impl; [|exact H].
  intros issue (s1 & s2 & Hb). simpl in Hb. bind_inv Hb.
  exists a. split; [exact Ha|].
  unfold set_add in Hb. destruct (hashable a); [reflexivity | discriminate].
Qed.

Lemma accepted_issue_intro issue id v :
  getitem issue "id" = Ok id -> hashable id = true ->
  get issue "severity" (VStr "low") = Ok v -> hashable v = true ->
  accepted_issue issue = true.
Proof.
  unfold getitem, get, accepted_issue, dict_get_default.
  destruct issue as [| | | | |?|d]; try discriminate.
  destruct (dict_get "id" d) as [id'|]; [|discriminate].
  intros H; injection H as ->. intros ->. simpl.
  destruct (dict_get "severity" d) as [v'|]; [|reflexivity].
  intros H; injection H as ->. now intros ->.
Qed.

(** The findings of a report are accepted findings. *)
Lemma report_issues_accepted results rep :
  analyze_scan_results results = Ok rep ->
  forallb accepted_issue (enhanced_issues rep) = true.
Proof.
  intros H. apply analyze_scan_results_ok in H.
  destruct H as (_ & _ & _ & _ & Hrecs & Hcount & _).
  unfold generate_recommendations in Hrecs. bind_inv Hrecs.
  apply issue_ids_reads in Ha. apply count_severities_reads in Hcount.
  rewrite Forall_forall in Ha, Hcount.
  apply forallb_forall. intros issue Hin.
  destruct (Ha _ Hin) as (id & Hid & Hhid).
  destruct (Hcount _ Hin) as (v & Hv & Hhv).
  eapply accepted_issue_intro; eauto.
Qed.

(** The report of accepted findings. *)
Lemma report_of_loop records all_issues all_urls :
  for_each records ([], []) process_record = Ok (all_issues, all_urls) ->
  forallb accepted_issue all_issues = true ->
  exists rep,
    analyze_scan_results (VList records) = Ok rep
    /\ enhanced_issues rep = all_issues
    /\ urls_analyzed rep = Z.of_nat (List.length all_urls).
Proof.
  intros Hloop Hacc.
  destruct (generate_recommendations_total _ Hacc) as (recs & Hrecs).
  destruct (count_severities_total _ Hacc) as (cs & Hcs).
  eexists. split; [|split].
  - unfold analyze_scan_results. cbn [iter bind].
    unfold pyset in *. rewrite Hloop. cbn [bind]. rewrite Hrecs, Hcs. cbn [bind].
    rewrite (count_severities_tally _ _ Hcs), score_tally. cbn [bind]. reflexivity.
  - reflexivity.
  - reflexivity.
Qed.

(** A batch gets a report exactly when every record has a contribution
    and a hashable url and all contributed findings are accepted. *)
Lemma report_iff records :
  (exists rep, analyze_scan_results (VList records) = Ok rep) <->
  exists cs urls,
    Forall2 contributes records cs
    /\ Forall2 (fun record url => record_url record = Some url) records urls
    /\ Forall (fun url => hashable url = true) urls
    /\ forallb accepted_issue (List.concat (map in_order cs)) = true.
Proof.
  split.
  - intros (rep & H). pose proof (report_issues_accepted _ _ H) as Hacc.
    apply analyze_scan_results_ok in H.
    destruct H as (records' & all_urls & Hiter & Hloop & _).
    simpl in Hiter. injection Hiter as <-.
    apply process_records_ok in Hloop.
    destruct Hloop as (cs & us & Hcs & Hissues & Hus & Hh & _).
    exists cs, us. simpl in Hissues. rewrite Hissues in Hacc. auto.
  - intros (cs & urls & Hcs & Hus & Hh & Hacc).
    pose proof (process_records_intro records cs urls [] [] Hcs Hus Hh) as Hloop.
    simpl in Hloop.
    destruct (report_of_loop _ _ _ Hloop Hacc) as (rep & H & _). eauto.
Qed.

Lemma Forall2_functional {A B : Type} (R : A -> B -> Prop) :
  (forall x y y', R x y -> R x y' -> y = y') ->
  forall l m m', Forall2 R l m -> Forall2 R l m' -> m = m'.
Proof.
  intros Hf l m m' H. revert m'.
  induction H as [|x y l m Hxy _ IH]; intros m' H'; inversion H'; subst; [reflexivity|].
  f_equal; [eapply Hf; eauto | now apply IH].
Qed.

Lemma record_url_functional record url url' :
  record_url record = Some url -> record_url record = Some url' -> url = url'.
Proof. congruence. Qed.

(** A batch made of two batches gets a report exactly when both do. *)
Lemma report_app records1 records2 :
  (exists rep, analyze_scan_results (VList (records1 ++ records2)) = Ok rep) <->
  (exists rep1, analyze_scan_results (VList records1) = Ok rep1)
  /\ (exists rep2, analyze_scan_results (VList records2) = Ok rep2).
Proof.
  rewrite !report_iff. split.
  - intros (cs & urls & Hcs & Hus & Hh & Hacc).
    apply Forall2_app_inv_l in Hcs. destruct Hcs as (cs1 & cs2 & Hcs1 & Hcs2 & ->).
    apply Forall2_app_inv_l in Hus. destruct Hus as (us1 & us2 & Hus1 & Hus2 & ->).
    apply Forall_app in Hh. destruct Hh as [Hh1 Hh2].
    rewrite map_app, concat_app, forallb_app in Hacc.
    apply andb_prop in Hacc. destruct Hacc as [Hacc1 Hacc2].
    split; [exists cs1, us1 | exists cs2, us2]; auto.
  - intros [(cs1 & us1 & Hcs1 & Hus1 & Hh1 & Hacc1) (cs2 & us2 & Hcs2 & Hus2 & Hh2 & Hacc2)].
    exists (cs1 ++ cs2), (us1 ++ us2).
    split; [now apply Forall2_app|]. split; [now apply Forall2_app|].
    split; [apply Forall_app; auto|].
    now rewrite map_app, concat_app, forallb_app, Hacc1, Hacc2.
Qed.

(** The findings of a batch made of two batches. *)
Lemma enhanced_issues_app records1 records2 rep1 rep2 rep :
  analyze_scan_results (VList records1) = Ok rep1 ->
  analyze_scan_results (VList records2) = Ok rep2 ->
  analyze_scan_results (VList (records1 ++ records2)) = Ok rep ->
  enhanced_issues rep = enhanced_issues rep1 ++ enhanced_issues rep2.
Proof.
  intros H1 H2 H.
  destruct (enhanced_issues_order_aux _ _ H1) as (cs1 & Hcs1 & ->).
  destruct (enhanced_issues_order_aux _ _ H2) as (cs2 & Hcs2 & ->).
  destruct (enhanced_issues_order_aux _ _ H) as (cs & Hcs & ->).
  rewrite (Forall2_functional _ contributes_functional _ _ _ Hcs
             (Forall2_app Hcs1 Hcs2)).
  now rewrite map_app, concat_app.
Qed.

Lemma count_of_app k issues1 issues2 :
  count_of k (issues1 ++ issues2) = (count_of k issues1 + count_of k issues2)%Z.
Proof. unfold count_of. rewrite filter_app, length_app. lia. Qed.

Lemma report_counts results rep :
  analyze_scan_results results = Ok rep ->
  severity_counts rep
  = tally (count_of "critical" (enhanced_issues rep))
          (count_of "high" (enhanced_issues rep))
          (count_of "medium" (enhanced_issues rep))
          (count_of "low" (enhanced_issues rep)).
Proof.
  intros H. apply analyze_scan_results_ok in H.
  destruct H as (_ & _ & _ & _ & _ & Hc & _). now apply count_severities_tally.
Qed.

Lemma report_score results rep :
  analyze_scan_results results = Ok rep ->
  risk_score rep
  = Z.min 100 (count_of "critical" (enhanced_issues rep) * 25
               + count_of "high" (enhanced_issues rep) * 10
               + count_of "medium" (enhanced_issues rep) * 5
               + count_of "low" (enhanced_issues rep) * 1).
Proof.
  intros H. pose proof (report_counts _ _ H) as Hc.
  apply analyze_scan_results_ok in H.
  destruct H as (_ & _ & _ & _ & _ & _ & Hs & _).
  rewrite Hc, score_tally in Hs. now injection Hs.
Qed.

(* ================================================================== *)
(** ** Batches compose *)
(* ================================================================== *)

(** X1: a batch gets a report exactly when each of its records, sent
    alone, gets one: nothing in a record can make another record fail or
    pass. *)
Theorem report_record_by_record records :
  (exists rep, analyze_scan_results (VList records) = Ok rep) <->
  Forall (fun record => exists rep, analyze_scan_results (VList [record]) = Ok rep)
         records.
Proof.
  induction records as [|record records IH].
  - split; [constructor | intros _; eexists; reflexivity].
  - change (record :: records) with ([record] ++ records).
    rewrite report_app, IH. split.
    + intros [H1 H2]. now constructor.
    + intros H. inversion H; subst. auto.
Qed.

(** X2: when two batches get reports, so does the batch made of the
    first followed by the second; its findings are those of the first
    report followed by those of the second, its severity counts are the
    sums of the two counts, and its risk score is the sum of the two
    scores capped at 100, hence at least each of them. *)
Theorem report_of_joined_batches records1 records2 rep1 rep2
  (H1 : analyze_scan_results (VList records1) = Ok rep1)
  (H2 : analyze_scan_results (VList records2) = Ok rep2) :
  exists rep,
    analyze_scan_results (VList (records1 ++ records2)) = Ok rep
    /\ enhanced_issues rep = enhanced_issues rep1 ++ enhanced_issues rep2
    /\ (exists c1 h1 m1 l1 c2 h2 m2 l2,
          severity_counts rep1 = tally c1 h1 m1 l1
          /\ severity_counts rep2 = tally c2 h2 m2 l2
          /\ severity_counts rep = tally (c1 + c2) (h1 + h2) (m1 + m2) (l1 + l2))%Z
    /\ risk_score rep = Z.min 100 (risk_score rep1 + risk_score rep2)
    /\ (risk_score rep1 <= risk_score rep)%Z
    /\ (risk_score rep2 <= risk_score rep)%Z.
Proof.
  destruct (proj2 (report_app records1 records2)) as (rep & H); [eauto|].
  exists rep. split; [exact H|].
  pose proof (enhanced_issues_app _ _ _ _ _ H1 H2 H) as He.
  split; [exact He|].
  pose proof (report_counts _ _ H1) as Hc1. pose proof (report_counts _ _ H2) as Hc2.
  pose proof (report_counts _ _ H) as Hc.
  pose proof (report_score _ _ H1) as Hs1. pose proof (report_score _ _ H2) as Hs2.
  pose proof (report_score _ _ H) as Hs.
  rewrite He, !count_of_app in Hc, Hs.
  pose proof (count_of_nonneg "critical" (enhanced_issues rep1)).
  pose proof (count_of_nonneg "high" (enhanced_issues rep1)).
  pose proof (count_of_nonneg "medium" (enhanced_issues rep1)).
  pose proof (count_of_nonneg "low" (enhanced_issues rep1)).
  pose proof (count_of_nonneg "critical" (enhanced_issues rep2)).
  pose proof (count_of_nonneg "high" (enhanced_issues rep2)).
  pose proof (count_of_nonneg "medium" (enhanced_issues rep2)).
  pose proof (count_of_nonneg "low" (enhanced_issues rep2)).
  split; [do 8 eexists; repeat split; eassumption|].
  rewrite Hs, Hs1, Hs2. repeat split; lia.
Qed.

Lemma report_of_joined_batches_witness :
  exists rep,
    analyze_scan_results (VList (critical_record ++ critical_record)) = Ok rep
    /\ risk_score rep = 50%Z.
Proof.
  destruct (report_of_joined_batches critical_record critical_record _ _ eq_refl eq_refl)
    as (rep & H & _ & _ & Hs & _).
  exists rep. split; [exact H | exact Hs].
Defined.

(* ================================================================== *)
(** ** More on recommendations *)
(* ================================================================== *)

Lemma issue_ids_total issues :
  Forall id_readable issues -> exists ids, issue_ids issues = Ok ids.
Proof.
  intros H. rewrite Forall_forall in H. unfold issue_ids. apply for_each_total.
  intros st issue Hin. destruct (H _ Hin) as (id & -> & Hh). simpl.
  unfold set_add. rewrite Hh. eauto.
Qed.

Lemma generate_recommendations_iff issues :
  (exists recs, generate_recommendations issues = Ok recs) <-> Forall id_readable issues.
Proof.
  split.
  - intros (recs & H). unfold generate_recommendations in H. bind_inv H.
    now apply issue_ids_reads in Ha.
  - intros H. destruct (issue_ids_total _ H) as (ids & Hids).
    unfold generate_recommendations. rewrite Hids. simpl. eauto.
Qed.

Lemma has_id_app k issues1 issues2 :
  has_id k (issues1 ++ issues2) = has_id k issues1 || has_id k issues2.
Proof. unfold has_id. apply existsb_app. Qed.

Lemma in_recommendations issues recs text :
  generate_recommendations issues = Ok recs ->
  (In text recs <-> exists k, In (k, text) catalog /\ has_id k issues = true).
Proof.
  intros H. apply generate_recommendations_catalog in H. subst recs.
  rewrite in_map_iff. split.
  - intros ([k t] & Ht & Hin). simpl in Ht. subst t.
    apply filter_In in Hin. destruct Hin as [Hin Hk]. eauto.
  - intros (k & Hin & Hk). exists (k, text). split; [reflexivity|].
    apply filter_In. auto.
Qed.

Lemma filter_subsequence {A : Type} (p q : A -> bool) l :
  (forall x, p x = true -> q x = true) ->
  subsequence (filter p l) (filter q l).
Proof.
  intros Hpq. induction l as [|x l IH]; simpl; [constructor|].
  destruct (p x) eqn:Hp.
  - rewrite (Hpq x Hp). now constructor.
  - destruct (q x); [now constructor | exact IH].
Qed.

Lemma map_subsequence {A B : Type} (f : A -> B) a b :
  subsequence a b -> subsequence (map f a) (map f b).
Proof. induction 1; simpl; now constructor. Qed.

(** X3: [generate_recommendations] returns exactly when every finding is
    an object whose id is present and hashable.  When it returns on two
    sequences it returns on their concatenation, with the texts of the
    one and of the other and no more; and the recommendations of a
    sequence are those of any longer sequence with some left out, the
    others in the same order: more findings never remove or reorder
    advice. *)
Theorem recommendations_grow issues more :
  ((exists recs, generate_recommendations issues = Ok recs)
   <-> Forall id_readable issues)
  /\ (forall recs recs',
        generate_recommendations issues = Ok recs ->
        generate_recommendations more = Ok recs' ->
        exists all,
          generate_recommendations (issues ++ more) = Ok all
          /\ (forall text, In text all <-> In text recs \/ In text recs')
          /\ subsequence recs all
          /\ subsequence recs' all).
Proof.
  split; [apply generate_recommendations_iff|].
  intros recs recs' H1 H2.
  destruct (proj2 (generate_recommendations_iff (issues ++ more))) as (all & H).
  { apply Forall_app. split; apply generate_recommendations_iff; eauto. }
  exists all. split; [exact H|]. split; [|split].
  - intros text.
    rewrite (in_recommendations _ _ text H), (in_recommendations _ _ text H1),
      (in_recommendations _ _ text H2).
    split.
    + intros (k & Hin & Hk). rewrite has_id_app in Hk.
      apply orb_prop in Hk. destruct Hk; eauto.
    + intros [(k & Hin & Hk)|(k & Hin & Hk)]; exists k;
        rewrite has_id_app, Hk, ?orb_true_r; auto.
  - apply generate_recommendations_catalog in H, H1. subst.
    apply map_subsequence, filter_subsequence.
    intros [k t] Hk. simpl in *. now rewrite has_id_app, Hk.
  - apply generate_recommendations_catalog in H, H2. subst.
    apply map_subsequence, filter_subsequence.
    intros [k t] Hk. simpl in *. now rewrite has_id_app, Hk, orb_true_r.
Qed.

(* ================================================================== *)
(** ** More on the set of urls *)
(* ================================================================== *)

Lemma add_all_length vs : forall s,
  (List.length s <= List.length (add_all vs s) <= List.length s + List.length vs)%nat.
Proof.
  induction vs as [|v vs IH]; intros s; [simpl; lia|].
  rewrite add_all_cons. specialize (IH (if set_mem v s then s else s ++ [v])).
  destruct (set_mem v s); [|rewrite length_app in IH]; simpl in *; lia.
Qed.

Lemma report_urls records rep :
  analyze_scan_results (VList records) = Ok rep ->
  exists urls,
    Forall2 (fun record url => record_url record = Some url) records urls
    /\ urls_analyzed rep = Z.of_nat (List.length (add_all urls [])).
Proof.
  intros H. apply analyze_scan_results_ok in H.
  destruct H as (records' & all_urls & Hiter & Hloop & _ & _ & _ & _ & ->).
  simpl in Hiter. injection Hiter as <-.
  apply process_records_ok in Hloop.
  destruct Hloop as (cs & us & _ & _ & Hus & _ & ->). eauto.
Qed.

(** X4: [urls_analyzed] is never negative and never more than the number
    of records; it is 0 for the empty batch only; and putting more
    records after a batch never lowers it and raises it by at most the
    number of records added. *)
Theorem urls_analyzed_bounds records rep
  (H : analyze_scan_results (VList records) = Ok rep) :
  (0 <= urls_analyzed rep <= Z.of_nat (List.length records))%Z
  /\ (urls_analyzed rep = 0%Z <-> records = [])
  /\ (forall more rep',
        analyze_scan_results (VList (records ++ more)) = Ok rep' ->
        (urls_analyzed rep <= urls_analyzed rep'
         <= urls_analyzed rep + Z.of_nat (List.length more))%Z).
Proof.
  destruct (report_urls _ _ H) as (urls & Hus & Hn).
  pose proof (Forall2_length Hus) as Hlen.
  pose proof (add_all_length urls []) as Hb. simpl in Hb.
  split; [lia|]. split; [split|].
  - intros Hz. destruct records as [|record records]; [reflexivity|].
    inversion Hus as [|? url ? urls' _ _]; subst.
    rewrite add_all_cons in Hn. simpl in Hn.
    pose proof (add_all_length urls' [url]) as Hb'. simpl in Hb'. lia.
  - intros ->. inversion Hus; subst. rewrite Hn. reflexivity.
  - intros more rep' H'.
    destruct (report_urls _ _ H') as (urls' & Hus' & Hn').
    apply Forall2_app_inv_l in Hus'. destruct Hus' as (us1 & us2 & Hus1 & Hus2 & ->).
    rewrite (Forall2_functional _ record_url_functional _ _ _ Hus1 Hus) in Hn'.
    unfold add_all in Hn'. rewrite fold_left_app in Hn'. fold (add_all urls []) in Hn'.
    fold (add_all us2 (add_all urls [])) in Hn'.
    pose proof (add_all_length us2 (add_all urls [])) as Hb2.
    pose proof (Forall2_length Hus2). lia.
Qed.

Lemma urls_analyzed_bounds_witness :
  exists rep, analyze_scan_results (VList four_records) = Ok rep
              /\ (0 <= urls_analyzed rep <= 4)%Z.
Proof.
  eexists. split; [vm_compute; reflexivity|].
  refine (proj1 (urls_analyzed_bounds four_records _ _)). vm_compute; reflexivity.
Defined.

(* ================================================================== *)
(** ** The detectors on arbitrary values *)
(* ================================================================== *)

Lemma analyze_content_not_str url content :
  is_str content = false -> analyze_content url content = Raise TypeError.
Proof. destruct content; try discriminate; reflexivity. Qed.

Lemma analyze_content_ok_inv url content findings :
  analyze_content url content = Ok findings ->
  exists text, content = VStr text
               /\ findings = flat_map (rule_findings url text) registry.
Proof.
  intros H. destruct (is_str content) eqn:E.
  - destruct content; try discriminate. rewrite analyze_content_findings in H.
    injection H as <-. eauto.
  - rewrite (analyze_content_not_str _ _ E) in H. discriminate.
Qed.

(** The header detector on any object, string values or not. *)
Lemma analyze_headers_dict url d :
  analyze_headers url (VDict d)
  = bind (match dict_get "set-cookie" d with
          | None => Ok []
          | Some (VStr c) =>
              Ok (if no_secure_or_no_httponly c
                  then [cookie_finding url (VStr c)] else [])
          | Some _ => Raise AttributeError
          end)
      (fun cookie =>
         bind (match dict_get "server" d with
               | None => Ok []
               | Some v =>
                   bind (len v) (fun n =>
                     Ok (if (n >? 0)%Z then [server_finding url v] else []))
               end)
           (fun server => Ok (cookie ++ server))).
Proof.
  unfold analyze_headers. rewrite !str_in_dict. cbn [bind]. unfold dict_has, getitem.
  destruct (dict_get "set-cookie" d) as [cookie|]; cbn [bind].
  - destruct cookie as [| | | |c| |]; try reflexivity. cbn [str_lower bind].
    unfold no_secure_or_no_httponly.
    destruct (contains "secure" (lower c)); cbn [negb orb bind];
      [destruct (contains "httponly" (lower c)); cbn [negb bind]|];
      (destruct (dict_get "server" d) as [server|]; cbn [bind]; [|reflexivity];
       destruct (len server) as [n|e]; cbn [bind]; [|reflexivity];
       destruct (n >? 0)%Z; reflexivity).
  - destruct (dict_get "server" d) as [server|]; cbn [bind]; [|reflexivity].
    destruct (len server) as [n|e]; cbn [bind]; [|reflexivity].
    destruct (n >? 0)%Z; reflexivity.
Qed.

(** Headers that are no object give no finding: the detector raises or
    returns the empty list. *)
Lemma analyze_headers_non_dict url headers findings :
  (forall d, headers <> VDict d) ->
  analyze_headers url headers = Ok findings -> findings = [].
Proof.
  intros Hnd. destruct headers as [| | | |s|l|d]; try discriminate.
  - unfold analyze_headers. cbn [str_in bind].
    destruct (contains "set-cookie" s); cbn [getitem bind]; [discriminate|].
    destruct (contains "server" s); cbn [getitem bind]; [discriminate|].
    now intros H; injection H as <-.
  - unfold analyze_headers. cbn [str_in bind].
    destruct (existsb (key_eqb (VStr "set-cookie")) l); cbn [getitem bind]; [discriminate|].
    destruct (existsb (key_eqb (VStr "server")) l); cbn [getitem bind]; [discriminate|].
    now intros H; injection H as <-.
  - now destruct (Hnd d).
Qed.

(** Whatever the headers are, a returned list is the cookie finding, if
    any, then the server finding, if any, and both come from an object. *)
Lemma analyze_headers_ok_inv url headers findings :
  analyze_headers url headers = Ok findings ->
  exists cookie server,
    findings = cookie ++ server
    /\ (cookie = []
        \/ exists d c, headers = VDict d
                       /\ dict_get "set-cookie" d = Some (VStr c)
                       /\ no_secure_or_no_httponly c = true
                       /\ cookie = [cookie_finding url (VStr c)])
    /\ (server = []
        \/ exists d v n, headers = VDict d
                         /\ dict_get "server" d = Some v
                         /\ len v = Ok n /\ (0 < n)%Z
                         /\ server = [server_finding url v]).
Proof.
  intros H. destruct headers as [| | | |s|l|d].
  1-6: (apply analyze_headers_non_dict in H; [|discriminate]; subst;
        exists [], []; repeat split; now left).
  rewrite analyze_headers_dict in H.
  bind_inv H. rename a into cookie, Ha into Hc.
  bind_inv H. rename a into server, Ha into Hs. injection H as <-.
  exists cookie, server. split; [reflexivity|]. split.
  - destruct (dict_get "set-cookie" d) as [[| | | |c| |]|] eqn:Ec; try discriminate.
    + injection Hc as <-. destruct (no_secure_or_no_httponly c) eqn:E; [|now left].
      right. exists d, c. auto.
    + injection Hc as <-. now left.
  - destruct (dict_get "server" d) as [v|] eqn:Es.
    + bind_inv Hs. injection Hs as <-. destruct (a >? 0)%Z eqn:E; [|now left].
      right. exists d, v, a. apply Z.gtb_lt in E. auto.
    + injection Hs as <-. now left.
Qed.

(* ================================================================== *)
(** ** What the detectors find is scored and advised *)
(* ================================================================== *)

Lemma content_finding_known kind severity pattern url text span :
  In (kind, severity, pattern) registry ->
  counted (content_finding kind severity url text span) = true
  /\ exists k advice, In (k, advice) catalog
                      /\ id_is k (content_finding kind severity url text span) = true.
Proof.
  intros Hin. simpl in Hin.
  destruct Hin as [Hin|[Hin|[Hin|[Hin|[Hin|[]]]]]]; injection Hin as <- <- <-;
    (split; [reflexivity|]).
  - exists "deep_sql_injection", rec_sql_injection. split; [simpl; tauto | reflexivity].
  - exists "deep_xss_vulnerability", rec_xss_vulnerability.
    split; [simpl; tauto | reflexivity].
  - exists "deep_sensitive_data", rec_sensitive_data. split; [simpl; tauto | reflexivity].
  - exists "deep_path_traversal", rec_path_traversal. split; [simpl; tauto | reflexivity].
  - exists "deep_open_redirect", rec_open_redirect. split; [simpl; tauto | reflexivity].
Qed.

Lemma contributed_content record c finding :
  contributes record c -> In finding (from_content c) ->
  exists kind severity pattern url text span,
    In (kind, severity, pattern) registry
    /\ finding = content_finding kind severity url text span.
Proof.
  intros (d & url & _ & _ & _ & Hc & _) Hin.
  destruct (dict_get "content" d) as [content|]; [|rewrite Hc in Hin; destruct Hin].
  apply analyze_content_ok_inv in Hc. destruct Hc as (text & _ & Hf).
  rewrite Hf in Hin. apply in_flat_map in Hin.
  destruct Hin as ([[kind severity] pattern] & Hreg & Hin). simpl in Hin.
  apply in_map_iff in Hin. destruct Hin as (span & <- & _).
  exists kind, severity, pattern, url, text, span. auto.
Qed.

Lemma contributed_headers record c finding :
  contributes record c -> In finding (from_headers c) ->
  exists url v, finding = cookie_finding url v \/ finding = server_finding url v.
Proof.
  intros (d & url & _ & _ & _ & _ & Hh) Hin.
  destruct (dict_get "headers" d) as [headers|]; [|rewrite Hh in Hin; destruct Hin].
  apply analyze_headers_ok_inv in Hh.
  destruct Hh as (cookie & server & Hf & Hc & Hs). rewrite Hf in Hin.
  apply in_app_iff in Hin. destruct Hin as [Hin|Hin].
  - destruct Hc as [->|(d' & c' & _ & _ & _ & ->)]; [destruct Hin|].
    destruct Hin as [<-|[]]. eauto.
  - destruct Hs as [->|(d' & v & n & _ & _ & _ & _ & ->)]; [destruct Hin|].
    destruct Hin as [<-|[]]. eauto.
Qed.

(** X5: in every report, each finding that the content detector or the
    header detector contributed is counted in [severity_counts] and has
    its remediation text among the recommendations: the catalog covers
    every kind the detectors emit. *)
Theorem detected_is_scored_and_advised records rep
  (H : analyze_scan_results (VList records) = Ok rep) :
  exists cs,
    Forall2 contributes records cs
    /\ forall c finding,
         In c cs -> In finding (from_content c ++ from_headers c) ->
         In finding (enhanced_issues rep)
         /\ counted finding = true
         /\ exists k advice,
              In (k, advice) catalog /\ id_is k finding = true
              /\ In advice (recommendations rep).
Proof.
  destruct (enhanced_issues_order_aux _ _ H) as (cs & Hcs & He).
  exists cs. split; [exact Hcs|]. intros c finding Hc Hin.
  assert (Hen : In finding (enhanced_issues rep)).
  { rewrite He. apply in_concat. exists (in_order c). split; [now apply in_map|].
    unfold in_order. rewrite in_app_iff. now right. }
  split; [exact Hen|].
  assert (Hrec : exists record, contributes record c).
  { clear - Hcs Hc. induction Hcs as [|r c' rs cs' Hr _ IH]; [destruct Hc|].
    destruct Hc as [->|Hc]; eauto. }
  destruct Hrec as (record & Hrec).
  assert (Hknown : counted finding = true
            /\ exists k advice, In (k, advice) catalog /\ id_is k finding = true).
  { apply in_app_iff in Hin. destruct Hin as [Hin|Hin].
    - destruct (contributed_content _ _ _ Hrec Hin)
        as (kind & sev & pattern & url & text & span & Hreg & ->).
      eapply content_finding_known; eauto.
    - destruct (contributed_headers _ _ _ Hrec Hin) as (url & v & [-> | ->]).
      + split; [reflexivity|]. exists "deep_insecure_cookie", rec_insecure_cookie.
        split; [simpl; tauto | reflexivity].
      + split; [reflexivity|]. exists "deep_server_disclosure", rec_server_disclosure.
        split; [simpl; tauto | reflexivity]. }
  destruct Hknown as (Hcount & k & advice & Hcat & Hid).
  split; [exact Hcount|]. exists k, advice. repeat split; try assumption.
  apply analyze_scan_results_ok in H. destruct H as (_ & _ & _ & _ & Hrecs & _).
  apply (in_recommendations _ _ advice Hrecs). exists k. split; [exact Hcat|].
  unfold has_id. apply existsb_exists. eauto.
Qed.

Lemma detected_is_scored_and_advised_witness :
  exists rep cs,
    analyze_scan_results (VList scanned_page) = Ok rep
    /\ Forall2 contributes scanned_page cs.
Proof.
  eexists.
  assert (H : analyze_scan_results (VList scanned_page) = Ok ?[rep])
    by (vm_compute; reflexivity).
  destruct (detected_is_scored_and_advised _ _ H) as (cs & Hcs & _).
  exists cs. split; [exact H | exact Hcs].
Defined.

(* ================================================================== *)
(** ** Malformed records *)
(* ================================================================== *)

Lemma analyze_headers_scalar url headers :
  is_scalar headers = true -> analyze_headers url headers = Raise TypeError.
Proof. destruct headers; try discriminate; reflexivity. Qed.

(** X6: a record whose [content] field is present and is not a string
    ([null] included), or whose [headers] field is present and is [null],
    a boolean or a number, makes the whole analysis raise, whatever the
    other records are. *)
Theorem malformed_record_raises records record d
  (Hin : In record records) (Hd : record = VDict d)
  (Hbad : (exists content, dict_get "content" d = Some content
                           /\ is_str content = false)
          \/ (exists headers, dict_get "headers" d = Some headers
                              /\ is_scalar headers = true)) :
  exists e, analyze_scan_results (VList records) = Raise e.
Proof.
  destruct (analyze_scan_results (VList records)) as [rep|e] eqn:H; [|eauto].
  exfalso. destruct (enhanced_issues_order_aux _ _ H) as (cs & Hcs & _).
  destruct (Forall2_In_l _ _ _ _ Hcs Hin) as (c & _ & (d' & url & Hd' & _ & _ & Hc & Hh)).
  rewrite Hd in Hd'. injection Hd' as <-.
  destruct Hbad as [(content & Hget & Hns)|(headers & Hget & Hsc)].
  - rewrite Hget in Hc. rewrite (analyze_content_not_str _ _ Hns) in Hc. discriminate.
  - rewrite Hget in Hh. rewrite (analyze_headers_scalar _ _ Hsc) in Hh. discriminate.
Qed.

Lemma malformed_record_raises_witness :
  exists e, analyze_scan_results (VList null_content) = Raise e.
Proof.
  refine (malformed_record_raises null_content _ _ (or_introl eq_refl) eq_refl _).
  left. exists VNone. split; reflexivity.
Defined.

(** X7: whatever value the headers are, a list returned by the header
    detector holds at most two findings, the cookie finding before the
    server finding; a finding is returned only for headers that are an
    object, with the [set-cookie] value, a string, as context of the
    cookie finding and the [server] value, of positive length, as context
    of the server finding. *)
Theorem header_detector_on_any_value url headers findings
  (H : analyze_headers url headers = Ok findings) :
  (List.length findings <= 2)%nat
  /\ ((forall d, headers <> VDict d) -> findings = [])
  /\ exists cookie server,
       findings = cookie ++ server
       /\ (cookie = []
           \/ exists d c, headers = VDict d
                          /\ dict_get "set-cookie" d = Some (VStr c)
                          /\ no_secure_or_no_httponly c = true
                          /\ cookie = [cookie_finding url (VStr c)])
       /\ (server = []
           \/ exists d v n, headers = VDict d
                            /\ dict_get "server" d = Some v
                            /\ len v = Ok n /\ (0 < n)%Z
                            /\ server = [server_finding url v]).
Proof.
  pose proof (analyze_headers_ok_inv _ _ _ H) as (cookie & server & Hf & Hc & Hs).
  split; [|split].
  - rewrite Hf, length_app.
    destruct Hc as [->|(? & ? & _ & _ & _ & ->)];
      destruct Hs as [->|(? & ? & ? & _ & _ & _ & _ & ->)]; simpl; lia.
  - intros Hnd. eapply analyze_headers_non_dict; eauto.
  - exists cookie, server. auto.
Qed.

Lemma header_detector_on_any_value_witness :
  (List.length [server_finding (VStr "u") (VList [VStr "nginx"])] <= 2)%nat.
Proof.
  refine (proj1 (header_detector_on_any_value (VStr "u")
                   (VDict [("server", VList [VStr "nginx"])]) _ _)).
  reflexivity.
Defined.

(* ================================================================== *)
(** ** Fields the aggregator does not read *)
(* ================================================================== *)

Lemma process_record_same_fields st record record' :
  same_fields record record' ->
  process_record st record = process_record st record'.
Proof.
  intros (d & d' & -> & -> & Hsame).
  assert (Hu : dict_get "url" d = dict_get "url" d') by (apply Hsame; simpl; tauto).
  assert (Hi : dict_get "issues" d = dict_get "issues" d') by (apply Hsame; simpl; tauto).
  assert (Hc : dict_get "content" d = dict_get "content" d') by (apply Hsame; simpl; tauto).
  assert (Hh : dict_get "headers" d = dict_get "headers" d') by (apply Hsame; simpl; tauto).
  unfold process_record. destruct st as [all_issues all_urls].
  cbn [get]. rewrite !str_in_dict. unfold dict_get_default, dict_has, getitem.
  now rewrite Hu, Hi, Hc, Hh.
Qed.

Lemma for_each_same {A S : Type} (body : S -> A -> result S) (R : A -> A -> Prop) :
  (forall st x y, R x y -> body st x = body st y) ->
  forall items items', Forall2 R items items' ->
  forall st, for_each items st body = for_each items' st body.
Proof.
  intros Hb items items' H. induction H as [|x y items items' Hxy _ IH]; intros st.
  - reflexivity.
  - simpl. rewrite (Hb st x y Hxy). destruct (body st y); simpl; [apply IH | reflexivity].
Qed.

(** X8: the analysis reads four fields of a record, [url], [issues],
    [content] and [headers]: two batches whose records agree on these
    fields, record by record, get the same result, report or exception,
    whatever other fields the records carry. *)
Theorem other_fields_are_ignored records records'
  (H : Forall2 same_fields records records') :
  analyze_scan_results (VList records) = analyze_scan_results (VList records').
Proof.
  unfold analyze_scan_results. cbn [iter bind].
  now rewrite (for_each_same process_record same_fields
                 process_record_same_fields records records' H).
Qed.

Lemma other_fields_are_ignored_witness :
  analyze_scan_results (VList scanned_page)
  = analyze_scan_results (VList scanned_page_with_more).
Proof.
  apply other_fields_are_ignored. repeat constructor.
  eexists. eexists. split; [reflexivity|]. split; [reflexivity|].
  intros k Hk. simpl in Hk.
  destruct Hk as [<-|[<-|[<-|[<-|[]]]]]; reflexivity.
Defined.

(* ================================================================== *)
(** ** Where the content findings lie *)
(* ================================================================== *)

Lemma length_list_of_string s :
  List.length (list_ascii_of_string s) = String.length s.
Proof. induction s as [|c s IH]; simpl; [reflexivity | now rewrite IH]. Qed.

Lemma length_string_app a b :
  String.length (a ++ b)%string = (String.length a + String.length b)%nat.
Proof. induction a as [|c a IH]; simpl; [reflexivity | now rewrite IH]. Qed.

Lemma length_substring n : forall m s, (String.length (substring n m s) <= m)%nat.
Proof.
  induction n as [|n IH]; intros m s.
  - revert s. induction m as [|m IHm]; intros s; destruct s; simpl; try lia.
    specialize (IHm s). lia.
  - destruct s; simpl; [destruct m; simpl; lia | apply IH].
Qed.

Lemma length_strip s : (String.length (strip s) <= String.length s)%nat.
Proof.
  destruct (strip_trimmed s) as ((l & r & Hs & _) & _).
  rewrite Hs at 2. rewrite !length_string_app. lia.
Qed.

Lemma length_window text s e :
  (s <= e)%nat -> (String.length (window text s e) <= e - s + 60)%nat.
Proof.
  intros Hse. unfold window.
  etransitivity; [apply length_substring|]. lia.
Qed.

(** Spans of a never-empty pattern: each lies after the ones before it. *)
Lemma chained_from lo l :
  chained lo l -> forall s e, In (s, e) l -> (lo <= s)%nat.
Proof.
  revert lo. induction l as [|[s0 e0] l IH]; intros lo H s e Hin; [destruct Hin|].
  destruct H as (H1 & H2 & H3). destruct Hin as [Hin|Hin].
  - injection Hin as <- <-. exact H1.
  - specialize (IH e0 H3 s e Hin). lia.
Qed.

Lemma chained_starts_distinct lo l :
  chained lo l -> (forall s e, In (s, e) l -> (s < e)%nat) -> NoDup (map fst l).
Proof.
  revert lo. induction l as [|[s0 e0] l IH]; intros lo H Hne; simpl; constructor.
  - destruct H as (_ & _ & H3). intros Hin. apply in_map_iff in Hin.
    destruct Hin as ([s e] & Hs & Hin). simpl in Hs. subst s.
    pose proof (chained_from _ _ H3 _ _ Hin).
    pose proof (Hne s0 e0 (or_introl eq_refl)). lia.
  - destruct H as (_ & _ & H3). apply (IH e0 H3).
    intros s e Hin. apply Hne. now right.
Qed.

Lemma registry_spans_proper kind severity pattern text s e :
  In (kind, severity, pattern) registry -> In (s, e) (spans pattern text) ->
  (s < e <= String.length text)%nat.
Proof.
  intros Hreg Hin. apply spans_sound in Hin.
  pose proof (matches_span_nonempty _ _ _ _ (registry_never_empty _ _ _ Hreg) Hin).
  destruct Hin as ((_ & Hle) & _). rewrite length_list_of_string in Hle. lia.
Qed.

(** X9: every finding of the content detector is the finding of a
    registry rule at one of its spans [(s, e)], with [0 <= s < e <=
    len(text)]: its position is an offset inside the text, and its
    context is no longer than the match plus 60 characters and no longer
    than the text. *)
Theorem content_finding_bounds url text findings
  (H : analyze_content url (VStr text) = Ok findings) :
  forall finding, In finding findings ->
    exists kind severity pattern s e fields context,
      In (kind, severity, pattern) registry
      /\ In (s, e) (spans pattern text)
      /\ finding = VDict fields
      /\ dict_get "position" fields = Some (VInt (Z.of_nat s))
      /\ dict_get "context" fields = Some (VStr context)
      /\ (s < e <= String.length text)%nat
      /\ (String.length context <= e - s + 60)%nat
      /\ (String.length context <= String.length text)%nat.
Proof.
  rewrite analyze_content_findings in H.
  assert (Hf : findings = flat_map (rule_findings url text) registry)
    by (now injection H).
  subst findings. clear H.
  intros finding Hin. apply in_flat_map in Hin.
  destruct Hin as ([[kind severity] pattern] & Hreg & Hin). simpl in Hin.
  apply in_map_iff in Hin. destruct Hin as ([s e] & <- & Hse).
  pose proof (registry_spans_proper _ _ _ _ _ _ Hreg Hse) as Hb.
  exists kind, severity, pattern, s, e. eexists. eexists.
  split; [exact Hreg|]. split; [exact Hse|]. split; [reflexivity|].
  split; [reflexivity|]. split; [reflexivity|]. split; [exact Hb|]. simpl fst. simpl snd.
  split.
  - etransitivity; [apply length_strip | apply length_window; lia].
  - etransitivity; [apply length_strip|]. unfold window.
    etransitivity; [apply length_substring|]. lia.
Qed.

Lemma content_finding_bounds_witness :
  exists kind severity pattern s e fields context,
    In (kind, severity, pattern) registry
    /\ In (s, e) (spans pattern "my pwd")
    /\ content_finding "sensitive_data" "high" VNone "my pwd" (3, 6)%nat = VDict fields
    /\ dict_get "position" fields = Some (VInt (Z.of_nat s))
    /\ dict_get "context" fields = Some (VStr context)
    /\ (s < e <= String.length "my pwd")%nat
    /\ (String.length context <= e - s + 60)%nat
    /\ (String.length context <= String.length "my pwd")%nat.
Proof.
  refine (content_finding_bounds VNone "my pwd" _ _ _ _).
  - vm_compute; reflexivity.
  - now left.
Defined.

Lemma NoDup_flat_map {A B : Type} (f : A -> list B) l :
  NoDup l ->
  (forall x, In x l -> NoDup (f x)) ->
  (forall x y b, In x l -> In y l -> In b (f x) -> In b (f y) -> x = y) ->
  NoDup (flat_map f l).
Proof.
  induction l as [|x l IH]; intros Hnd Hf Hdis; simpl; [constructor|].
  inversion Hnd as [|? ? Hx Hl]; subst.
  apply NoDup_app.
  - apply Hf. now left.
  - apply IH; [assumption | intros; apply Hf; now right |].
    intros y z b Hy Hz. apply Hdis; now right.
  - intros b Hb Hb'. apply in_flat_map in Hb'. destruct Hb' as (y & Hy & Hby).
    assert (x = y) by (apply (Hdis x y b); auto; [now left | now right]).
    subst y. contradiction.
Qed.

Lemma registry_distinct : NoDup registry.
Proof.
  unfold registry. repeat constructor; simpl; intuition discriminate.
Qed.

(** X10: the content detector never returns the same finding twice: the
    findings of one kind have pairwise different positions, and findings
    of different kinds have different ids. *)
Theorem content_findings_distinct url text findings
  (H : analyze_content url (VStr text) = Ok findings) :
  NoDup findings
  /\ forall kind severity pattern,
       In (kind, severity, pattern) registry ->
       NoDup (map fst (spans pattern text)).
Proof.
  rewrite analyze_content_findings in H.
  assert (Hf : findings = flat_map (rule_findings url text) registry)
    by (now injection H).
  subst findings. clear H.
  assert (Hpos : forall kind severity pattern,
             In (kind, severity, pattern) registry ->
             NoDup (map fst (spans pattern text))).
  { intros kind severity pattern Hreg.
    apply (chained_starts_distinct 0); [apply spans_chained|].
    intros s e Hin. eapply registry_spans_proper; eauto. }
  split; [|exact Hpos].
  apply NoDup_flat_map; [apply registry_distinct | |].
  - intros [[kind severity] pattern] Hreg. simpl.
    specialize (Hpos _ _ _ Hreg). revert Hpos.
    induction (spans pattern text) as [|[s e] l IH]; simpl; intros Hnd; [constructor|].
    inversion Hnd as [|? ? Hs Hl]; subst. constructor; [|now apply IH].
    intros Hin. apply Hs. apply in_map_iff in Hin.
    destruct Hin as ([s' e'] & Heq & Hin). unfold content_finding in Heq.
    simpl in Heq. injection Heq as _ Hpos'. apply Nat2Z.inj in Hpos'. subst s'.
    apply in_map_iff. exists (s, e'). auto.
  - intros [[k1 s1] p1] [[k2 s2] p2] b H1 H2 Hb1 Hb2. simpl in Hb1, Hb2.
    apply in_map_iff in Hb1, Hb2.
    destruct Hb1 as (sp1 & <- & _). destruct Hb2 as (sp2 & Heq & _).
    unfold content_finding in Heq. injection Heq as Hk _ _ _ _. subst k2.
    clear - H1 H2. simpl in H1, H2.
    destruct H1 as [H1|[H1|[H1|[H1|[H1|[]]]]]]; injection H1 as <- <- <-;
      destruct H2 as [H2|[H2|[H2|[H2|[H2|[]]]]]]; try discriminate H2;
      injection H2 as <- <-; reflexivity.
Qed.

Lemma content_findings_distinct_witness :
  NoDup (map fst (spans sensitive_data "pwd pwd")).
Proof.
  refine (proj2 (content_findings_distinct VNone "pwd pwd" _ _) _ "high" _ _).
  - vm_compute; reflexivity.
  - simpl. tauto.
Defined.

(* ================================================================== *)
(** ** Rules that are a choice of words *)
(* ================================================================== *)

Lemma same_letter_lower x c :
  same_letter x c = true <-> lower_char x = lower_char c.
Proof. unfold same_letter. apply Ascii.eqb_eq. Qed.

Lemma lit_chars_cons c c' w :
  lit_chars (c :: c' :: w) = Seq (Chr (Lit c)) (lit_chars (c' :: w)).
Proof. reflexivity. Qed.

(** A literal pattern matches the spellings of its word. *)
Lemma lit_chars_matches w : forall prev u rest,
  Matches (lit_chars w) prev u rest <-> map lower_char u = map lower_char w.
Proof.
  induction w as [|c w IH]; intros prev u rest.
  - simpl. split.
    + intros H. inversion H; subst. reflexivity.
    + intros H. destruct u; [constructor | discriminate].
  - destruct w as [|c' w].
    + simpl. split.
      * intros H. inversion H as [|cs x ? ? Hok| | | | | | | |]; subst.
        simpl. f_equal. now apply same_letter_lower.
      * intros H. destruct u as [|x [|y u]]; try discriminate.
        simpl in H. injection H as H. constructor. now apply same_letter_lower.
    + rewrite lit_chars_cons. split.
      * intros H. inversion H as [| | | | | | |r1 r2 u1 v ? ? H1 H2| |]; subst.
        inversion H1 as [|cs x ? ? Hok| | | | | | | |]; subst.
        apply IH in H2. simpl. simpl in H2. rewrite H2. f_equal.
        now apply same_letter_lower.
      * intros H. destruct u as [|x u]; [discriminate|].
        simpl in H. injection H as Hx Hu.
        change (x :: u) with ([x] ++ u). constructor.
        -- constructor. now apply same_letter_lower.
        -- apply IH. exact Hu.
Qed.

Lemma alt_matches rs : forall r prev u rest,
  Matches (alt r rs) prev u rest <->
  Matches r prev u rest \/ exists r', In r' rs /\ Matches r' prev u rest.
Proof.
  induction rs as [|r0 rs IH]; intros r prev u rest; simpl.
  - split; [auto | intros [H|(r' & [] & _)]; exact H].
  - split.
    + intros H. inversion H; subst; [now left|].
      right. match goal with H' : Matches (alt _ _) _ _ _ |- _ => apply IH in H' ;
        destruct H' as [H'|(r' & Hin & H')]; eauto end.
    + intros [H|(r' & [<-|Hin] & H)].
      * now apply MAltL.
      * apply MAltR. apply IH. now left.
      * apply MAltR. apply IH. right. eauto.
Qed.

(** A choice of words matches the spellings of its words. *)
Lemma any_of_matches words prev u rest :
  words <> [] ->
  (Matches (any_of words) prev u rest <-> exists w, In w words /\ spells u w).
Proof.
  destruct words as [|w ws]; [contradiction|]. intros _.
  unfold any_of, spells. rewrite alt_matches. unfold lit. split.
  - intros [H|(r' & Hin & H)].
    + apply lit_chars_matches in H. exists w. split; [now left | exact H].
    + apply in_map_iff in Hin. destruct Hin as (w' & <- & Hin).
      apply lit_chars_matches in H. exists w'. split; [now right | exact H].
  - intros (w' & [<-|Hin] & H).
    + left. now apply lit_chars_matches.
    + right. exists (lit w'). split; [now apply in_map|]. now apply lit_chars_matches.
Qed.

Lemma list_of_string_app a b :
  list_ascii_of_string (a ++ b)%string
  = list_ascii_of_string a ++ list_ascii_of_string b.
Proof. induction a as [|c a IH]; simpl; [reflexivity | now rewrite IH]. Qed.

Lemma spells_app u1 u2 a b :
  spells u1 a -> spells u2 b -> spells (u1 ++ u2) (a ++ b)%string.
Proof.
  unfold spells. intros H1 H2. now rewrite list_of_string_app, !map_app, H1, H2.
Qed.

Lemma spells_app_inv u a b :
  spells u (a ++ b)%string ->
  exists u1 u2, u = u1 ++ u2 /\ spells u1 a /\ spells u2 b.
Proof.
  unfold spells. rewrite list_of_string_app, map_app. intros H.
  exists (firstn (String.length a) u), (skipn (String.length a) u).
  split; [now rewrite firstn_skipn|].
  rewrite <- firstn_map, <- skipn_map, H.
  rewrite <- (length_list_of_string a), <- (length_map lower_char (list_ascii_of_string a)).
  now rewrite firstn_length_app, skipn_length_app.
Qed.

(** [a[_\-]?b] matches the spellings of [ab], [a_b] and [a-b]. *)
Lemma joined_matches a b prev u rest :
  Matches (Seq (lit a) (Seq sep (lit b))) prev u rest
  <-> spells u (a ++ b)%string \/ spells u (a ++ "_" ++ b)%string
      \/ spells u (a ++ "-" ++ b)%string.
Proof.
  split.
  - intros H. inversion H as [| | | | | | |? ? u1 v ? ? H1 H2| |]; subst.
    inversion H2 as [| | | | | | |? ? u2 u3 ? ? H3 H4| |]; subst.
    apply lit_chars_matches in H1, H4.
    assert (Hs : spells u2 "" \/ spells u2 "_" \/ spells u2 "-").
    { unfold sep in H3.
      inversion H3 as [| | | |? ? ?|cs x ? ? Hok| | | |]; subst; [now left|].
      simpl in Hok. rewrite orb_false_r in Hok. apply orb_prop in Hok.
      destruct Hok as [Hok|Hok]; apply same_letter_lower in Hok;
        [right; left | right; right]; unfold spells; simpl; now rewrite Hok. }
    destruct Hs as [Hs|[Hs|Hs]]; [left | right; left | right; right].
    + apply spells_app; [exact H1|]. apply (spells_app u2 u3 "" b Hs H4).
    + apply spells_app; [exact H1|]. now apply spells_app.
    + apply spells_app; [exact H1|]. now apply spells_app.
  - assert (Hbuild : forall m, spells u (a ++ m ++ b)%string ->
                               (forall p u2 rest', spells u2 m -> Matches sep p u2 rest') ->
                               Matches (Seq (lit a) (Seq sep (lit b))) prev u rest).
    { intros m H Hsep. apply spells_app_inv in H. destruct H as (u1 & u23 & -> & H1 & H).
      apply spells_app_inv in H. destruct H as (u2 & u3 & -> & H2 & H3).
      constructor; [now apply lit_chars_matches|].
      constructor; [now apply Hsep | now apply lit_chars_matches]. }
    intros [H|[H|H]].
    + apply (Hbuild ""%string); [exact H|].
      intros p u2 rest' Hs. unfold spells in Hs. destruct u2; [|discriminate]. constructor.
    + apply (Hbuild "_"%string); [exact H|].
      intros p u2 rest' Hs. unfold spells in Hs. destruct u2 as [|x [|y u2]]; try discriminate.
      simpl in Hs. injection Hs as Hx. unfold sep. constructor. simpl.
      apply orb_true_iff. left. now apply same_letter_lower.
    + apply (Hbuild "-"%string); [exact H|].
      intros p u2 rest' Hs. unfold spells in Hs. destruct u2 as [|x [|y u2]]; try discriminate.
      simpl in Hs. injection Hs as Hx. unfold sep. constructor. simpl.
      apply orb_true_iff. right. apply orb_true_iff. left. now apply same_letter_lower.
Qed.

Lemma lit_matches w prev u rest : Matches (lit w) prev u rest <-> spells u w.
Proof. unfold lit, spells. apply lit_chars_matches. Qed.

(** The sensitive-data rule matches the spellings of thirteen words. *)
Lemma sensitive_data_matches prev u rest :
  Matches sensitive_data prev u rest
  <-> exists w,
        In w ["password"; "passwd"; "pwd"; "secret";
              "apikey"; "api_key"; "api-key";
              "accesstoken"; "access_token"; "access-token";
              "authtoken"; "auth_token"; "auth-token"]
        /\ spells u w.
Proof.
  unfold sensitive_data. rewrite alt_matches. cbn [seq]. split.
  - intros [H|(r' & Hin & H)].
    + apply lit_matches in H. exists "password". simpl; tauto.
    + simpl in Hin.
      destruct Hin as [<-|[<-|[<-|[<-|[<-|[<-|[]]]]]]].
      * apply lit_matches in H. exists "passwd". simpl; tauto.
      * apply lit_matches in H. exists "pwd". simpl; tauto.
      * apply lit_matches in H. exists "secret". simpl; tauto.
      * apply joined_matches in H. destruct H as [H|[H|H]]; eexists; (split; [|exact H]);
          simpl; tauto.
      * apply joined_matches in H. destruct H as [H|[H|H]]; eexists; (split; [|exact H]);
          simpl; tauto.
      * apply joined_matches in H. destruct H as [H|[H|H]]; eexists; (split; [|exact H]);
          simpl; tauto.
  - intros (w & Hin & H). simpl in Hin.
    destruct Hin as [<-|[<-|[<-|[<-|Hin]]]].
    + left. now apply lit_matches.
    + right. exists (lit "passwd"). split; [simpl; tauto | now apply lit_matches].
    + right. exists (lit "pwd"). split; [simpl; tauto | now apply lit_matches].
    + right. exists (lit "secret"). split; [simpl; tauto | now apply lit_matches].
    + right.
      destruct Hin as [<-|[<-|[<-|Hin]]];
        [exists (Seq (lit "api") (Seq sep (lit "key")));
         (split; [simpl; tauto | apply joined_matches; simpl; tauto]) ..|].
      destruct Hin as [<-|[<-|[<-|Hin]]];
        [exists (Seq (lit "access") (Seq sep (lit "token")));
         (split; [simpl; tauto | apply joined_matches; simpl; tauto]) ..|].
      destruct Hin as [<-|[<-|[<-|[]]]];
        exists (Seq (lit "auth") (Seq sep (lit "token")));
        (split; [simpl; tauto | apply joined_matches; simpl; tauto]).
Qed.

(** The word rules are rules of the registry, and each matches the
    spellings of its words. *)
Lemma word_rules_registry kind words :
  In (kind, words) word_rules ->
  (forall w, In w words -> w <> EmptyString)
  /\ exists severity pattern,
       In (kind, severity, pattern) registry
       /\ (forall severity' pattern',
             In (kind, severity', pattern') registry -> pattern' = pattern)
       /\ (forall prev u rest,
             Matches pattern prev u rest <-> exists w, In w words /\ spells u w).
Proof.
  intros Hin. simpl in Hin. destruct Hin as [Hin|[Hin|[Hin|[]]]]; injection Hin as <- <-.
  - split.
    { intros w Hw. simpl in Hw.
      repeat (destruct Hw as [<-|Hw]; [discriminate|]). destruct Hw. }
    exists "high", sensitive_data. split; [simpl; tauto|]. split.
    + intros severity pattern Hreg. simpl in Hreg.
      destruct Hreg as [H|[H|[H|[H|[H|[]]]]]]; try discriminate H.
      now injection H as <- <-.
    + apply sensitive_data_matches.
  - split.
    { intros w Hw. simpl in Hw.
      repeat (destruct Hw as [<-|Hw]; [discriminate|]). destruct Hw. }
    exists "critical", path_traversal. split; [simpl; tauto|]. split.
    + intros severity pattern Hreg. simpl in Hreg.
      destruct Hreg as [H|[H|[H|[H|[H|[]]]]]]; try discriminate H.
      now injection H as <- <-.
    + intros prev u rest.
      apply (any_of_matches
               ["../"; "..\"; "/etc/passwd"; "/etc/shadow"; "c:\windows\system32"]).
      discriminate.
  - split.
    { intros w Hw. simpl in Hw.
      repeat (destruct Hw as [<-|Hw]; [discriminate|]). destruct Hw. }
    exists "medium", open_redirect. split; [simpl; tauto|]. split.
    + intros severity pattern Hreg. simpl in Hreg.
      destruct Hreg as [H|[H|[H|[H|[H|[]]]]]]; try discriminate H.
      now injection H as <- <-.
    + intros prev u rest.
      apply (any_of_matches
               ["url="; "redirect="; "return="; "next="; "redir="; "r="; "destination="]).
      discriminate.
Qed.

Lemma spells_length u w :
  spells u w -> List.length u = String.length w.
Proof.
  unfold spells. intros H. apply (f_equal (@List.length ascii)) in H.
  rewrite !length_map, length_list_of_string in H. exact H.
Qed.

(** X11: three rules of the registry come down to a choice of words:
    sensitive data (thirteen words), path traversal (five) and open
    redirect (seven).  For each of them the content detector reports a
    finding of the kind exactly when one of the rule's words occurs in
    the text, letter case aside and wherever it stands: a text with the
    characters [r=] anywhere, say, always gets a [deep_open_redirect]
    finding, and a text without any of the seven words never does. *)
Theorem word_rule_fires_iff_word_occurs url text findings kind words
  (H : analyze_content url (VStr text) = Ok findings)
  (Hrule : In (kind, words) word_rules) :
  has_id ("deep_" ++ kind) findings = true
  <-> exists w, In w words /\ occurs w text.
Proof.
  rewrite analyze_content_findings in H.
  assert (Hf : findings = flat_map (rule_findings url text) registry)
    by (now injection H).
  subst findings. clear H.
  destruct (word_rules_registry _ _ Hrule) as (Hwne & sev & pattern & Hreg & Hfun & Hsem).
  unfold has_id. rewrite existsb_exists. split.
  - intros (finding & Hin & Hid). apply in_flat_map in Hin.
    destruct Hin as ([[kind' sev'] pattern'] & Hreg' & Hin). simpl in Hin.
    apply in_map_iff in Hin. destruct Hin as ([s e] & <- & Hse).
    assert (kind' = kind).
    { unfold content_finding, id_is in Hid. simpl in Hid.
      apply String.eqb_eq in Hid. congruence. }
    subst kind'. rewrite (Hfun _ _ Hreg') in Hse.
    apply spans_sound in Hse. apply matches_span_parts in Hse.
    destruct Hse as (a & u & rest & Ht & _ & _ & Hm).
    apply Hsem in Hm. destruct Hm as (w & Hw & Hsp).
    exists w. split; [exact Hw|]. exists a, u, rest. auto.
  - intros (w & Hw & (pre & mid & post & Ht & Hsp)).
    assert (Hm : Matches pattern (char_before None pre) mid post).
    { apply Hsem. eauto. }
    apply matches_span_split in Hm. rewrite <- Ht in Hm.
    destruct (spans_complete _ text _ _ Hm) as (s & e & Hin & _).
    { pose proof (spells_length _ _ Hsp) as Hlen.
      specialize (Hwne w Hw). destruct w; [contradiction | simpl in Hlen; lia]. }
    exists (content_finding kind sev url text (s, e)). split.
    + apply in_flat_map. exists (kind, sev, pattern). split; [exact Hreg|].
      simpl. apply in_map_iff. exists (s, e). auto.
    + unfold content_finding, id_is. simpl. apply String.eqb_refl.
Qed.

Lemma word_rule_fires_iff_word_occurs_witness :
  has_id "deep_open_redirect"
    [content_finding "open_redirect" "medium" VNone "color=red" (4, 6)%nat] = true
  <-> exists w,
        In w ["url="; "redirect="; "return="; "next="; "redir="; "r="; "destination="]
        /\ occurs w "color=red".
Proof.
  refine (word_rule_fires_iff_word_occurs VNone "color=red" _ "open_redirect" _ _ _).
  - vm_compute; reflexivity.
  - simpl. tauto.
Defined.

(* ================================================================== *)
(** ** The two entry points *)
(* ================================================================== *)

Section EntryPoints.
Import Shim.
Variable loads : string -> option value.
Variable dumpable : value -> bool.
Variable message : string -> string.
Variable int_of : option string -> option Z.

Lemma post_body_cases path post_data :
  let calls := post_body loads dumpable message path post_data in
  (exists results,
      served loads path post_data results /\ dumpable (report_value results) = true
      /\ calls = _set_headers ++ [write (report_value results)])
  \/ (exists results,
        served loads path post_data results /\ dumpable (report_value results) = false
        /\ calls = _set_headers ++ post_failed message post_data)
  \/ ((forall results, ~ served loads path post_data results)
      /\ (calls = post_failed message post_data
          \/ (path <> "/analyze" /\ loads post_data <> None
              /\ calls = [send_response 404; end_headers;
                          write (error_value "Unknown endpoint")]))).
Proof.
  unfold post_body, served. simpl.
  destruct (loads post_data) as [scan_data|] eqn:El.
  - destruct (String.eqb path "/analyze") eqn:Ep.
    + apply String.eqb_eq in Ep.
      destruct (analyze_scan_results scan_data) as [results|e] eqn:Ea.
      * destruct (dumpable (report_value results)) eqn:Ed.
        -- left. exists results. repeat split; eauto.
        -- right. left. exists results. repeat split; eauto.
      * right. right. split; [|now left].
        intros results (_ & sd & Hsd & Hr). congruence.
    + apply String.eqb_neq in Ep. right. right. split.
      * intros results (Hp & _). contradiction.
      * right. repeat split; [assumption | discriminate].
  - right. right. split; [|now left].
    intros results (_ & sd & Hsd & _). discriminate.
Qed.

(** What the [try] statement of [do_POST] sends. *)
Lemma post_body_answers path post_data :
  let calls := post_body loads dumpable message path post_data in
  List.length (documents calls) = 1%nat
  /\ (statuses calls = [200%Z]
      <-> exists results,
            served loads path post_data results
            /\ dumpable (report_value results) = true)
  /\ (forall results,
        served loads path post_data results -> dumpable (report_value results) = true ->
        documents calls = [report_value results])
  /\ (loads post_data = None ->
      calls = [send_response 500; end_headers; write (error_value (message post_data))])
  /\ (loads post_data <> None -> path <> "/analyze" ->
      calls = [send_response 404; end_headers; write (error_value "Unknown endpoint")])
  /\ (In "Access-Control-Allow-Origin" (header_names calls)
      <-> exists results, served loads path post_data results)
  /\ ((forall results, ~ served loads path post_data results) -> header_names calls = []).
Proof.
  intros calls.
  destruct (post_body_cases path post_data)
    as [(results & Hs & Hd & Hc)|[(results & Hs & Hd & Hc)|(Hns & Hc)]];
    fold calls in Hc.
  - assert (Hu : forall results', served loads path post_data results' -> results' = results).
    { intros r' (_ & sd' & Hl' & Ha'). destruct Hs as (_ & sd & Hl & Ha). congruence. }
    rewrite Hc. split; [reflexivity|]. split; [split; eauto|].
    split; [intros r' Hr' _; now rewrite (Hu r' Hr')|].
    destruct Hs as (Hp & sd & Hl & Ha).
    split; [intros Hn; congruence|]. split; [intros _ Hn; contradiction|].
    split; [|intros Hn; exfalso; apply (Hn results); unfold served; eauto].
    split; [intros _; exists results; unfold served; eauto | intros _; simpl; tauto].
  - assert (Hu : forall results', served loads path post_data results' -> results' = results).
    { intros r' (_ & sd' & Hl' & Ha'). destruct Hs as (_ & sd & Hl & Ha). congruence. }
    rewrite Hc. split; [reflexivity|]. split.
    { split; [discriminate|]. intros (r' & Hr' & Hd'). rewrite (Hu r' Hr') in Hd'. congruence. }
    split; [intros r' Hr' Hd'; rewrite (Hu r' Hr') in Hd'; congruence|].
    destruct Hs as (Hp & sd & Hl & Ha).
    split; [intros Hn; congruence|]. split; [intros _ Hn; contradiction|].
    split; [|intros Hn; exfalso; apply (Hn results); unfold served; eauto].
    split; [intros _; exists results; unfold served; eauto | intros _; simpl; tauto].
  - assert (Hcalls : statuses calls <> [200%Z] /\ List.length (documents calls) = 1%nat
                     /\ header_names calls = []).
    { destruct Hc as [Hc|(_ & _ & Hc)]; rewrite Hc; repeat split; discriminate. }
    destruct Hcalls as (Hst & Hlen & Hh).
    split; [exact Hlen|]. split.
    { split; [intros H; contradiction | intros (r & Hr & _); now destruct (Hns r)]. }
    split; [intros r Hr; now destruct (Hns r)|].
    split.
    { intros Hl. destruct Hc as [Hc|(_ & Hl' & _)]; [exact Hc | contradiction]. }
    split.
    { intros Hl Hp. unfold calls, post_body.
      destruct (loads post_data); [|contradiction].
      apply String.eqb_neq in Hp. now rewrite Hp. }
    split; [|intros _; exact Hh].
    rewrite Hh. split; [intros [] | intros (r & Hr); now destruct (Hns r)].
Qed.

(** X12: when reading the [Content-Length] header raises, [do_POST]
    sends nothing; otherwise, whatever the path and the body read, it
    writes exactly one JSON document.  It answers 200 with the report
    exactly when the path is [/analyze], the body is JSON and the
    analysis returns a report (that [json.dumps] accepts); a body that is not
    JSON is answered 500 whatever the path, before the route is looked
    at; an unknown route with a JSON body is answered 404.  The
    content-type and cross-origin headers are sent with the 200 status
    line only: the 404 and 500 answers carry no header of the handler's
    own. *)
Theorem post_answers path content_length read :
  match do_POST loads dumpable message int_of path content_length read with
  | None => int_of content_length = None
  | Some calls =>
      exists n,
        int_of content_length = Some n
        /\ List.length (documents calls) = 1%nat
        /\ (statuses calls = [200%Z]
            <-> exists results,
                  served loads path (read n) results
                  /\ dumpable (report_value results) = true)
        /\ (forall results,
              served loads path (read n) results ->
              dumpable (report_value results) = true ->
              documents calls = [report_value results])
        /\ (loads (read n) = None ->
            calls = [send_response 500; end_headers;
                     write (error_value (message (read n)))])
        /\ (loads (read n) <> None -> path <> "/analyze" ->
            calls = [send_response 404; end_headers;
                     write (error_value "Unknown endpoint")])
        /\ (In "Access-Control-Allow-Origin" (header_names calls)
            <-> exists results, served loads path (read n) results)
        /\ ((forall results, ~ served loads path (read n) results) ->
            header_names calls = [])
  end.
Proof.
  unfold do_POST. destruct (int_of content_length) as [n|]; [|reflexivity].
  exists n. split; [reflexivity|]. apply post_body_answers.
Qed.

End EntryPoints.

Section Pipe.
Import Shim.
(** The library as [main] calls it: [loads] is
    [json.loads(sys.stdin.read())], [dumpable] tells whether
    [json.dumps(results, indent=2)] returns, [message] is [str(e)]. *)
Variable loads : string -> option value.
Variable dumpable : value -> bool.
Variable message : string -> string.

(** Every record of a batch that gets a report is an object. *)
Lemma reported_records_are_objects records results :
  analyze_scan_results (VList records) = Ok results ->
  Forall (fun record => exists d, record = VDict d) records.
Proof.
  intros Ha.
  destruct (enhanced_issues_order_aux _ _ Ha) as (cs & Hcs & _). clear - Hcs.
  induction Hcs as [|record c records cs Hc _ IH]; constructor; [|exact IH].
  destruct Hc as (d & _ & -> & _). now exists d.
Qed.

(** X13: [main] prints exactly one document, a JSON object, and exits
    with status 0 or 1.  It exits with status 0 exactly when standard
    input is JSON, the analysis returns a report and [json.dumps]
    accepts it, and then the document is that report; in every other
    case it exits with status 1 and the document is the error object.
    The document alone tells the two apart: it has the field [status]
    with value [failed] exactly on exit status 1, and it has no field
    [error] exactly on exit status 0.  A JSON list with a record that is
    no object never gives exit status 0. *)
Theorem main_prints_one_document stdin :
  let run := main loads dumpable message stdin in
  (exists document,
      printed run = [VDict document]
      /\ (exit_status run = 1%Z <-> dict_get "status" document = Some (VStr "failed"))
      /\ (exit_status run = 0%Z <-> dict_get "error" document = None))
  /\ (exit_status run = 0%Z \/ exit_status run = 1%Z)
  /\ (exit_status run = 0%Z
      <-> exists input_data results,
            loads stdin = Some input_data
            /\ analyze_scan_results input_data = Ok results
            /\ dumpable (report_value results) = true)
  /\ (forall input_data results,
        loads stdin = Some input_data ->
        analyze_scan_results input_data = Ok results ->
        dumpable (report_value results) = true ->
        printed run = [report_value results])
  /\ (exit_status run = 1%Z -> printed run = [error_value (message stdin)])
  /\ (forall records,
        loads stdin = Some (VList records) -> exit_status run = 0%Z ->
        Forall (fun record => exists d, record = VDict d) records).
Proof.
  intros run. unfold run, main, main_failed.
  destruct (loads stdin) as [input_data|] eqn:El.
  - destruct (analyze_scan_results input_data) as [results|e] eqn:Ea.
    + destruct (dumpable (report_value results)) eqn:Ed; cbn [printed exit_status].
      * split.
        { eexists. split; [reflexivity|]. split; split; try discriminate; reflexivity. }
        split; [now left|]. split; [split; eauto|].
        split; [intros i r Hi Hr _; congruence|].
        split; [discriminate|].
        intros records Hl _. injection Hl as ->.
        eapply reported_records_are_objects; eauto.
      * split.
        { eexists. split; [reflexivity|]. split; split; try discriminate; reflexivity. }
        split; [now right|].
        split; [split; [discriminate | intros (i & r & Hi & Hr & Hd); congruence]|].
        split; [intros i r Hi Hr Hd; congruence|].
        split; [reflexivity | discriminate].
    + cbn [printed exit_status]. split.
      { eexists. split; [reflexivity|]. split; split; try discriminate; reflexivity. }
      split; [now right|].
      split; [split; [discriminate | intros (i & r & Hi & Hr & Hd); congruence]|].
      split; [intros i r Hi Hr Hd; congruence|].
      split; [reflexivity | discriminate].
  - cbn [printed exit_status]. split.
    { eexists. split; [reflexivity|]. split; split; try discriminate; reflexivity. }
    split; [now right|].
    split; [split; [discriminate | intros (i & r & Hi & Hr & Hd); congruence]|].
    split; [intros i r Hi Hr Hd; congruence|].
    split; [reflexivity | discriminate].
Qed.

End Pipe.

(* ================================================================== *)
(** ** Findings carry the url of their record *)
(* ================================================================== *)

Lemma contributed_url record c url finding :
  contributes record c -> record_url record = Some url ->
  In finding (from_content c ++ from_headers c) ->
  finding_url finding = Some url.
Proof.
  intros (d & url0 & Hd & Hu & _ & Hc & Hh) Hurl Hin.
  rewrite Hu in Hurl. injection Hurl as <-.
  apply in_app_iff in Hin. destruct Hin as [Hin|Hin].
  - destruct (dict_get "content" d) as [content|]; [|rewrite Hc in Hin; destruct Hin].
    apply analyze_content_ok_inv in Hc. destruct Hc as (text & _ & Hf).
    rewrite Hf in Hin. apply in_flat_map in Hin.
    destruct Hin as ([[kind severity] pattern] & _ & Hin). simpl in Hin.
    apply in_map_iff in Hin. destruct Hin as (span & <- & _). reflexivity.
  - destruct (dict_get "headers" d) as [headers|]; [|rewrite Hh in Hin; destruct Hin].
    apply analyze_headers_ok_inv in Hh.
    destruct Hh as (cookie & server & Hf & Hck & Hsv). rewrite Hf in Hin.
    apply in_app_iff in Hin. destruct Hin as [Hin|Hin].
    + destruct Hck as [->|(d' & c' & _ & _ & _ & ->)]; [destruct Hin|].
      destruct Hin as [<-|[]]. reflexivity.
    + destruct Hsv as [->|(d' & v & n & _ & _ & _ & _ & ->)]; [destruct Hin|].
      destruct Hin as [<-|[]]. reflexivity.
Qed.

(** X14: in every report, each finding that a detector contributed for
    a record carries in its [url] field the url of that record, which is
    the empty string for a record with no url field.  The contributions
    are those of the records, one for each record in order, and the
    findings of the report are these contributions one after the
    other. *)
Theorem detected_findings_carry_record_url records rep
  (H : analyze_scan_results (VList records) = Ok rep) :
  exists cs,
    Forall2 contributes records cs
    /\ enhanced_issues rep = List.concat (map in_order cs)
    /\ Forall2 (fun record c =>
                  exists d, record = VDict d
                  /\ forall finding,
                       In finding (from_content c ++ from_headers c) ->
                       finding_url finding
                       = Some (dict_get_default "url" (VStr "") d))
               records cs.
Proof.
  destruct (enhanced_issues_order_aux _ _ H) as (cs & Hcs & He).
  exists cs. split; [exact Hcs|]. split; [exact He|]. clear - Hcs.
  induction Hcs as [|record c records cs Hc _ IH]; constructor; [|exact IH].
  pose proof Hc as (d & url & -> & Hu & _). exists d. split; [reflexivity|].
  intros finding Hin. eapply contributed_url; eauto.
Qed.

Lemma detected_findings_carry_record_url_witness :
  exists rep cs,
    analyze_scan_results (VList (page_without_url ++ scanned_page)) = Ok rep
    /\ Forall2 contributes (page_without_url ++ scanned_page) cs
    /\ enhanced_issues rep = List.concat (map in_order cs)
    /\ Forall2 (fun record c =>
                  exists d, record = VDict d
                  /\ forall finding,
                       In finding (from_content c ++ from_headers c) ->
                       finding_url finding
                       = Some (dict_get_default "url" (VStr "") d))
               (page_without_url ++ scanned_page) cs
    /\ urls_and_ids (enhanced_issues rep)
       = [(Some (VStr ""), Some (VStr "deep_sensitive_data"));
          (Some (VStr ""), Some (VStr "deep_server_disclosure"));
          (Some (VStr "a"), Some (VStr "deep_sensitive_data"));
          (Some (VStr "a"), Some (VStr "deep_server_disclosure"))].
Proof.
  eexists.
  assert (H : analyze_scan_results (VList (page_without_url ++ scanned_page)) = Ok ?[rep])
    by (vm_compute; reflexivity).
  destruct (detected_findings_carry_record_url (page_without_url ++ scanned_page) _ H)
    as (cs & Hcs & He & Hurl).
  exists cs. split; [exact H|]. split; [exact Hcs|]. split; [exact He|].
  split; [exact Hurl|]. vm_compute; reflexivity.
Defined.

(* ================================================================== *)
(** ** Batches that are no list *)
(* ================================================================== *)

(** X15: a batch that is not a list is not always refused.  [None], a
    boolean and a number raise TypeError (they cannot be iterated); a
    non-empty string and a non-empty object raise AttributeError (their
    characters and keys are strings, which have no [get]); but the empty
    string and the empty object go through the loop without a turn and
    get the report of the empty batch. *)
Theorem batch_that_is_no_list results (H : forall l, results <> VList l) :
  analyze_scan_results results
  = match results with
    | VStr EmptyString | VDict [] => Ok empty_report
    | VStr _ | VDict _ => Raise AttributeError
    | _ => Raise TypeError
    end.
Proof.
  destruct results as [| | | |s|l|d]; try reflexivity.
  - destruct s; reflexivity.
  - now destruct (H l).
  - destruct d as [|[k v] d]; reflexivity.
Qed.

Lemma batch_that_is_no_list_witness :
  analyze_scan_results (VDict []) = Ok empty_report.
Proof.
  refine (batch_that_is_no_list (VDict []) _). discriminate.
Defined.

(* ================================================================== *)
(** ** A part of a batch never looks worse than the whole *)
(* ================================================================== *)

Lemma rank_band_monotone a b : (a <= b)%Z -> (rank (band a) <= rank (band b))%nat.
Proof.
  intros Hab. unfold band.
  destruct (Z.ltb_spec 75 a), (Z.ltb_spec 75 b), (Z.ltb_spec 50 a),
    (Z.ltb_spec 50 b), (Z.ltb_spec 25 a), (Z.ltb_spec 25 b);
    unfold rank; simpl; lia.
Qed.

Lemma report_level results rep :
  analyze_scan_results results = Ok rep -> risk_level rep = band (risk_score rep).
Proof.
  intros H. apply analyze_scan_results_ok in H.
  destruct H as (_ & _ & _ & _ & _ & _ & _ & Hl & _). now rewrite Hl, level_band.
Qed.

Lemma report_recommendations results rep :
  analyze_scan_results results = Ok rep ->
  recommendations rep
  = map snd (filter (fun entry => has_id (fst entry) (enhanced_issues rep)) catalog).
Proof.
  intros H. apply analyze_scan_results_ok in H.
  destruct H as (_ & _ & _ & _ & Hr & _). now apply generate_recommendations_catalog.
Qed.

(** X16: when a batch gets a report, every run of consecutive records of
    it gets one too, and the part never looks worse than the whole: its
    findings are among those of the whole, each of its severity counts
    and its risk score are at most those of the whole, its risk level is
    not higher, and its recommendations are those of the whole with some
    left out. *)
Theorem part_is_no_worse_than_whole before records after whole
  (H : analyze_scan_results (VList (before ++ records ++ after)) = Ok whole) :
  exists part,
    analyze_scan_results (VList records) = Ok part
    /\ incl (enhanced_issues part) (enhanced_issues whole)
    /\ (forall k, count_of k (enhanced_issues part)
                  <= count_of k (enhanced_issues whole))%Z
    /\ (risk_score part <= risk_score whole)%Z
    /\ (rank (risk_level part) <= rank (risk_level whole))%nat
    /\ subsequence (recommendations part) (recommendations whole).
Proof.
  destruct (proj1 (report_app before (records ++ after))) as ((rb & Hb) & (rest & Hrest));
    [eauto|].
  destruct (proj1 (report_app records after)) as ((part & Hp) & (ra & Ha)); [eauto|].
  exists part. split; [exact Hp|].
  pose proof (enhanced_issues_app _ _ _ _ _ Hp Ha Hrest) as He1.
  pose proof (enhanced_issues_app _ _ _ _ _ Hb Hrest H) as He2.
  rewrite He1 in He2.
  assert (Hcount : forall k, (count_of k (enhanced_issues part)
                              <= count_of k (enhanced_issues whole))%Z).
  { intros k. rewrite He2, !count_of_app.
    pose proof (count_of_nonneg k (enhanced_issues rb)).
    pose proof (count_of_nonneg k (enhanced_issues ra)). lia. }
  assert (Hscore : (risk_score part <= risk_score whole)%Z).
  { rewrite (report_score _ _ Hp), (report_score _ _ H).
    pose proof (Hcount "critical"). pose proof (Hcount "high").
    pose proof (Hcount "medium"). pose proof (Hcount "low"). lia. }
  split; [|split; [exact Hcount|split; [exact Hscore|split]]].
  - intros issue Hin. rewrite He2, !in_app_iff. tauto.
  - rewrite (report_level _ _ Hp), (report_level _ _ H).
    now apply rank_band_monotone.
  - rewrite (report_recommendations _ _ Hp), (report_recommendations _ _ H).
    apply map_subsequence, filter_subsequence.
    intros [k t] Hk. simpl in *. rewrite He2, !has_id_app, Hk.
    now rewrite orb_true_r.
Qed.

Lemma part_is_no_worse_than_whole_witness :
  exists part,
    analyze_scan_results (VList scanned_page) = Ok part
    /\ (risk_score part <= 41)%Z.
Proof.
  destruct (part_is_no_worse_than_whole critical_record scanned_page one_low_record
              _ ltac:(vm_compute; reflexivity))
    as (part & Hp & _ & _ & Hs & _).
  exists part. split; [exact Hp | exact Hs].
Defined.

(* ================================================================== *)
(** ** Which exception the recommendation generator raises *)
(* ================================================================== *)

Lemma id_failure_none issue : id_failure issue = None <-> id_readable issue.
Proof.
  unfold id_failure, id_readable, getitem. destruct issue as [| | | | |?|d];
    try (split; [discriminate | intros (id & H & _); discriminate]).
  destruct (dict_get "id" d) as [id|].
  - destruct (hashable id) eqn:E; split; try discriminate; eauto.
    intros (id' & H & Hh). injection H as <-. congruence.
  - split; [discriminate | intros (id & H & _); discriminate].
Qed.

Lemma issue_ids_step ids issue :
  bind (getitem issue "id") (fun id => set_add id ids)
  = match id_failure issue with
    | Some e => Raise e
    | None => bind (getitem issue "id") (fun id =>
                Ok (if set_mem id ids then ids else ids ++ [id]))
    end.
Proof.
  unfold id_failure, getitem, set_add. destruct issue as [| | | | |?|d]; try reflexivity.
  destruct (dict_get "id" d) as [id|]; [|reflexivity]. simpl.
  destruct (hashable id); reflexivity.
Qed.

Lemma issue_ids_first_failure good : forall ids bad rest e,
  Forall id_readable good -> id_failure bad = Some e ->
  for_each (good ++ bad :: rest) ids
    (fun ids issue => bind (getitem issue "id") (fun id => set_add id ids))
  = Raise e.
Proof.
  induction good as [|issue good IH]; intros ids bad rest e Hgood Hbad.
  - cbn [app for_each]. now rewrite issue_ids_step, Hbad.
  - inversion Hgood as [|? ? Hi Hg]; subst. cbn [app for_each].
    rewrite issue_ids_step. apply id_failure_none in Hi. rewrite Hi.
    destruct (getitem issue "id") as [id|e'] eqn:Eg.
    + cbn [bind]. now apply IH.
    + apply id_failure_none in Hi. destruct Hi as (id & Hid & _). congruence.
Qed.

Lemma issue_ids_raises good bad rest e :
  Forall id_readable good -> id_failure bad = Some e ->
  issue_ids (good ++ bad :: rest) = Raise e.
Proof.
  intros Hgood Hbad. exact (issue_ids_first_failure good [] bad rest e Hgood Hbad).
Qed.

(** X17: [generate_recommendations] raises the exception of the first
    finding whose id cannot be read: KeyError for an object with no id
    field, TypeError for a finding that is no object or whose id is a
    list or an object; the findings after it are not looked at. *)
Theorem first_unreadable_id_decides good bad rest e
  (Hgood : Forall id_readable good) (Hbad : id_failure bad = Some e) :
  generate_recommendations (good ++ bad :: rest) = Raise e
  /\ (e = KeyError <-> exists d, bad = VDict d /\ dict_get "id" d = None)
  /\ (e = KeyError \/ e = TypeError).
Proof.
  split; [|split].
  - unfold generate_recommendations.
    now rewrite (issue_ids_raises good bad rest e Hgood Hbad).
  - unfold id_failure in Hbad. split.
    + intros ->. destruct bad as [| | | | |?|d]; try discriminate.
      exists d. split; [reflexivity|].
      destruct (dict_get "id" d) as [id|]; [|reflexivity].
      destruct (hashable id); discriminate.
    + intros (d & -> & Hn). rewrite Hn in Hbad. now injection Hbad.
  - unfold id_failure in Hbad. destruct bad as [| | | | |?|d];
      try (injection Hbad as <-; now right).
    destruct (dict_get "id" d) as [id|]; [|injection Hbad as <-; now left].
    destruct (hashable id); [discriminate | injection Hbad as <-; now right].
Qed.

Lemma first_unreadable_id_decides_witness :
  generate_recommendations second_has_no_id = Raise KeyError.
Proof.
  refine (proj1 (first_unreadable_id_decides
                   [VDict [("id", VStr "deep_sql_injection")]]
                   (VDict [("severity", VStr "high")]) [VInt 7] KeyError _ _)).
  - repeat constructor. eexists. split; reflexivity.
  - reflexivity.
Defined.
